(** * google-email-scraper-bot: a shallow embedding of [src/main.js]

    The development follows the layout of the source file: text helpers and
    the regular expressions, the CSV and Supabase writers, the e-mail
    extractor, the NopeCHA token solver, the per-query session loop, the
    batching loop of the entry point and the start-up header check.

    JavaScript strings are modelled as [string]; a character stands for a
    UTF-16 code unit below 256.  Every character class of the source is
    ASCII, so code units outside that range behave like any other character
    that belongs to no class. *)

From Stdlib Require Import Ascii String.
From stdpp Require Import gmap strings list pretty.

(** ** Strings *)

Module Str.

(** [s.includes(c)] for a one-character needle. *)
Fixpoint includes (c : ascii) (s : string) : bool :=
  match s with
  | EmptyString => false
  | String c' s' => if Ascii.eqb c' c then true else includes c s'
  end.

Fixpoint forallb (p : ascii → bool) (s : string) : bool :=
  match s with
  | EmptyString => true
  | String c s' => p c && forallb p s'
  end.

(** The first [n] characters: [s.slice(0, n)]. *)
Fixpoint take (n : nat) (s : string) : string :=
  match n, s with
  | S n', String c s' => String c (take n' s')
  | _, _ => EmptyString
  end.

Definition code (c : ascii) : nat := nat_of_ascii c.

Definition isUpper (c : ascii) : bool := (65 <=? code c) && (code c <=? 90).
Definition isLower (c : ascii) : bool := (97 <=? code c) && (code c <=? 122).
Definition isDigit (c : ascii) : bool := (48 <=? code c) && (code c <=? 57).

(** [String.prototype.toLowerCase]; the source applies it to regular
    expression matches only, which consist of ASCII characters. *)
Definition lowerChar (c : ascii) : ascii :=
  if isUpper c then ascii_of_nat (code c + 32) else c.

Fixpoint toLowerCase (s : string) : string :=
  match s with
  | EmptyString => EmptyString
  | String c s' => String (lowerChar c) (toLowerCase s')
  end.

(** [Array.prototype.join]. *)
Fixpoint join (sep : string) (l : list string) : string :=
  match l with
  | [] => EmptyString
  | [x] => x
  | x :: l' => x +:+ sep +:+ join sep l'
  end.

End Str.

(** ** Regular expressions

    A backtracking matcher with the priorities of the ECMAScript one: a
    quantifier is greedy and gives characters back one at a time, an
    alternation tries its branches from left to right.  The matcher is
    written in continuation-passing style: the continuation receives the
    rest of the input and answers with the rest left by the whole match. *)

Module Regex.

Inductive re :=
| Lit (w : string)                      (* literal text, e.g. [@] or [\.] *)
| Rep (p : ascii → bool) (min : nat)    (* greedy [[...]+] and [[...]{n,}] *)
| Seq (r1 r2 : re)
| Alt (r1 r2 : re).

Fixpoint strip (w s : string) : option string :=
  match w, s with
  | EmptyString, _ => Some s
  | String c w', String c' s' => if Ascii.eqb c c' then strip w' s' else None
  | String _ _, EmptyString => None
  end.

Fixpoint rep (p : ascii → bool) (min : nat) (s : string)
    (k : string → option string) : option string :=
  let stop := if min is 0 then k s else None in
  match s with
  | String c s' =>
      if p c then
        match rep p (pred min) s' k with
        | Some r => Some r
        | None => stop
        end
      else stop
  | EmptyString => stop
  end.

Fixpoint run (r : re) (s : string) (k : string → option string) : option string :=
  match r with
  | Lit w => match strip w s with Some s' => k s' | None => None end
  | Rep p min => rep p min s k
  | Seq r1 r2 => run r1 s (λ s', run r2 s' k)
  | Alt r1 r2 => match run r1 s k with Some x => Some x | None => run r2 s k end
  end.

(** One match attempt at the start of [s]: the text left after the match. *)
Definition exec (r : re) (s : string) : option string := run r s Some.

(** [RegExp.prototype.test] without the [g] flag: a match at some index. *)
Fixpoint test (r : re) (s : string) : bool :=
  match exec r s with
  | Some _ => true
  | None => match s with EmptyString => false | String _ s' => test r s' end
  end.

(** [String.prototype.match] with the [g] flag: the matched substrings from
    left to right, each search resuming where the previous match ended (one
    character further after an empty match).  [fuel] bounds the number of
    search positions. *)
Fixpoint matchAllFrom (r : re) (fuel : nat) (s : string) : list string :=
  match fuel with
  | 0 => []
  | S fuel' =>
      match exec r s, s with
      | Some rest, EmptyString => [EmptyString]
      | Some rest, String _ s' =>
          let n := String.length s - String.length rest in
          Str.take n s :: matchAllFrom r fuel' (if n is 0 then s' else rest)
      | None, EmptyString => []
      | None, String _ s' => matchAllFrom r fuel' s'
      end
  end.

Definition matchAll (r : re) (s : string) : list string :=
  matchAllFrom r (S (String.length s)) s.

End Regex.

(** ** The patterns of the source *)

(** [[a-zA-Z0-9._%+-]] *)
Definition isLocalChar (c : ascii) : bool :=
  Str.isLower c || Str.isUpper c || Str.isDigit c
  || Ascii.eqb c "."%char || Ascii.eqb c "_"%char || Ascii.eqb c "%"%char
  || Ascii.eqb c "+"%char || Ascii.eqb c "-"%char.

(** [[a-zA-Z0-9.-]] *)
Definition isDomainChar (c : ascii) : bool :=
  Str.isLower c || Str.isUpper c || Str.isDigit c
  || Ascii.eqb c "."%char || Ascii.eqb c "-"%char.

(** [[a-zA-Z]] *)
Definition isAlpha (c : ascii) : bool := Str.isLower c || Str.isUpper c.

(** [/[a-zA-Z0-9._%+-]+@[a-zA-Z0-9.-]+\.[a-zA-Z]{2,}/g] *)
Definition EMAIL_REGEX : Regex.re :=
  Regex.Seq (Regex.Rep isLocalChar 1)
    (Regex.Seq (Regex.Lit "@")
       (Regex.Seq (Regex.Rep isDomainChar 1)
          (Regex.Seq (Regex.Lit ".") (Regex.Rep isAlpha 2)))).

(** [/(example\.com|example\.org|example\.net|noreply@|no-reply@)/] *)
Definition DENY_REGEX : Regex.re :=
  Regex.Alt (Regex.Lit "example.com")
    (Regex.Alt (Regex.Lit "example.org")
       (Regex.Alt (Regex.Lit "example.net")
          (Regex.Alt (Regex.Lit "noreply@") (Regex.Lit "no-reply@")))).

(** A promise either fulfils with a value or rejects. *)
Inductive settled (A : Type) :=
| Fulfilled (a : A)
| Rejected.
Arguments Fulfilled {A} a.
Arguments Rejected {A}.

Definition fulfils {A} (p : settled A) : bool :=
  match p with Fulfilled _ => true | Rejected => false end.

(** ** Email extraction *)

Module Extractor.

Definition denyListed (e : string) : bool := Regex.test DENY_REGEX e.

(** [extractEmailsFromPage]: [innerText] is what [page.evaluate] settles
    with; a rejection is caught and gives the empty list. *)
Definition extractEmailsFromPage (innerText : settled string) : list string :=
  match innerText with
  | Fulfilled text =>
      filter (λ e, denyListed e = false)
        (Str.toLowerCase <$> Regex.matchAll EMAIL_REGEX text)
  | Rejected => []
  end.

End Extractor.

(** ** Configuration: the constants read from the environment *)

(** What [Math.max(1, parseInt(text, 10))] can be: not a number when
    [parseInt] reads no digit; else a whole number of at least one, kept
    exactly while it is below [2^53], where a double holds every whole
    number; else a value of [2^53] or more, finite or infinite, of which
    only that much is kept. *)
Inductive ceiling :=
| NotANumber
| Whole (n : positive)
| Huge.

Record Config := {
  ROOT_DIR : string;
  CONCURRENCY : ceiling;      (* [Math.max(1, parseInt(...))] *)
  supabase : bool;            (* the client exists: url and key were both set *)
  SUPABASE_TABLE : string;
  NOPECHA_API_KEY : string;
}.

(** [path.join(ROOT_DIR, 'output.csv')] *)
Definition OUTPUT_FILE (cfg : Config) : string := ROOT_DIR cfg +:+ "/output.csv".

(** ** CSV helpers *)

Module Csv.

Definition dquote : ascii := "034"%char.
Definition LF : string := String "010"%char EmptyString.
Definition comma : ascii := ","%char.

Definition HEADER : string := "email,query,timestamp".

(** The rows built by [runQuery]: [{ email, query, timestamp }]. *)
Record Row := { email : string; query : string; timestamp : string }.

Global Instance Row_eq_dec : EqDecision Row.
Proof. solve_decision. Defined.

(** The replacement in [escapeCsv]: every double quote is written twice. *)
Fixpoint doubleQuotes (s : string) : string :=
  match s with
  | EmptyString => EmptyString
  | String c s' =>
      if Ascii.eqb c dquote
      then String dquote (String dquote (doubleQuotes s'))
      else String c (doubleQuotes s')
  end.

Definition escapeCsv (s : string) : string :=
  if Str.includes comma s || Str.includes dquote s || Str.includes "010"%char s
  then String dquote (doubleQuotes s +:+ String dquote EmptyString)
  else s.

(** One element of [rows.map(r => `${escapeCsv(r.email)},${escapeCsv(r.timestamp)}`)]. *)
Definition csvLine (r : Row) : string :=
  escapeCsv (email r) +:+ String comma (escapeCsv (timestamp r)).

Definition csvContent (rows : list Row) : string :=
  Str.join LF (csvLine <$> rows) +:+ LF.

(** Reading a line back.  The number of fields of one line of delimited
    text under the usual quoting: a comma separates fields unless it stands
    between quotes.  The source only writes; this reader states what the
    written lines look like to a consumer of the file. *)
Fixpoint fieldsFrom (inQuotes : bool) (line : string) : nat :=
  match line with
  | EmptyString => 1
  | String c s' =>
      if Ascii.eqb c dquote then fieldsFrom (negb inQuotes) s'
      else if Ascii.eqb c comma && negb inQuotes then S (fieldsFrom false s')
      else fieldsFrom inQuotes s'
  end.

Definition fieldCount (line : string) : nat := fieldsFrom false line.

End Csv.

Module Supabase.

(** The objects built by [saveToSupabase]: [{ created_at, email }]. *)
Record Insert := { created_at : string; email : string }.

Global Instance Insert_eq_dec : EqDecision Insert.
Proof. solve_decision. Defined.

Definition ofRow (r : Csv.Row) : Insert :=
  {| created_at := Csv.timestamp r; email := Csv.email r |}.

End Supabase.

(** ** Effects of a query session *)

Inductive event :=
| AcquireContext                         (* [browser.newContext] fulfilled *)
| NewPage
| Goto (query : string) (loaded : bool)   (* a failed load is logged *)
| Detect (pageNum : nat)                 (* [maybeHandleCaptcha(page)] *)
| RecoveryWait                           (* the wait after a solved challenge *)
| Extract                                (* [extractEmailsFromPage(page)] *)
| Collect (e : string)                   (* [collected.add(e)] *)
| AppendToCSV (rows : list Csv.Row)      (* the call [appendToCSV(rows)] *)
| FsAppend (path content : string) (written : bool)
| SaveToSupabase (rows : list Csv.Row)   (* the call [saveToSupabase(rows)] *)
| DbInsert (table : string) (inserts : list Supabase.Insert) (stored : bool)
| NextPage                               (* [goToNextPage(page)] *)
| Pause                                  (* the sleep between two pages *)
| LogFailed                              (* the [catch] of [runQuery] *)
| ReleaseContext (closed : bool).        (* [context.close()] is called; a
                                            failure is ignored *)

Global Instance event_eq_dec : EqDecision event.
Proof. solve_decision. Defined.

(** ** Persistence *)

Module Persist.

(** [appendToCSV]; [written] tells whether [fs.appendFileSync] succeeds, a
    failure is logged and swallowed. *)
Definition appendToCSV (cfg : Config) (written : bool) (rows : list Csv.Row)
    : list event :=
  match rows with
  | [] => []
  | _ => [FsAppend (OUTPUT_FILE cfg) (Csv.csvContent rows) written]
  end.

(** [saveToSupabase]; an insertion error or exception is logged and
    swallowed. *)
Definition saveToSupabase (cfg : Config) (stored : bool) (rows : list Csv.Row)
    : list event :=
  if negb (supabase cfg) then []
  else match rows with
       | [] => []
       | _ => [DbInsert (SUPABASE_TABLE cfg) (Supabase.ofRow <$> rows) stored]
       end.

End Persist.

(** ** The NopeCHA token solver *)

Module Solver.

(** Values read from a parsed JSON reply. *)
Inductive jsval :=
| JUndefined
| JString (s : string)
| JOther (truthy : bool).      (* a number, boolean, object or null *)

Definition truthy (v : jsval) : bool :=
  match v with
  | JUndefined => false
  | JString EmptyString => false
  | JString _ => true
  | JOther b => b
  end.

(** [a || b] *)
Definition or (a b : jsval) : jsval := if truthy a then a else b.

Definition isString (v : jsval) : bool :=
  match v with JString _ => true | _ => false end.

(** What [JSON.parse(text || '{}')] yields, read through the fields the
    source looks at; every field is undefined when the text does not parse
    to an object. *)
Record Json := {
  token : jsval; id : jsval; data : jsval; task : jsval; solution : jsval
}.

Record Reply := { status : nat; text : string; json : Json }.

(** [res.ok] *)
Definition ok (r : Reply) : bool := (200 <=? status r) && (status r <=? 299).

(** The external service: the reply to the POST for a type, and the reply
    to the [i]-th poll of the ticket obtained for that type.  A type is
    posted at most once, so a function of the type loses nothing. *)
Record Service := {
  post : string → settled Reply;
  poll : string → nat → settled Reply;
}.

Record Body := {
  key : string; type : string; sitekey : string; url : string;
  action : option string;                 (* [body.data = { action }] *)
}.

Inductive call :=
| Post (body : Body)
| Poll (ticket : jsval)
| Sleep (ms : nat).

Record Args := { siteKey : string; pageUrl : string; typeHint : option string }.

Definition FALLBACK : list string :=
  ["recaptcha3"; "recaptcha"; "recaptcha_enterprise"].

(** [if (typeHint) types.push(typeHint)]: an empty hint is falsy. *)
Definition hinted (typeHint : option string) : list string :=
  match typeHint with
  | Some (String c h) => [String c h]
  | _ => []
  end.

Definition candidateTypes (typeHint : option string) : list string :=
  foldl (λ types t, if bool_decide (t ∈ types) then types else types ++ [t])
    (hinted typeHint) FALLBACK.

Definition bodyFor (cfg : Config) (a : Args) (t : string) : Body :=
  {| key := NOPECHA_API_KEY cfg; type := t; sitekey := siteKey a;
     url := pageUrl a;
     action := if bool_decide (t = "recaptcha3") then Some "check" else None |}.

(** [/Invalid type/i] *)
Definition invalidType (text : string) : bool :=
  Regex.test (Regex.Lit "invalid type") (Str.toLowerCase text).

(** The polling loop [for (let i = 0; i < 20; i++)], from attempt [i] with
    [n] attempts left. *)
Fixpoint pollLoop (svc : Service) (t : string) (ticket : jsval) (i n : nat)
    : list call * option jsval :=
  match n with
  | 0 => ([], None)
  | S n' =>
      let again (extra : list call) :=
        let '(tr, res) := pollLoop svc t ticket (S i) n' in
        (Sleep 1500 :: Poll ticket :: extra ++ tr, res) in
      let found (v : jsval) := ([Sleep 1500; Poll ticket], Some v) in
      match poll svc t i with
      | Rejected => again []
      | Fulfilled r =>
          if negb (ok r) then
            again (if status r =? 429 then [Sleep 1000] else [])
          else if truthy (token (json r)) then found (token (json r))
          else if truthy (solution (json r)) then found (solution (json r))
          else if truthy (data (json r)) && isString (data (json r))
               then found (data (json r))
          else again []
      end
  end.


(** One turn of [for (const t of types)]: the calls made for [t] and the
    token when one came back; every exception is caught inside the turn. *)
Definition attempt (cfg : Config) (svc : Service) (a : Args) (t : string)
    : list call * option jsval :=
  let sent := Post (bodyFor cfg a t) in
  match post svc t with
  | Rejected => ([sent], None)
  | Fulfilled r =>
      if negb (ok r) then
        if (status r =? 400) && invalidType (text r) then ([sent], None)
        else if status r =? 429 then ([sent; Sleep 1000], None)
        else ([sent], None)
      else if truthy (token (json r)) then ([sent], Some (token (json r)))
      else
        let ticket := or (or (id (json r)) (data (json r))) (task (json r)) in
        if truthy ticket then
          let '(tr, res) := pollLoop svc t ticket 0 20 in (sent :: tr, res)
        else ([sent], None)
  end.

Fixpoint tryTypes (cfg : Config) (svc : Service) (a : Args) (types : list string)
    : list call * option jsval :=
  match types with
  | [] => ([], None)
  | t :: ts =>
      match attempt cfg svc a t with
      | (tr, Some tok) => (tr, Some tok)
      | (tr, None) =>
          let '(tr', res) := tryTypes cfg svc a ts in (tr ++ tr', res)
      end
  end.

(** The calls made for the types [ts], one turn after the other. *)
Definition calls (cfg : Config) (svc : Service) (a : Args) (ts : list string)
    : list call :=
  concat ((λ u, (attempt cfg svc a u).1) <$> ts).

(** [solveRecaptchaToken]: the calls made and the token, [None] for [null]. *)
Definition solveRecaptchaToken (cfg : Config) (svc : Service) (a : Args)
    : list call * option jsval :=
  match NOPECHA_API_KEY cfg with
  | EmptyString => ([], None)
  | _ => tryTypes cfg svc a (candidateTypes (typeHint a))
  end.

End Solver.

(** ** The query session *)

Module Session.

(** The result of [maybeHandleCaptcha]: [{ present, solved }]. *)
Record CaptchaStatus := { present : bool; solved : bool }.

(** What the page does when one selector of [goToNextPage] is tried. *)
Inductive probe :=
| ProbeRejects                       (* [page.$(sel)] throws *)
| ProbeNull                          (* no such element *)
| ProbeElement (settles : settled unit).
    (* an element; [settles] tells whether scrolling to it and the timed
       waits complete (a failed click or results wait is tolerated) *)

(** What the browser page answers during one pass of the loop. *)
Record IterEnv := {
  detect : settled CaptchaStatus;    (* the body of [maybeHandleCaptcha] *)
  recoveryWait : settled unit;       (* [page.waitForTimeout] after a solve *)
  innerText : settled string;        (* [page.evaluate] of the extractor *)
  clock : nat → string;              (* [new Date().toISOString()], per row *)
  written : bool;                    (* [fs.appendFileSync] succeeds *)
  stored : bool;                     (* the Supabase insert succeeds *)
  nextProbe : string → probe;
}.

Record SessionEnv := {
  newContext : settled unit;
  newPage : settled unit;
  goto : settled unit;
  pages : list IterEnv;
  close : settled unit;
}.

Record State := {
  collected : gset string;
  pageNum : nat;
  consecutiveCaptcha : nat;
}.

Definition initial : State :=
  {| collected := ∅; pageNum := 1; consecutiveCaptcha := 0 |}.

(** How the [while (true)] loop is left. *)
Inductive exit :=
| Blocked            (* too many unsolved challenges *)
| Exhausted          (* no more pages *)
| Thrown.            (* an exception reached the [catch] of [runQuery] *)

Global Instance exit_eq_dec : EqDecision exit.
Proof. solve_decision. Defined.

(** *** A state, trace and exit monad for the loop body *)

Inductive result (A : Type) :=
| Val (a : A)
| Exit (why : exit).
Arguments Val {A} a.
Arguments Exit {A} why.

Definition M (A : Type) : Type := State → list event * State * result A.

Definition ret {A} (a : A) : M A := λ st, ([], st, Val a).

Definition bind {A B} (f : A → M B) (m : M A) : M B := λ st,
  match m st with
  | (tr, st', Val a) => let '(tr', st'', r) := f a st' in (tr ++ tr', st'', r)
  | (tr, st', Exit why) => (tr, st', Exit why)
  end.

Global Instance M_ret : MRet M := @ret.
Global Instance M_bind : MBind M := @bind.

Definition emit (ev : event) : M unit := λ st, ([ev], st, Val tt).
Definition emits (evs : list event) : M unit := λ st, (evs, st, Val tt).
Definition gets {A} (f : State → A) : M A := λ st, ([], st, Val (f st)).
Definition modify (f : State → State) : M unit := λ st, ([], f st, Val tt).
Definition break (why : exit) : M unit := λ st, ([], st, Exit why).
Definition when (b : bool) (m : M unit) : M unit := if b then m else mret tt.

(** [await p] for a promise of the page: a rejection is thrown. *)
Definition await {A} (p : settled A) : M A :=
  match p with
  | Fulfilled a => mret a
  | Rejected => λ st, ([], st, Exit Thrown)
  end.

(** *** The helpers called by the loop *)

(** [maybeHandleCaptcha]: the whole body stands in a [try]; when it throws,
    the function answers that no challenge is present. *)
Definition maybeHandleCaptcha (body : settled CaptchaStatus) : CaptchaStatus :=
  match body with
  | Fulfilled st => st
  | Rejected => {| present := false; solved := false |}
  end.

Definition attr (name value : string) : string :=
  "[" +:+ name +:+ "=" +:+ String Csv.dquote (value +:+ String Csv.dquote "]").

Definition NEXT_SELECTORS : list string :=
  ["a#pnnext"; "a#pnnext span.oeN89d";
   "a" +:+ attr "aria-label" "Next page"; "a" +:+ attr "aria-label" "Next"].

(** [goToNextPage]: the first selector whose element is reached answers
    [true]; an exception for one selector moves on to the next one. *)
Fixpoint goToNextPageFrom (p : string → probe) (selectors : list string) : bool :=
  match selectors with
  | [] => false
  | sel :: rest =>
      match p sel with
      | ProbeElement (Fulfilled _) => true
      | _ => goToNextPageFrom p rest
      end
  end.

Definition goToNextPage (p : string → probe) : bool :=
  goToNextPageFrom p NEXT_SELECTORS.

Definition setCaptcha (n : nat) (st : State) : State :=
  {| collected := collected st; pageNum := pageNum st; consecutiveCaptcha := n |}.

Definition add (e : string) (st : State) : State :=
  {| collected := {[e]} ∪ collected st; pageNum := pageNum st;
     consecutiveCaptcha := consecutiveCaptcha st |}.

Definition nextPageNum (st : State) : State :=
  {| collected := collected st; pageNum := S (pageNum st);
     consecutiveCaptcha := consecutiveCaptcha st |}.

(** [newEmails.forEach(e => collected.add(e))] *)
Fixpoint addAll (es : list string) : M unit :=
  match es with
  | [] => mret tt
  | e :: es' => modify (add e) ;; emit (Collect e) ;; addAll es'
  end.

Definition rowsFor (query : string) (clock : nat → string) (newEmails : list string)
    : list Csv.Row :=
  imap (λ i e, {| Csv.email := e; Csv.query := query; Csv.timestamp := clock i |})
    newEmails.

(** *** One pass of the loop body *)

Definition iteration (cfg : Config) (query : string) (env : IterEnv) : M unit :=
  n ← gets pageNum ;
  emit (Detect n) ;;
  let st := maybeHandleCaptcha (detect env) in
  (if present st && negb (solved st) then
     c ← gets consecutiveCaptcha ;
     modify (setCaptcha (S c)) ;;
     when (3 <=? S c) (break Blocked)
   else modify (setCaptcha 0)) ;;
  when (present st && solved st)
    (emit RecoveryWait ;; await (recoveryWait env)) ;;
  emit Extract ;;
  let emails := Extractor.extractEmailsFromPage (innerText env) in
  seen ← gets collected ;
  let newEmails := filter (λ e, e ∉ seen) emails in
  addAll newEmails ;;
  when (negb (bool_decide (newEmails = [])))
    (let rows := rowsFor query (clock env) newEmails in
     emit (AppendToCSV rows) ;;
     emits (Persist.appendToCSV cfg (written env) rows) ;;
     emit (SaveToSupabase rows) ;;
     emits (Persist.saveToSupabase cfg (stored env) rows)) ;;
  emit NextPage ;;
  (if goToNextPage (nextProbe env) then modify nextPageNum ;; emit Pause
   else break Exhausted).

(** *** The loop body read case by case

    The notions below name what one pass does; [SessionFacts] proves that
    they agree with [iteration]. *)

(** The challenge is present and not solved. *)
Definition unresolved (env : IterEnv) : bool :=
  let s := maybeHandleCaptcha (detect env) in present s && negb (solved s).

(** The challenge is present and solved. *)
Definition resolved (env : IterEnv) : bool :=
  let s := maybeHandleCaptcha (detect env) in present s && solved s.

Definition newEmailsOf (env : IterEnv) (st : State) : list string :=
  filter (λ e, e ∉ collected st)
    (Extractor.extractEmailsFromPage (innerText env)).

Definition collect (es : list string) (st : State) : State :=
  foldl (λ s e, add e s) st es.

(** The events of the hand-over to the two writers. *)
Definition handoff (cfg : Config) (query : string) (env : IterEnv)
    (newEmails : list string) : list event :=
  match newEmails with
  | [] => []
  | _ =>
      let rows := rowsFor query (clock env) newEmails in
      AppendToCSV rows :: Persist.appendToCSV cfg (written env) rows
      ++ SaveToSupabase rows :: Persist.saveToSupabase cfg (stored env) rows
  end.

(** The counter after the challenge check of a pass. *)
Definition counterAfter (env : IterEnv) (st : State) : nat :=
  if unresolved env then S (consecutiveCaptcha st) else 0.

(** The pass stops the query as blocked. *)
Definition blocks (env : IterEnv) (st : State) : bool :=
  unresolved env && (3 <=? counterAfter env st).

(** The pass is left by the exception of the recovery wait. *)
Definition throws (env : IterEnv) : bool :=
  resolved env && match recoveryWait env with Rejected => true | _ => false end.

(** The paginator finds a next page. *)
Definition advances (env : IterEnv) : Prop := goToNextPage (nextProbe env) = true.

(** The way a pass ends. *)
Definition passResult (env : IterEnv) (st : State) : result unit :=
  if blocks env st then Exit Blocked
  else if throws env then Exit Thrown
  else if goToNextPage (nextProbe env) then Val tt
  else Exit Exhausted.

(** The loop was left in the middle of a pass: blocked, or by an
    exception. *)
Definition cutShort (r : option exit) : bool :=
  match r with
  | Some Blocked | Some Thrown => true
  | _ => false
  end.

(** [while (true)], one pass per element of the script; [None] when the
    script ends with the loop still running. *)
Fixpoint loop (cfg : Config) (query : string) (script : list IterEnv) (st : State)
    : list event * State * option exit :=
  match script with
  | [] => ([], st, None)
  | env :: rest =>
      match iteration cfg query env st with
      | (tr, st', Val _) =>
          let '(tr', st'', r) := loop cfg query rest st' in (tr ++ tr', st'', r)
      | (tr, st', Exit why) => (tr, st', Some why)
      end
  end.

Inductive run :=
| Returned (st : State) (why : exit)   (* the promise of [runQuery] fulfils *)
| Rejects                              (* it rejects *)
| Unfinished (st : State).             (* the script ended inside the loop *)

(** [runQuery] *)
Definition runQuery (cfg : Config) (query : string) (env : SessionEnv)
    : list event * run :=
  match newContext env with
  | Rejected => ([], Rejects)
  | Fulfilled _ =>
      match newPage env with
      | Rejected => ([AcquireContext], Rejects)
      | Fulfilled _ =>
          let start := [AcquireContext; NewPage; Goto query (fulfils (goto env))] in
          match loop cfg query (pages env) initial with
          | (tr, st, None) => (start ++ tr, Unfinished st)
          | (tr, st, Some why) =>
              (start ++ tr
                 ++ (if bool_decide (why = Thrown) then [LogFailed] else [])
                 ++ [ReleaseContext (fulfils (close env))],
               Returned st why)
          end
      end
  end.

End Session.

(** ** Reading traces *)

Module Trace.

Fixpoint count (p : event → bool) (tr : list event) : nat :=
  match tr with
  | [] => 0
  | ev :: tr' => (if p ev then 1 else 0) + count p tr'
  end.

Definition isDetect (ev : event) : bool :=
  match ev with Detect _ => true | _ => false end.
Definition isExtract (ev : event) : bool :=
  match ev with Extract => true | _ => false end.
Definition isAcquire (ev : event) : bool :=
  match ev with AcquireContext => true | _ => false end.
Definition isRelease (ev : event) : bool :=
  match ev with ReleaseContext _ => true | _ => false end.

(** The events of a hand-over to the writers. *)
Definition isHandOver (ev : event) : bool :=
  match ev with
  | AppendToCSV _ | FsAppend _ _ _ | SaveToSupabase _ | DbInsert _ _ _ => true
  | _ => false
  end.

(** The passes of the loop that were begun, one [Detect] each. *)
Definition passes (tr : list event) : nat := count isDetect tr.
Definition extractions (tr : list event) : nat := count isExtract tr.
Definition acquired (tr : list event) : nat := count isAcquire tr.
Definition released (tr : list event) : nat := count isRelease tr.

(** The seen-records set after the events of [tr], from the set [seen]. *)
Fixpoint seenAfter (seen : gset string) (tr : list event) : gset string :=
  match tr with
  | [] => seen
  | Collect e :: tr' => seenAfter ({[e]} ∪ seen) tr'
  | _ :: tr' => seenAfter seen tr'
  end.

(** A monitor for the hand-over: walking along the trace with the seen
    set as it was when the last extraction began ([atExtract]) and as it
    is now ([now]), every record handed to a writer has an identity that
    was not seen when the extraction began and is in the set now. *)
Fixpoint handedFresh (atExtract now : gset string) (tr : list event) : Prop :=
  match tr with
  | [] => True
  | Extract :: tr' => handedFresh now now tr'
  | Collect e :: tr' => handedFresh atExtract ({[e]} ∪ now) tr'
  | AppendToCSV rows :: tr' | SaveToSupabase rows :: tr' =>
      Forall (λ r, (Csv.email r ∉ atExtract) ∧ (Csv.email r ∈ now)) rows
      ∧ handedFresh atExtract now tr'
  | _ :: tr' => handedFresh atExtract now tr'
  end.

End Trace.

(** ** The entry point: batches of sessions *)

Module Scheduler.

(** How the promise of one [runQuery] call ends; [Never] stands for a
    session that is still running when the observation stops. *)
Inductive sessionEnd :=
| Settles (r : settled unit)
| Never.

Inductive schedEvent :=
| Launch (idx : nat) (batch : list string)     (* [slice.map(q => runQuery(browser, q))] *)
| Joined (results : list (settled unit))       (* [Promise.allSettled] fulfils *)
| CloseBrowser.

Inductive schedResult :=
| Completed
| Waiting          (* [Promise.allSettled] is still pending *)
| OutOfFuel
| Fatal.           (* [process.exit(1)]: no query in the input *)

(** [queries.slice(idx, idx + C)] *)
Definition slice {A} (queries : list A) (idx C : nat) : list A :=
  take C (drop idx queries).

(** [Promise.allSettled]: fulfils once every promise has settled, with
    the outcomes in the order of the input. *)
Fixpoint allSettled (ends : list sessionEnd) : option (list (settled unit)) :=
  match ends with
  | [] => Some []
  | Settles r :: rest => (r ::.) <$> allSettled rest
  | Never :: _ => None
  end.

(** [while (idx < queries.length)] with a whole number for the ceiling; the
    session started for the query at position [i] ends as [run i] tells. *)
Fixpoint batchLoop (fuel C : nat) (queries : list string)
    (run : nat → string → sessionEnd) (idx : nat)
    : list schedEvent * schedResult :=
  if idx <? length queries then
    match fuel with
    | 0 => ([], OutOfFuel)
    | S fuel' =>
        let batch := slice queries idx C in
        let ends := imap (λ i q, run (idx + i) q) batch in
        match allSettled ends with
        | None => ([Launch idx batch], Waiting)
        | Some results =>
            let '(tr, r) := batchLoop fuel' C queries run (idx + C) in
            (Launch idx batch :: Joined results :: tr, r)
        end
    end
  else ([], Completed).

(** The batches launched, in order. *)
Fixpoint launched (tr : list schedEvent) : list (list string) :=
  match tr with
  | [] => []
  | Launch _ batch :: tr' => batch :: launched tr'
  | _ :: tr' => launched tr'
  end.

(** Every batch but the last holds [C] queries, the last one between one
    and [C]. *)
Fixpoint fullButLast {A} (C : nat) (batches : list (list A)) : Prop :=
  match batches with
  | [] => True
  | [b] => 1 ≤ length b ≤ C
  | b :: rest => length b = C ∧ fullButLast C rest
  end.

(** The join barrier, read off a trace: every launch is followed at once,
    before any other launch, by the join of its batch; the join carries,
    position by position, the outcome with which the session of each query
    of the batch has ended, fulfilled or rejected.  Only the last launch
    may stand without its join: the loop is then waiting, and one session
    of that batch has not ended. *)
Fixpoint barrier (run : nat → string → sessionEnd) (tr : list schedEvent)
    (r : schedResult) : Prop :=
  match tr with
  | [] => r ≠ Waiting
  | Launch idx batch :: tr' =>
      match tr' with
      | [] => r = Waiting
              ∧ ∃ i q, batch !! i = Some q ∧ run (idx + i) q = Never
      | Joined results :: tr'' =>
          length results = length batch
          ∧ (∀ i q, batch !! i = Some q →
                    ∃ o, run (idx + i) q = Settles o ∧ results !! i = Some o)
          ∧ barrier run tr'' r
      | _ => False
      end
  | _ => False
  end.

Definition sessionEndOf (r : list event * Session.run) : sessionEnd :=
  match r.2 with
  | Session.Returned _ _ => Settles (Fulfilled tt)
  | Session.Rejects => Settles Rejected
  | Session.Unfinished _ => Never
  end.

(** The session started for the query at position [i] runs [runQuery]
    against the page answers [envs i]. *)
Definition sessions (cfg : Config) (envs : nat → Session.SessionEnv)
    : nat → string → sessionEnd :=
  λ i q, sessionEndOf (Session.runQuery cfg q (envs i)).

(** The value of [idx] in the loop under the ceiling as configured: a
    whole number, a value above every index (what [idx += CONCURRENCY]
    gives under a huge ceiling), or [NaN]. *)
Inductive position :=
| At (i : nat)
| Beyond
| Nowhere.

(** [idx + CONCURRENCY] *)
Definition plus (idx : nat) (C : ceiling) : position :=
  match C with
  | Whole n => At (idx + Pos.to_nat n)
  | Huge => Beyond
  | NotANumber => Nowhere
  end.

(** [idx < queries.length], with the index when it holds; the comparison
    is false for [NaN]. *)
Definition inside (p : position) (len : nat) : option nat :=
  match p with
  | At i => if i <? len then Some i else None
  | Beyond | Nowhere => None
  end.

(** [queries.slice(idx, end)]: an [end] that is not a number is read as
    zero, one above every index as the length. *)
Definition sliceTo {A} (queries : list A) (idx : nat) (e : position) : list A :=
  match e with
  | At j => take (j - idx) (drop idx queries)
  | Beyond => drop idx queries
  | Nowhere => take (0 - idx) (drop idx queries)
  end.

(** The loop under the ceiling as configured, from the position [p]:
    [while (idx < queries.length) { slice; allSettled; idx += CONCURRENCY }]. *)
Fixpoint batchesFrom (fuel : nat) (C : ceiling) (queries : list string)
    (run : nat → string → sessionEnd) (p : position)
    : list schedEvent * schedResult :=
  match inside p (length queries) with
  | None => ([], Completed)
  | Some idx =>
      match fuel with
      | 0 => ([], OutOfFuel)
      | S fuel' =>
          let batch := sliceTo queries idx (plus idx C) in
          let ends := imap (λ i q, run (idx + i) q) batch in
          match allSettled ends with
          | None => ([Launch idx batch], Waiting)
          | Some results =>
              let '(tr, r) := batchesFrom fuel' C queries run (plus idx C) in
              (Launch idx batch :: Joined results :: tr, r)
          end
      end
  end.

(** [let idx = 0] and the loop. *)
Definition batches (fuel : nat) (C : ceiling) (queries : list string)
    (run : nat → string → sessionEnd) : list schedEvent * schedResult :=
  batchesFrom fuel C queries run (At 0).

(** The entry point once the queries are read: without any query the
    process exits; otherwise the batches run against one browser, which the
    [finally] closes when the loop is over. *)
Definition main (cfg : Config) (queries : list string)
    (envs : nat → Session.SessionEnv) : list schedEvent * schedResult :=
  match queries with
  | [] => ([], Fatal)
  | _ =>
      let run := sessions cfg envs in
      match batches (length queries) (CONCURRENCY cfg) queries run with
      | (tr, Completed) => (tr ++ [CloseBrowser], Completed)
      | other => other
      end
  end.

End Scheduler.

(** ** Start-up: the header of the output file *)

Module Startup.

(** The first element of [content.split(/\r?\n/)]. *)
Fixpoint firstLine (s : string) : string :=
  match s with
  | EmptyString => EmptyString
  | String c s' =>
      if Ascii.eqb c "010"%char then EmptyString
      else if Ascii.eqb c "013"%char then
        match s' with
        | String c' _ =>
            if Ascii.eqb c' "010"%char then EmptyString else String c (firstLine s')
        | EmptyString => String c EmptyString
        end
      else String c (firstLine s')
  end.

(** White space of [String.prototype.trim] among the code units below
    256: tab, line feed, vertical tab, form feed, carriage return, space
    and no-break space. *)
Definition isSpace (c : ascii) : bool :=
  let n := Str.code c in
  ((9 <=? n) && (n <=? 13)) || (n =? 32) || (n =? 160).

Fixpoint trimStart (s : string) : string :=
  match s with
  | String c s' => if isSpace c then trimStart s' else s
  | EmptyString => EmptyString
  end.

Fixpoint trimEnd (s : string) : string :=
  match s with
  | EmptyString => EmptyString
  | String c s' =>
      match trimEnd s' with
      | EmptyString => if isSpace c then EmptyString else String c EmptyString
      | t => String c t
      end
  end.

Definition trim (s : string) : string := trimEnd (trimStart s).

(** [path.replace(/\.csv$/i, repl)] *)
Fixpoint replaceCsvSuffix (path repl : string) : string :=
  if String.eqb (Str.toLowerCase path) ".csv" then repl
  else match path with
       | EmptyString => EmptyString
       | String c path' => String c (replaceCsvSuffix path' repl)
       end.

(** [`.backup-${Date.now()}.csv`] *)
Definition backupPath (cfg : Config) (now : N) : string :=
  replaceCsvSuffix (OUTPUT_FILE cfg) (".backup-" +:+ pretty now +:+ ".csv").

Definition headerFile : string := Csv.HEADER +:+ Csv.LF.

(** The block [Ensure CSV header], on a file system that maps a path to
    the content of the file; [now] is [Date.now()].  The file operations
    are taken to succeed (a failure ends the process with status 1). *)
Definition ensureHeader (cfg : Config) (now : N) (fs : gmap string string)
    : gmap string string :=
  match fs !! OUTPUT_FILE cfg with
  | None => <[OUTPUT_FILE cfg := headerFile]> fs
  | Some content =>
      if bool_decide (trim (firstLine content) ≠ Csv.HEADER) then
        let fs' := <[backupPath cfg now := content]> fs in   (* copyFileSync *)
        <[OUTPUT_FILE cfg := headerFile]> fs'                (* writeFileSync *)
      else fs
  end.

End Startup.

(** ** Page texts with delimited addresses

    The vocabulary in which the statements about the extractor are written:
    a page text laid out as addresses with the text that stands before each
    of them, and the text after the last one. *)

Module Page.

Record address := { localPart : string; domain : string; tld : string }.

Definition addressText (a : address) : string :=
  localPart a +:+ String "@"%char (domain a +:+ String "."%char (tld a)).

Definition nonEmpty (s : string) : bool :=
  match s with EmptyString => false | _ => true end.

(** The address is a full match of [EMAIL_REGEX]: a local part, [@], a
    domain, a dot and at least two letters. *)
Definition wellFormed (a : address) : bool :=
  nonEmpty (localPart a) && Str.forallb isLocalChar (localPart a)
  && nonEmpty (domain a) && Str.forallb isDomainChar (domain a)
  && (2 <=? String.length (tld a)) && Str.forallb isAlpha (tld a).

Definition noAt (s : string) : bool := negb (Str.includes "@"%char s).

(** [s] is empty or its last character is outside the class [p]. *)
Fixpoint endsOutside (p : ascii → bool) (s : string) : bool :=
  match s with
  | EmptyString => true
  | String c EmptyString => negb (p c)
  | String _ s' => endsOutside p s'
  end.





Fixpoint text (items : list (string * address)) (trail : string) : string :=
  match items with
  | [] => trail
  | (gap, a) :: rest => gap +:+ addressText a +:+ text rest trail
  end.







End Page.

(** ** Sample inputs *)

Module Samples.
Import Session.

Definition cfg : Config :=
  {| ROOT_DIR := "/app"; CONCURRENCY := Whole 3; supabase := true;
     SUPABASE_TABLE := "email_table"; NOPECHA_API_KEY := "key" |}.

(** A page on which every selector of the paginator finds its element,
    and one without any. *)
Definition withNext : string → probe := λ _, ProbeElement (Fulfilled tt).
Definition withoutNext : string → probe := λ _, ProbeNull.

Definition page (status : settled CaptchaStatus) (wait : settled unit)
    (body : settled string) (next : string → probe) : IterEnv :=
  {| detect := status; recoveryWait := wait; innerText := body;
     clock := λ _, "2024-05-01T10:00:00.000Z"; written := true; stored := true;
     nextProbe := next |}.

Definition clear : settled CaptchaStatus :=
  Fulfilled {| present := false; solved := false |}.
Definition challengeSolved : settled CaptchaStatus :=
  Fulfilled {| present := true; solved := true |}.
Definition challengeUnsolved : settled CaptchaStatus :=
  Fulfilled {| present := true; solved := false |}.

(** A page that always shows an unsolved challenge. *)
Definition blockedPage (next : string → probe) : IterEnv :=
  page challengeUnsolved (Fulfilled tt) (Fulfilled "Unusual traffic") next.

Definition session (script : list IterEnv) : SessionEnv :=
  {| newContext := Fulfilled tt; newPage := Fulfilled tt; goto := Fulfilled tt;
     pages := script; close := Fulfilled tt |}.

(** A solving service that refuses the type [recaptcha3] and answers the
    type [recaptcha] with a token. *)
Definition noJson : Solver.Json :=
  {| Solver.token := Solver.JUndefined; Solver.id := Solver.JUndefined;
     Solver.data := Solver.JUndefined; Solver.task := Solver.JUndefined;
     Solver.solution := Solver.JUndefined |}.

Definition tokenJson (tok : string) : Solver.Json :=
  {| Solver.token := Solver.JString tok; Solver.id := Solver.JUndefined;
     Solver.data := Solver.JUndefined; Solver.task := Solver.JUndefined;
     Solver.solution := Solver.JUndefined |}.

Definition service : Solver.Service :=
  {| Solver.post := λ t,
       if String.eqb t "recaptcha3" then
         Fulfilled {| Solver.status := 400; Solver.text := "Invalid type";
                      Solver.json := noJson |}
       else if String.eqb t "recaptcha" then
         Fulfilled {| Solver.status := 200; Solver.text := "{token: T}";
                      Solver.json := tokenJson "T" |}
       else Rejected;
     Solver.poll := λ _ _, Rejected |}.

Definition solveArgs : Solver.Args :=
  {| Solver.siteKey := "6Lc-site"; Solver.pageUrl := "https://www.google.com/sorry";
     Solver.typeHint := None |}.


Definition sevenQueries : list string :=
  ["q1"; "q2"; "q3"; "q4"; "q5"; "q6"; "q7"].

(** Sessions of one page each; the second one cannot get a context. *)
Definition sessionEnvs (i : nat) : SessionEnv :=
  {| newContext := if i =? 1 then Rejected else Fulfilled tt;
     newPage := Fulfilled tt; goto := Fulfilled tt;
     pages := [page clear (Fulfilled tt) (Fulfilled "a@b.co") withoutNext];
     close := Fulfilled tt |}.

End Samples.

(** ** The configuration read from the environment *)

Module Env.

(** What [parseInt(text, 10)] gives: [NaN], a whole number held exactly
    (its magnitude is below [2^53]), or a value of magnitude [2^53] or
    more, finite or infinite, of which only the sign is kept. *)
Inductive parsed :=
| NaN
| Num (z : Z)
| Big (negative : bool).

(** [process.env.NAME || dflt]: an unset or empty variable gives the
    default. *)
Definition orElse (v : option string) (dflt : string) : string :=
  match v with
  | Some (String c s) => String c s
  | _ => dflt
  end.

Definition digitValue (c : ascii) : N := N.of_nat (Str.code c - 48).

(** The value of the decimal digits at the head of [s], after [acc]. *)
Fixpoint digits (acc : N) (s : string) : N :=
  match s with
  | String c s' =>
      if Str.isDigit c then digits (10 * acc + digitValue c) s' else acc
  | EmptyString => acc
  end.

Definition startsWithDigit (s : string) : bool :=
  match s with
  | String c _ => Str.isDigit c
  | EmptyString => false
  end.

(** The whole numbers below this bound are doubles. *)
Definition exact : N := 2 ^ 53.

(** [parseInt(s, 10)]: leading white space is skipped, then an optional
    sign, then the longest run of digits is read; without any digit the
    answer is [NaN].  The value of the digits is rounded to a double: it
    is unchanged below [2^53] and stays at [2^53] or above otherwise. *)
Definition parseInt (s : string) : parsed :=
  let t := Startup.trimStart s in
  let '(negative, u) :=
    match t with
    | String c u =>
        if Ascii.eqb c "-"%char then (true, u)
        else if Ascii.eqb c "+"%char then (false, u)
        else (false, t)
    | EmptyString => (false, t)
    end in
  if startsWithDigit u then
    let v := digits 0 u in
    if (v <? exact)%N
    then Num (if negative then - Z.of_N v else Z.of_N v)
    else Big negative
  else NaN.

(** [Math.max(1, x)] *)
Definition max1 (x : parsed) : ceiling :=
  match x with
  | NaN => NotANumber
  | Num z => Whole (Z.to_pos (Z.max 1 z))
  | Big true => Whole 1
  | Big false => Huge
  end.

(** [x * y] for two results of [Math.max(1, _)]: the product of two whole
    numbers is exact below [2^53] and stays at [2^53] or above otherwise;
    no factor is zero, so a huge factor gives a huge product. *)
Definition mul (x y : ceiling) : ceiling :=
  match x, y with
  | NotANumber, _ | _, NotANumber => NotANumber
  | Whole a, Whole b =>
      if (N.pos (a * b) <? exact)%N then Whole (a * b) else Huge
  | _, _ => Huge
  end.

(** [x || 3]: only [NaN] is falsy here. *)
Definition orThree (x : ceiling) : ceiling :=
  match x with
  | NotANumber => Whole 3
  | _ => x
  end.

(** [String(x)]: the decimal digits of a whole number below [2^53].  The
    text of a huge value (an exponent form from [10^21] on, or
    [Infinity]) depends on the value, which is not kept: no answer. *)
Definition toString (x : ceiling) : option string :=
  match x with
  | NotANumber => Some "NaN"
  | Whole n => if (N.pos n <? exact)%N then Some (pretty (N.pos n)) else None
  | Huge => None
  end.

Definition BROWSERS (env : gmap string string) : ceiling :=
  max1 (parseInt (orElse (env !! "BROWSERS") "1")).

Definition TABS_PER_BROWSER (env : gmap string string) : ceiling :=
  max1 (parseInt (orElse (env !! "TABS_PER_BROWSER") "1")).

(** [CONCURRENCY]; [None] when the default text is that of a huge
    product, which this model does not determine. *)
Definition CONCURRENCY (env : gmap string string) : option ceiling :=
  match env !! "CONCURRENCY" with
  | Some (String c s) => Some (max1 (parseInt (String c s)))
  | _ =>
      text ← toString (orThree (mul (BROWSERS env) (TABS_PER_BROWSER env)));
      Some (max1 (parseInt text))
  end.

End Env.

(** ** The constants of the program *)

Module Settings.

(** [SUPABASE_SERVICE_ROLE || SUPABASE_KEY || SUPABASE_ANON_KEY || ''] *)
Definition SUPABASE_KEY (env : gmap string string) : string :=
  Env.orElse (env !! "SUPABASE_SERVICE_ROLE")
    (Env.orElse (env !! "SUPABASE_KEY")
       (Env.orElse (env !! "SUPABASE_ANON_KEY") EmptyString)).

(** The constants computed from the environment, for the project root
    [root]; [None] when the model does not determine the ceiling. *)
Definition load (root : string) (env : gmap string string) : option Config :=
  c ← Env.CONCURRENCY env;
  Some {| ROOT_DIR := root;
          CONCURRENCY := c;
          supabase :=
            Page.nonEmpty (Env.orElse (env !! "SUPABASE_URL") EmptyString)
            && Page.nonEmpty (SUPABASE_KEY env);
          SUPABASE_TABLE := Env.orElse (env !! "SUPABASE_TABLE") "email_table";
          NOPECHA_API_KEY :=
            Env.orElse (env !! "NOPECHA_API_KEY")
              (Env.orElse (env !! "NOPECHA_KEY") EmptyString) |}.

(** An environment whose ceiling cannot be read. *)
Definition unreadable : gmap string string :=
  {[ "CONCURRENCY" := "auto"; "NOPECHA_API_KEY" := "key" ]}.

End Settings.

(** ** Reading the queries *)

Module Input.

(** How the streams of an existing file end.  The handlers of [end] and
    [error] are set on the CSV parser, the stream that [pipe] returns: an
    error of the parser rejects the promise; an error of the file stream
    itself has no handler. *)
Inductive ending :=
| Ends             (* the parser emits [end] *)
| ParserError      (* the parser emits [error] *)
| ReadError.       (* the file stream emits [error] *)

(** What the file gives: [None] when it does not exist; otherwise the rows
    emitted by the CSV parser before the end, each a map from the header
    names to the values of the row, and the way the streams end. *)
Definition file : Type := option (list (gmap string string) * ending).

(** What becomes of the promise of [readCSV]. *)
Inductive outcome :=
| Resolves (queries : list string)
| Fails            (* the promise rejects *)
| Uncaught.        (* the promise stays pending: the error event without a
                      handler is thrown as an uncaught exception *)

(** [data.query ?? data.q ?? data['search'] ?? '']: a column that exists
    is taken even when its value is empty. *)
Definition pick (data : gmap string string) : string :=
  match data !! "query" with
  | Some v => v
  | None =>
      match data !! "q" with
      | Some v => v
      | None => default EmptyString (data !! "search")
      end
  end.

(** The handler of [data]. *)
Definition onData (results : list string) (data : gmap string string)
    : list string :=
  let q := pick data in
  if Page.nonEmpty q && Page.nonEmpty (Startup.trim q)
  then results ++ [Startup.trim q]
  else results.

(** The query that a row contributes, if any. *)
Definition queryOf (data : gmap string string) : option string :=
  let q := Startup.trim (pick data) in
  if Page.nonEmpty q then Some q else None.

Definition readCSV (f : file) : outcome :=
  match f with
  | None => Resolves []
  | Some (rows, Ends) => Resolves (foldl onData [] rows)
  | Some (_, ParserError) => Fails
  | Some (_, ReadError) => Uncaught
  end.

End Input.

(** ** The challenge detector *)

Module Detector.

(** A case-insensitive search for a lower-case literal, as in
    [/consent/i.test(url)]. *)
Definition mentions (word text : string) : bool :=
  Regex.test (Regex.Lit word) (Str.toLowerCase text).

Definition isConsent (url : string) : bool := mentions "consent" url.

(** What the page does when one selector of [tryAcceptConsent] is tried. *)
Inductive consentProbe :=
| ConsentNone                   (* no element, or [page.$] throws *)
| ConsentButton (wait : settled unit) (urlAfter : string).
    (* an element, clicked (a failed click is tolerated); [wait] is the
       wait of one second, [urlAfter] the address of the page after it *)

Definition CONSENT_SELECTORS : list string :=
  ["#L2AGLb";
   "button[aria-label*=" +:+ String Csv.dquote ("Agree" +:+ String Csv.dquote " i]");
   "button:has-text(" +:+ String Csv.dquote ("I agree" +:+ String Csv.dquote ")");
   "button:has-text(" +:+ String Csv.dquote ("Accept all" +:+ String Csv.dquote ")")].

Fixpoint tryAcceptConsentFrom (p : string → consentProbe) (selectors : list string)
    : bool :=
  match selectors with
  | [] => false
  | sel :: rest =>
      match p sel with
      | ConsentButton (Fulfilled _) urlAfter =>
          if isConsent urlAfter then tryAcceptConsentFrom p rest else true
      | _ => tryAcceptConsentFrom p rest
      end
  end.

(** [tryAcceptConsent] *)
Definition tryAcceptConsent (p : string → consentProbe) : bool :=
  tryAcceptConsentFrom p CONSENT_SELECTORS.

(** A frame of the page: its address and, when [new URL] accepts it, the
    parameters of its query string in order. *)
Record frame := {
  frameUrl : string;
  searchParams : option (list (string * string));
}.

(** [u.searchParams.get(name)]: the first value under that name. *)
Fixpoint getParam (name : string) (params : list (string * string))
    : option string :=
  match params with
  | [] => None
  | (n, v) :: rest => if String.eqb n name then Some v else getParam name rest
  end.

(** A value that passes [if (v)]: a string that is not empty. *)
Definition truthyText (v : option string) : option string :=
  match v with
  | Some (String c s) => Some (String c s)
  | _ => None
  end.

(** [get('k') || get('sitekey') || get('render')], when truthy. *)
Definition frameKey (params : list (string * string)) : option string :=
  match truthyText (getParam "k" params) with
  | Some k => Some k
  | None =>
      match truthyText (getParam "sitekey" params) with
      | Some k => Some k
      | None => truthyText (getParam "render" params)
      end
  end.

(** [/recaptcha|google\.com\/recaptcha|anchor/i] *)
Definition isChallengeFrame (url : string) : bool :=
  Regex.test
    (Regex.Alt (Regex.Lit "recaptcha")
       (Regex.Alt (Regex.Lit "google.com/recaptcha") (Regex.Lit "anchor")))
    (Str.toLowerCase url).

(** The loop over [page.frames()]: the key of the first frame that has
    one. *)
Fixpoint frameSitekey (frames : list frame) : option string :=
  match frames with
  | [] => None
  | f :: rest =>
      if isChallengeFrame (frameUrl f) then
        match searchParams f with
        | Some params =>
            match frameKey params with
            | Some k => Some k
            | None => frameSitekey rest
            end
        | None => frameSitekey rest
        end
      else frameSitekey rest
  end.

(** What the page answers during one call of [maybeHandleCaptcha]. *)
Record PageEnv := {
  url : string;                         (* [page.url()], read once *)
  consentProbes : string → consentProbe;
  widget : settled bool;                (* [page.$('div.g-recaptcha')] finds one *)
  challengeFrame : settled bool;        (* [page.$] of the recaptcha iframe *)
  domSitekey : settled (option string); (* the [data-sitekey] attributes *)
  frames : settled (list frame);        (* [page.frames()] *)
  scriptSitekey : settled (option string);  (* the [render] of the scripts *)
  extension : bool;        (* the extension path is set and exists *)
  extensionWait : settled unit;         (* the wait of four seconds *)
  helper : option (settled unit);
    (* [NopechaHelper.solveRecaptchaV2(page)], when there is such a function *)
  hasExec : settled bool;               (* [window.grecaptcha] is defined *)
  visibleWidget : settled bool;         (* [page.$('.g-recaptcha')] finds one *)
  inject : settled unit;                (* the token written into the page *)
  injectWait : settled unit;            (* the wait of 600 ms *)
}.

(** [/recaptcha|challenge|sorry/i.test(url)] *)
Definition isChallengeUrl (url : string) : bool :=
  Regex.test
    (Regex.Alt (Regex.Lit "recaptcha")
       (Regex.Alt (Regex.Lit "challenge") (Regex.Lit "sorry")))
    (Str.toLowerCase url).

(** The condition of the detection: the address, then the widget, then
    the iframe; a probe that throws leaves the function by its outer
    [catch]. *)
Definition detected (pg : PageEnv) : settled bool :=
  if isChallengeUrl (url pg) then Fulfilled true
  else match widget pg with
       | Rejected => Rejected
       | Fulfilled true => Fulfilled true
       | Fulfilled false => challengeFrame pg
       end.

(** The site key: from the attributes of the page, else from the frames,
    else from the scripts; an exception in one of the lookups is caught
    and leaves the key as it is. *)
Definition findSitekey (pg : PageEnv) : option string :=
  match domSitekey pg with
  | Fulfilled (Some (String c k)) => Some (String c k)
  | _ =>
      match frames pg with
      | Rejected => None
      | Fulfilled fs =>
          match frameSitekey fs with
          | Some k => Some k
          | None =>
              match scriptSitekey pg with
              | Fulfilled v => truthyText v
              | Rejected => None
              end
          end
      end
  end.

(** The type hint: [recaptcha3] when the script object is there and no
    widget is visible. *)
Definition typeHint (pg : PageEnv) : option string :=
  match hasExec pg with
  | Fulfilled true =>
      match visibleWidget pg with
      | Fulfilled false => Some "recaptcha3"
      | _ => None
      end
  | _ => None
  end.

Definition status (present solved : bool) : settled Session.CaptchaStatus :=
  Fulfilled {| Session.present := present; Session.solved := solved |}.

Definition solveArgs (pg : PageEnv) (sitekey : string) : Solver.Args :=
  {| Solver.siteKey := sitekey; Solver.pageUrl := url pg;
     Solver.typeHint := typeHint pg |}.

(** The body of [maybeHandleCaptcha]: the calls made to the solving
    service and the answer, [Rejected] when an exception reaches the outer
    [catch]. *)
Definition body (cfg : Config) (svc : Solver.Service) (pg : PageEnv)
    : list Solver.call * settled Session.CaptchaStatus :=
  if isConsent (url pg) && tryAcceptConsent (consentProbes pg)
  then ([], status true true)
  else
    match detected pg with
    | Rejected => ([], Rejected)
    | Fulfilled false => ([], status false false)
    | Fulfilled true =>
        match findSitekey pg with
        | None =>
            if extension pg then
              match extensionWait pg with
              | Fulfilled _ => ([], status true false)
              | Rejected => ([], Rejected)
              end
            else ([], status true false)
        | Some sitekey =>
            match helper pg with
            | Some (Fulfilled _) => ([], status true true)
            | _ =>
                match Solver.solveRecaptchaToken cfg svc (solveArgs pg sitekey) with
                | (calls, Some token) =>
                    if Solver.truthy token then
                      match inject pg, injectWait pg with
                      | Fulfilled _, Fulfilled _ => (calls, status true true)
                      | _, _ => (calls, status true false)
                      end
                    else (calls, status true false)
                | (calls, None) => (calls, status true false)
                end
            end
        end
    end.

(** [maybeHandleCaptcha]: the answer of the body, or that of the outer
    [catch]. *)
Definition maybeHandleCaptcha (cfg : Config) (svc : Solver.Service) (pg : PageEnv)
    : Session.CaptchaStatus :=
  Session.maybeHandleCaptcha (body cfg svc pg).2.

End Detector.

(** ** A solving service that hands out a ticket *)

Module SolverSamples.

Definition ticketJson (id : string) : Solver.Json :=
  {| Solver.token := Solver.JUndefined; Solver.id := Solver.JString id;
     Solver.data := Solver.JUndefined; Solver.task := Solver.JUndefined;
     Solver.solution := Solver.JUndefined |}.

(** The service refuses the type [hcaptcha] as invalid, answers the type
    [recaptcha3] with the ticket [job], has nothing at the first poll of
    the ticket and the token at the second. *)
Definition service : Solver.Service :=
  {| Solver.post := λ t,
       if String.eqb t "hcaptcha" then
         Fulfilled {| Solver.status := 400; Solver.text := "Invalid type";
                      Solver.json := Samples.noJson |}
       else if String.eqb t "recaptcha3" then
         Fulfilled {| Solver.status := 200; Solver.text := "{id: job}";
                      Solver.json := ticketJson "job" |}
       else Rejected;
     Solver.poll := λ _ i,
       if i =? 1 then
         Fulfilled {| Solver.status := 200; Solver.text := "{token: T2}";
                      Solver.json := Samples.tokenJson "T2" |}
       else
         Fulfilled {| Solver.status := 200; Solver.text := "{}";
                      Solver.json := Samples.noJson |} |}.


End SolverSamples.

(** ** A challenge page whose token cannot be written *)

Module PageSamples.

(** The address names the challenge, the page carries a site key, there
    is no helper; the service hands out a token, and writing it into the
    page throws. *)
Definition tokenLost : Detector.PageEnv :=
  {| Detector.url := "https://www.google.com/sorry/index?q=plumbers";
     Detector.consentProbes := λ _, Detector.ConsentNone;
     Detector.widget := Fulfilled false;
     Detector.challengeFrame := Fulfilled false;
     Detector.domSitekey := Fulfilled (Some "6Lc-site");
     Detector.frames := Fulfilled [];
     Detector.scriptSitekey := Fulfilled None;
     Detector.extension := false;
     Detector.extensionWait := Fulfilled tt;
     Detector.helper := None;
     Detector.hasExec := Fulfilled false;
     Detector.visibleWidget := Fulfilled false;
     Detector.inject := Rejected;
     Detector.injectWait := Fulfilled tt |}.

(** The pass that meets this page. *)
Definition lostPass : Session.IterEnv :=
  Samples.page (Detector.body Samples.cfg Samples.service tokenLost).2
    (Fulfilled tt) (Fulfilled "a@b.co") Samples.withNext.

(** A session whose second pass solves a challenge and then fails in the
    wait after it. *)
Definition thrownSession : Session.SessionEnv :=
  Samples.session
    [Samples.page Samples.clear (Fulfilled tt) (Fulfilled "a@b.co")
       Samples.withNext;
     Samples.page Samples.challengeSolved Rejected (Fulfilled "c@d.ef")
       Samples.withNext;
     Samples.page Samples.clear (Fulfilled tt) (Fulfilled "e@f.gh")
       Samples.withNext].

End PageSamples.

(** ** Reading the output file back

    A reader for what [appendToCSV] writes: records end at a line feed,
    fields at a comma; a field that begins with a double quote runs to the
    closing quote, a doubled quote inside it standing for one quote. *)

Module CsvRead.

Inductive mode :=
| Plain          (* outside quotes *)
| Quoted         (* inside a quoted field *)
| QuoteSeen.     (* a quote was read inside a quoted field *)

Definition snoc (field : string) (c : ascii) : string :=
  field +:+ String c EmptyString.

(** [field] holds the characters of the field being read, [record] the
    fields already read of the record being read. *)
Fixpoint parse (m : mode) (field : string) (record : list string) (s : string)
    : list (list string) :=
  match s with
  | EmptyString =>
      match m, field, record with
      | Plain, EmptyString, [] => []
      | _, _, _ => [record ++ [field]]
      end
  | String c s' =>
      match m with
      | Quoted =>
          if Ascii.eqb c Csv.dquote then parse QuoteSeen field record s'
          else parse Quoted (snoc field c) record s'
      | _ =>
          if Ascii.eqb c Csv.comma then parse Plain EmptyString (record ++ [field]) s'
          else if Ascii.eqb c "010"%char
               then (record ++ [field]) :: parse Plain EmptyString [] s'
          else if Ascii.eqb c Csv.dquote then
            match m with
            | QuoteSeen => parse Quoted (snoc field c) record s'
            | _ => parse Quoted field record s'
            end
          else parse Plain (snoc field c) record s'
      end
  end.

Definition records (content : string) : list (list string) :=
  parse Plain EmptyString [] content.

End CsvRead.

(** ** Page numbers and the browser in a trace *)

Module Log.

(** The page numbers announced by the passes of a session, in order. *)
Definition pageNumbers (tr : list event) : list nat :=
  omap (λ ev, match ev with Detect n => Some n | _ => None end) tr.

(** How many times the events [tr] close the browser. *)
Fixpoint closings (tr : list Scheduler.schedEvent) : nat :=
  match tr with
  | [] => 0
  | Scheduler.CloseBrowser :: tr' => S (closings tr')
  | _ :: tr' => closings tr'
  end.

End Log.

(** ** The files written by a trace *)

Module Fs.

(** [fs.appendFileSync(path, content)]: the file is created when it does
    not exist. *)
Definition appendFile (path content : string) (fs : gmap string string)
    : gmap string string :=
  <[path := default EmptyString (fs !! path) +:+ content]> fs.

(** The effect of one event: only an append that succeeded changes a
    file. *)
Definition effect (fs : gmap string string) (ev : event) : gmap string string :=
  match ev with
  | FsAppend path content true => appendFile path content fs
  | _ => fs
  end.

Definition after (tr : list event) (fs : gmap string string)
    : gmap string string :=
  foldl effect fs tr.

(** The rows of the batches whose append succeeded: the rows handed to
    [appendToCSV] by an event that the successful append follows at once. *)
Fixpoint writtenRows (tr : list event) : list Csv.Row :=
  match tr with
  | [] => []
  | AppendToCSV rows :: tr' =>
      match tr' with
      | FsAppend _ _ true :: _ => rows ++ writtenRows tr'
      | _ => writtenRows tr'
      end
  | _ :: tr' => writtenRows tr'
  end.

(** The text appended by the events of [tr]. *)
Fixpoint appendedText (tr : list event) : string :=
  match tr with
  | [] => EmptyString
  | FsAppend _ content true :: tr' => content +:+ appendedText tr'
  | _ :: tr' => appendedText tr'
  end.

(** What a reader finds in a record written for a row. *)
Definition fields (r : Csv.Row) : list string := [Csv.email r; Csv.timestamp r].

(** The text appended by [tr], followed by any text, is read back as the
    rows written by [tr], followed by the records of that text. *)
Definition readsBack (tr : list event) : Prop :=
  ∀ rest, CsvRead.records (appendedText tr +:+ rest)
          = (fields <$> writtenRows tr) ++ CsvRead.records rest.

(** Events that can stand before a trace that reads back. *)
Definition keeps (tr : list event) : Prop :=
  ∀ tr', readsBack tr' → readsBack (tr ++ tr').

End Fs.

(** ** Measures of the calls of the solver *)

Module Calls.

Definition posted (tr : list Solver.call) : list Solver.Body :=
  omap (λ c, match c with Solver.Post b => Some b | _ => None end) tr.

Fixpoint polls (tr : list Solver.call) : nat :=
  match tr with
  | [] => 0
  | Solver.Poll _ :: tr' => S (polls tr')
  | _ :: tr' => polls tr'
  end.

(** The time slept, in milliseconds. *)
Fixpoint slept (tr : list Solver.call) : N :=
  match tr with
  | [] => 0
  | Solver.Sleep ms :: tr' => N.of_nat ms + slept tr'
  | _ :: tr' => slept tr'
  end%N.

End Calls.

(** * Properties *)

(** ** Strings and character classes *)

Module StrFacts.

Lemma app_cons c s t : String c s +:+ t = String c (s +:+ t).
Proof. reflexivity. Qed.

Lemma app_nil_r s : s +:+ EmptyString = s.
Proof. induction s as [|c s IH]; [done|]. by rewrite app_cons, IH. Qed.

Lemma app_assoc s t u : (s +:+ t) +:+ u = s +:+ (t +:+ u).
Proof. induction s as [|c s IH]; [done|]. by rewrite !app_cons, IH. Qed.

Lemma length_app s t :
  String.length (s +:+ t) = String.length s + String.length t.
Proof.
  induction s as [|c s IH]; [done|]. rewrite app_cons. simpl. by rewrite IH.
Qed.

Lemma app_inv_head s t u : s +:+ t = s +:+ u → t = u.
Proof.
  induction s as [|c s IH]; [done|]. rewrite !app_cons. intros [= H]. auto.
Qed.

Lemma take_app_length s t : Str.take (String.length s) (s +:+ t) = s.
Proof.
  induction s as [|c s IH]; [by destruct t|].
  rewrite app_cons. simpl. by rewrite IH.
Qed.


Ltac by_cases_on c :=
  destruct c as [[] [] [] [] [] [] [] []]; vm_compute; try done; try tauto.


Lemma domain_local c : isDomainChar c = true → isLocalChar c = true.
Proof. by_cases_on c. Qed.




End StrFacts.

(** ** The matcher on runs of class characters *)

Module RegexFacts.
Import StrFacts.

Section Rep.
Variable p : ascii → bool.
Variable k : string → option string.




(** No match starts in a text in which what follows never starts. *)
Lemma rep_no_start x s m :
  k EmptyString = None →
  (∀ c s, c ≠ x → k (String c s) = None) →
  Str.includes x s = false →
  Regex.rep p m s k = None.
Proof.
  intros Hnil Hk. revert m. induction s as [|c s IH]; intros m Hs; simpl.
  - by destruct m.
  - simpl in Hs. destruct (Ascii.eqb c x) eqn:Hx; [done|].
    apply Ascii.eqb_neq in Hx. rewrite (IH _ Hs), (Hk c s Hx).
    destruct (p c); by destruct m.
Qed.

(** Nor in a text that holds no [x] and ends outside the class, whatever
    comes after it. *)
Lemma rep_gap x g rest m :
  (∀ c s, c ≠ x → k (String c s) = None) →
  g ≠ EmptyString →
  Str.includes x g = false →
  Page.endsOutside p g = true →
  Regex.rep p m (g +:+ rest) k = None.
Proof.
  intros Hk. revert m. induction g as [|c g IH]; intros m Hne Hx Hend; [done|].
  rewrite app_cons. simpl in Hx.
  destruct (Ascii.eqb c x) eqn:Hc; [done|]. apply Ascii.eqb_neq in Hc.
  simpl. rewrite (Hk c _ Hc).
  destruct g as [|c' g].
  - simpl in Hend. apply negb_true_iff in Hend. rewrite Hend. by destruct m.
  - rewrite IH; [|done|done|done]. destruct (p c); by destruct m.
Qed.

End Rep.

End RegexFacts.

(** ** The extractor on delimited addresses *)

Module ExtractorFacts.
Import StrFacts RegexFacts.

Lemma needs_char x (k : string → option string) c s :
  c ≠ x →
  match Regex.strip (String x EmptyString) (String c s) with
  | Some s' => k s'
  | None => None
  end = None.
Proof.
  intros Hc. simpl. destruct (Ascii.eqb x c) eqn:E; [|done].
  apply Ascii.eqb_eq in E. congruence.
Qed.









Lemma addressText_cons a :
  Page.wellFormed a = true →
  ∃ c s, Page.addressText a = String c s.
Proof.
  destruct a as [[|c l] d t]; [done|]. intros _.
  unfold Page.addressText. simpl. rewrite app_cons. eauto.
Qed.

(** No match starts in a text without [@]. *)
Lemma exec_no_at s :
  Page.noAt s = true → Regex.exec EMAIL_REGEX s = None.
Proof.
  unfold Page.noAt. rewrite negb_true_iff. intros Hs.
  unfold Regex.exec, EMAIL_REGEX. cbn [Regex.run].
  apply (rep_no_start _ _ "@"%char); [done| |done].
  intros; by apply needs_char.
Qed.






Lemma scan_no_at fuel s :
  Page.noAt s = true → Regex.matchAllFrom EMAIL_REGEX fuel s = [].
Proof.
  revert s. induction fuel as [|fuel IH]; intros s Hs; [done|].
  simpl. rewrite (exec_no_at s Hs). destruct s as [|c s]; [done|].
  apply IH. unfold Page.noAt in *. simpl in Hs.
  by destruct (Ascii.eqb c "@"%char).
Qed.




End ExtractorFacts.

(** ** C4: what the extractor returns *)

Module ExtractorSpec.
Import StrFacts ExtractorFacts.

Example extract_sample :
  Extractor.extractEmailsFromPage
    (Fulfilled "Mail Bob.Smith@Corp.COM, or noreply@corp.com; a@b.c no. x_y@d-e.org.")
  = ["bob.smith@corp.com"; "x_y@d-e.org"].
Proof. vm_compute. reflexivity. Qed.

(** A rejected [page.evaluate] gives no identity. *)
Lemma extract_rejected : Extractor.extractEmailsFromPage Rejected = [].
Proof. reflexivity. Qed.







End ExtractorSpec.

(** ** The loop body, case by case *)

Module SessionFacts.
Import Session.

Lemma addAll_run es st :
  addAll es st = (Collect <$> es, collect es st, Val tt).
Proof.
  revert st. induction es as [|e es IH]; intros st; [done|].
  cbn. unfold mbind, M_bind, bind. cbn. rewrite IH. done.
Qed.

Ltac run_body :=
  unfold mbind, M_bind, bind, when;
  cbn -[goToNextPage Nat.leb filter Extractor.extractEmailsFromPage
        Persist.appendToCSV Persist.saveToSupabase rowsFor].

Lemma iteration_blocked cfg q env st :
  blocks env st = true →
  iteration cfg q env st
  = ([Detect (pageNum st)], setCaptcha (counterAfter env st) st, Exit Blocked).
Proof.
  unfold blocks, counterAfter, unresolved, iteration.
  destruct (detect env) as [[[] []]|]; try done.
  cbn [maybeHandleCaptcha present solved andb negb]. intros H.
  run_body. rewrite H. done.
Qed.

Lemma iteration_thrown cfg q env st :
  throws env = true →
  iteration cfg q env st
  = ([Detect (pageNum st); RecoveryWait], setCaptcha 0 st, Exit Thrown).
Proof.
  unfold throws, resolved, iteration.
  destruct (detect env) as [[[] []]|]; try done.
  cbn [maybeHandleCaptcha present solved andb negb].
  destruct (recoveryWait env); [done|]. intros _. by run_body.
Qed.

Lemma iteration_extracts cfg q env st :
  blocks env st = false → throws env = false →
  let new := newEmailsOf env st in
  let st' := collect new (setCaptcha (counterAfter env st) st) in
  iteration cfg q env st
  = ([Detect (pageNum st)] ++ (if resolved env then [RecoveryWait] else [])
       ++ [Extract] ++ (Collect <$> new) ++ handoff cfg q env new
       ++ [NextPage] ++ (if goToNextPage (nextProbe env) then [Pause] else []),
     (if goToNextPage (nextProbe env) then nextPageNum st' else st'),
     if goToNextPage (nextProbe env) then Val tt else Exit Exhausted).
Proof.
  unfold blocks, throws, counterAfter, unresolved, resolved, newEmailsOf,
    handoff, iteration.
  destruct (detect env) as [[[] []]|];
    cbn [maybeHandleCaptcha present solved andb negb]; intros B T.
  all: try (destruct (recoveryWait env) as [[]|]; [|done]).
  all: run_body; rewrite ?B; run_body; rewrite addAll_run.
  all: cbn [setCaptcha collected].
  all: destruct (filter _ _) as [|e es] eqn:F;
    destruct (goToNextPage _); run_body; rewrite ?app_nil_r; try done.
  all: try by rewrite <- !app_assoc.
Qed.

Lemma pass_result cfg q env st :
  (iteration cfg q env st).2 = passResult env st.
Proof.
  unfold passResult. destruct (blocks env st) eqn:B.
  { by rewrite iteration_blocked. }
  destruct (throws env) eqn:T.
  { by rewrite iteration_thrown. }
  by rewrite iteration_extracts.
Qed.

End SessionFacts.

(** ** Counting the events of a pass and of a session *)

Module TraceFacts.
Import Session SessionFacts.

Lemma count_app p tr1 tr2 :
  Trace.count p (tr1 ++ tr2) = Trace.count p tr1 + Trace.count p tr2.
Proof. induction tr1 as [|ev tr1 IH]; [done|]. simpl. rewrite IH. lia. Qed.

Lemma count_none p tr :
  Forall (λ ev, p ev = false) tr → Trace.count p tr = 0.
Proof. induction 1 as [|ev tr Hev _ IH]; [done|]. simpl. by rewrite Hev, IH. Qed.

Lemma count_collect p es :
  (∀ e, p (Collect e) = false) → Trace.count p (Collect <$> es) = 0.
Proof.
  intros Hp. induction es as [|e es IH]; [done|].
  rewrite fmap_cons. cbn [Trace.count]. by rewrite Hp, IH.
Qed.

Lemma rowsFor_length q clock es : length (rowsFor q clock es) = length es.
Proof. unfold rowsFor. by rewrite length_imap. Qed.

(** The events of a hand-over, spelled out. *)
Lemma handoff_events cfg q env new :
  new ≠ [] →
  let rows := rowsFor q (clock env) new in
  handoff cfg q env new
  = AppendToCSV rows
    :: FsAppend (OUTPUT_FILE cfg) (Csv.csvContent rows) (written env)
    :: SaveToSupabase rows
    :: (if supabase cfg
        then [DbInsert (SUPABASE_TABLE cfg) (Supabase.ofRow <$> rows) (stored env)]
        else []).
Proof.
  intros Hne rows. unfold handoff, Persist.appendToCSV, Persist.saveToSupabase.
  destruct new as [|e es]; [done|]. fold rows.
  assert (Hrows : ∃ r rs, rows = r :: rs).
  { subst rows. unfold rowsFor. simpl. eauto. }
  destruct Hrows as (r & rs & ->). by destruct (supabase cfg).
Qed.

Lemma count_handoff p cfg q env new :
  (∀ rows, p (AppendToCSV rows) = false) →
  (∀ path content b, p (FsAppend path content b) = false) →
  (∀ rows, p (SaveToSupabase rows) = false) →
  (∀ t ins b, p (DbInsert t ins b) = false) →
  Trace.count p (handoff cfg q env new) = 0.
Proof.
  intros H1 H2 H3 H4. destruct new as [|e es]; [done|].
  rewrite handoff_events by done. simpl. rewrite H1, H2, H3.
  destruct (supabase cfg); simpl; by rewrite ?H4.
Qed.

Ltac count_pass :=
  rewrite ?count_app, ?count_collect, ?count_handoff by done;
  repeat match goal with |- context [if ?b then _ else _] => destruct b end;
  done.

Lemma pass_counts cfg q env st :
  let tr := (iteration cfg q env st).1.1 in
  Trace.passes tr = 1
  ∧ Trace.extractions tr = (if blocks env st || throws env then 0 else 1)
  ∧ Trace.acquired tr = 0 ∧ Trace.released tr = 0.
Proof.
  unfold Trace.passes, Trace.extractions, Trace.acquired, Trace.released.
  destruct (blocks env st) eqn:B.
  { rewrite iteration_blocked by done. done. }
  destruct (throws env) eqn:T.
  { rewrite iteration_thrown by done. done. }
  rewrite iteration_extracts by done. cbn [fst orb].
  repeat split; count_pass.
Qed.

End TraceFacts.

(** ** C2: extraction in every pass *)

Module ExtractionSpec.
Import Session SessionFacts TraceFacts.

Lemma loop_counts cfg q script st :
  let '(tr, _, r) := loop cfg q script st in
  Trace.passes tr = Trace.extractions tr + (if cutShort r then 1 else 0).
Proof.
  revert st. induction script as [|env rest IH]; intros st; [done|].
  cbn [loop].
  pose proof (pass_counts cfg q env st) as (P & E & _).
  pose proof (pass_result cfg q env st) as R.
  destruct (iteration cfg q env st) as [[tr st'] r]. cbn [fst snd] in *.
  subst r. unfold passResult.
  destruct (blocks env st); [cbn in *; lia|].
  destruct (throws env); [cbn in *; lia|].
  destruct (goToNextPage _); [|cbn in *; lia].
  specialize (IH st'). destruct (loop cfg q rest st') as [[tr' st''] r'].
  unfold Trace.passes, Trace.extractions in *. rewrite !count_app.
  cbn in E. lia.
Qed.

(** C2, amended.  A pass of the loop attempts the extraction whatever the
    challenge check answered, an unsolved challenge included, unless the
    pass leaves the loop before: as the third consecutive unsolved
    challenge (blocked query), or by the exception of the recovery wait.
    Over a session, every pass but such a last one has its extraction. *)
Theorem extraction_unless_pass_cut_short cfg q script st :
  (∀ env st0,
     Trace.extractions (iteration cfg q env st0).1.1
     = if blocks env st0 || throws env then 0 else 1)
  ∧ (∀ env st0,
       unresolved env = true → consecutiveCaptcha st0 < 2 →
       Trace.extractions (iteration cfg q env st0).1.1 = 1)
  ∧ let '(tr, _, r) := loop cfg q script st in
    Trace.passes tr = Trace.extractions tr + (if cutShort r then 1 else 0).
Proof.
  split; [|split].
  - intros env st0. by destruct (pass_counts cfg q env st0) as (_ & E & _).
  - intros env st0 U C.
    destruct (pass_counts cfg q env st0) as (_ & -> & _).
    assert (blocks env st0 = false) as ->.
    { unfold blocks, counterAfter. rewrite U. cbn [andb].
      apply Nat.leb_gt. lia. }
    assert (throws env = false) as ->; [|done].
    unfold throws, resolved, unresolved in *.
    destruct (maybeHandleCaptcha (detect env)) as [[] []]; done.
  - apply loop_counts.
Qed.

(** C2 as worded fails: a page that always shows an unsolved challenge is
    visited three times and read twice; the third pass ends the query
    before the extraction. *)
Lemma no_extraction_in_blocking_pass :
  let script := replicate 5 (Samples.blockedPage Samples.withNext) in
  let '(tr, r) := runQuery Samples.cfg "plumbers" (Samples.session script) in
  Trace.passes tr = 3 ∧ Trace.extractions tr = 2
  ∧ ∃ st, r = Returned st Blocked.
Proof. vm_compute. eauto. Qed.

End ExtractionSpec.

(** ** C3: the consecutive-unresolved counter *)

Module BlockedSpec.
Import Session SessionFacts TraceFacts.

Lemma collect_counter es st :
  consecutiveCaptcha (collect es st) = consecutiveCaptcha st.
Proof.
  unfold collect. revert st. induction es as [|e es IH]; intros st; [done|].
  cbn [foldl]. by rewrite IH.
Qed.

(** The counter after a pass, however the pass ends. *)
Lemma pass_counter cfg q env st :
  consecutiveCaptcha (iteration cfg q env st).1.2 = counterAfter env st.
Proof.
  destruct (blocks env st) eqn:B.
  { by rewrite iteration_blocked. }
  destruct (throws env) eqn:T.
  { rewrite iteration_thrown by done. cbn. unfold counterAfter.
    unfold throws, resolved, unresolved in *.
    by destruct (maybeHandleCaptcha (detect env)) as [[] []]. }
  rewrite iteration_extracts by done. cbn [fst snd].
  destruct (goToNextPage _); cbn; by rewrite collect_counter.
Qed.

Lemma unresolved_not_thrown env : unresolved env = true → throws env = false.
Proof.
  unfold unresolved, throws, resolved.
  by destruct (maybeHandleCaptcha (detect env)) as [[] []].
Qed.

Lemma unresolved_run cfg q script st :
  Forall (λ env, unresolved env = true) script →
  consecutiveCaptcha st ≤ 2 →
  let c := consecutiveCaptcha st in
  let '(tr, _, r) := loop cfg q script st in
  Trace.passes tr ≤ 3 - c
  ∧ (r = Some Blocked ↔ Trace.passes tr = 3 - c)
  ∧ (3 - c ≤ length script → Forall advances (take (2 - c) script) →
     r = Some Blocked).
Proof.
  intros Hall. revert st. induction Hall as [|env rest U _ IH]; intros st Hc c.
  { cbn. repeat split; try lia; try done. }
  cbn [loop].
  pose proof (pass_counts cfg q env st) as (P & _).
  pose proof (pass_result cfg q env st) as R.
  pose proof (pass_counter cfg q env st) as C.
  destruct (iteration cfg q env st) as [[tr st'] r]. cbn [fst snd] in *.
  subst r. unfold passResult. unfold counterAfter in C. rewrite U in C.
  rewrite (unresolved_not_thrown env U).
  unfold blocks, counterAfter. rewrite U. cbn [andb]. fold c in C |- *.
  destruct (3 <=? S c) eqn:B.
  - apply Nat.leb_le in B. assert (c = 2) as -> by lia.
    rewrite P. repeat split; try done; lia.
  - apply Nat.leb_gt in B.
    destruct (goToNextPage (nextProbe env)) eqn:N.
    + specialize (IH st'). rewrite C in IH.
      destruct (loop cfg q rest st') as [[tr' st''] r'].
      destruct IH as (I1 & I2 & I3); [lia|].
      unfold Trace.passes in *. rewrite count_app, P.
      split; [lia|]. split.
      * rewrite I2. lia.
      * intros L A. apply I3; [cbn in L; lia|].
        replace (2 - c) with (S (2 - S c)) in A by lia.
        cbn in A. by apply Forall_cons in A as [_ A].
    + rewrite P. split; [lia|]. split; [split; [done|lia]|].
      intros _ A. replace (2 - c) with (S (2 - S c)) in A by lia.
      cbn in A. apply Forall_cons in A as [A _]. unfold advances in A.
      congruence.
Qed.

(** C3, amended.  In a session whose every pass finds a challenge present
    and unsolved, the loop makes at most three passes; it stops as a
    blocked query exactly when a third pass is reached, and it reaches it
    whenever the paginator advances on the first two pages; before that it
    can only stop because there is no further page.  A pass whose
    challenge is absent or solved puts the counter back to zero. *)
Theorem blocked_at_third_unresolved_pass cfg q script :
  Forall (λ env, unresolved env = true) script →
  let '(tr, _, r) := loop cfg q script initial in
  Trace.passes tr ≤ 3
  ∧ (r = Some Blocked ↔ Trace.passes tr = 3)
  ∧ (3 ≤ length script → Forall advances (take 2 script) →
     r = Some Blocked ∧ Trace.passes tr = 3)
  ∧ (∀ env st, unresolved env = false →
     consecutiveCaptcha (iteration cfg q env st).1.2 = 0).
Proof.
  intros Hall.
  pose proof (unresolved_run cfg q script initial Hall) as H.
  cbn [initial consecutiveCaptcha] in H.
  destruct (loop cfg q script initial) as [[tr st] r].
  destruct H as (H1 & H2 & H3); [lia|].
  split; [done|]. split; [done|]. split.
  - intros L A. specialize (H3 L A). split; [done|]. by apply H2.
  - intros env st0 U. rewrite pass_counter. unfold counterAfter. by rewrite U.
Qed.

Lemma blocked_at_third_unresolved_pass_witness :
  let script := replicate 4 (Samples.blockedPage Samples.withNext) in
  Forall (λ env, unresolved env = true) script
  ∧ let '(tr, _, r) := loop Samples.cfg "plumbers" script initial in
    r = Some Blocked ∧ Trace.passes tr = 3.
Proof.
  intros script.
  assert (H : Forall (λ env, unresolved env = true) script)
    by (repeat constructor).
  split; [exact H|].
  pose proof (blocked_at_third_unresolved_pass Samples.cfg "plumbers" script H) as T.
  destruct (loop Samples.cfg "plumbers" script initial) as [[tr st] r].
  destruct T as (_ & _ & T & _). apply T; [cbn; lia|repeat constructor].
Defined.

(** C3 as worded fails: with an unsolved challenge in every pass the
    session can end before the third one.  The page below has no next-page
    control, and the session ends after one pass, as exhausted. *)
Lemma unresolved_session_ends_without_next_page :
  let script := replicate 4 (Samples.blockedPage Samples.withoutNext) in
  Forall (λ env, unresolved env = true) script
  ∧ let '(tr, r) := runQuery Samples.cfg "plumbers" (Samples.session script) in
    Trace.passes tr = 1 ∧ ∃ st, r = Returned st Exhausted.
Proof. split; [repeat constructor|]. vm_compute. eauto. Qed.

End BlockedSpec.

(** ** C5: errors inside a pass *)

Module ErrorSpec.
Import Session SessionFacts TraceFacts.

Lemma goToNextPageFrom_rejects p sels :
  (∀ sel, p sel = ProbeRejects) → goToNextPageFrom p sels = false.
Proof. intros H. induction sels as [|sel sels IH]; [done|]. cbn. by rewrite H. Qed.

Lemma loop_continues cfg q env rest st :
  passResult env st = Val tt →
  loop cfg q (env :: rest) st
  = let '(tr', st'', r) := loop cfg q rest (iteration cfg q env st).1.2 in
    ((iteration cfg q env st).1.1 ++ tr', st'', r).
Proof.
  intros R. cbn [loop]. rewrite <- (pass_result cfg q) in R.
  destruct (iteration cfg q env st) as [[tr st'] r]. cbn in *. by subst r.
Qed.

(** The errors of a pass, seen from the loop: a detection that throws is
    answered as no challenge; no outcome of the detection, of the reading
    of the page text or of the writes ends the pass, and when the
    paginator advances the loop goes on with the detection of the next
    pass.  The one exception that leaves a pass is that of the wait after
    a solved challenge; it ends the loop.  When every selector of the
    paginator throws, the pass ends the loop as exhausted. *)
Lemma pass_errors_contained_but_recovery_wait cfg q env rest st :
  ((iteration cfg q env st).2 = Exit Thrown ↔ throws env = true)
  ∧ (detect env = Rejected → blocks env st = false ∧ throws env = false)
  ∧ (blocks env st = false → throws env = false → advances env →
     (iteration cfg q env st).2 = Val tt
     ∧ loop cfg q (env :: rest) st
       = let '(tr', st'', r) := loop cfg q rest (iteration cfg q env st).1.2 in
         ((iteration cfg q env st).1.1 ++ tr', st'', r))
  ∧ (throws env = true →
     loop cfg q (env :: rest) st
     = ([Detect (pageNum st); RecoveryWait], setCaptcha 0 st, Some Thrown))
  ∧ ((∀ sel, nextProbe env sel = ProbeRejects) →
     blocks env st = false → throws env = false →
     (iteration cfg q env st).2 = Exit Exhausted).
Proof.
  assert (Hres : ∀ e s, (iteration cfg q e s).2 = passResult e s)
    by (intros; apply pass_result).
  split; [|split; [|split; [|split]]].
  - rewrite Hres. unfold passResult. split.
    + destruct (blocks env st); [done|]. destruct (throws env); [done|].
      by destruct (goToNextPage _).
    + intros T. destruct (blocks env st) eqn:B; [|by rewrite T].
      unfold blocks, throws, resolved, unresolved in *.
      by destruct (maybeHandleCaptcha (detect env)) as [[] []].
  - intros D. unfold blocks, throws, resolved, unresolved. by rewrite D.
  - intros B T N. unfold advances in N.
    assert (R : passResult env st = Val tt)
      by (unfold passResult; by rewrite B, T, N).
    split; [by rewrite Hres|]. by apply loop_continues.
  - intros T. cbn [loop]. by rewrite iteration_thrown.
  - intros P B T. rewrite Hres. unfold passResult. rewrite B, T.
    unfold goToNextPage. by rewrite goToNextPageFrom_rejects.
Qed.

(** C5 as worded fails: the wait after a solved challenge throws in the
    first pass, and the session ends there; the second page of the script
    is never looked at. *)
Lemma recovery_wait_error_ends_session :
  let script :=
    [Samples.page Samples.challengeSolved Rejected (Fulfilled "a@b.co")
       Samples.withNext;
     Samples.page Samples.clear (Fulfilled tt) (Fulfilled "c@d.ef")
       Samples.withNext] in
  let '(tr, r) := runQuery Samples.cfg "plumbers" (Samples.session script) in
  tr = [AcquireContext; NewPage; Goto "plumbers" true; Detect 1; RecoveryWait;
        LogFailed; ReleaseContext true]
  ∧ Trace.passes tr = 1 ∧ ∃ st, r = Returned st Thrown.
Proof. vm_compute. eauto. Qed.

End ErrorSpec.

(** ** C9: the browser context of a session *)

Module ContextSpec.
Import Session SessionFacts TraceFacts.

Lemma loop_no_context cfg q script st :
  let tr := (loop cfg q script st).1.1 in
  Trace.acquired tr = 0 ∧ Trace.released tr = 0.
Proof.
  revert st. induction script as [|env rest IH]; intros st; [done|].
  cbn [loop].
  pose proof (pass_counts cfg q env st) as (_ & _ & A & R).
  destruct (iteration cfg q env st) as [[tr st'] [[]|why]]; [|done].
  specialize (IH st'). destruct (loop cfg q rest st') as [[tr' st''] r'].
  cbn [fst snd] in *. unfold Trace.acquired, Trace.released in *.
  rewrite !count_app. lia.
Qed.

(** Once the page is open, a session that returns has acquired one context
    and released it once, as its last action, however the loop was left. *)
Lemma context_released_once cfg q env tr st why :
  newPage env = Fulfilled tt →
  runQuery cfg q env = (tr, Returned st why) →
  Trace.acquired tr = 1 ∧ Trace.released tr = 1
  ∧ last tr = Some (ReleaseContext (fulfils (close env))).
Proof.
  unfold runQuery. intros ->. destruct (newContext env); [|done].
  pose proof (loop_no_context cfg q (pages env) initial) as (A & R).
  destruct (loop cfg q (pages env) initial) as [[tr' st'] [why'|]]; [|done].
  cbn [fst snd] in *. intros [= <- <- <-].
  unfold Trace.acquired, Trace.released in *.
  cbn [app]. rewrite !last_cons. rewrite !app_assoc, last_snoc.
  cbn [Trace.count Trace.isAcquire Trace.isRelease].
  rewrite <- !app_assoc, !count_app, A, R.
  by destruct (bool_decide (why' = Thrown)).
Qed.

(** C9 fails on the code: [context.newPage()] stands before the [try]
    whose [finally] closes the context.  When it rejects, the session has
    acquired a context and ends without releasing it. *)
Theorem context_leaks_when_page_cannot_open :
  let env :=
    {| newContext := Fulfilled tt; newPage := Rejected; goto := Fulfilled tt;
       pages := [Samples.page Samples.clear (Fulfilled tt) (Fulfilled "a@b.co")
                   Samples.withoutNext];
       close := Fulfilled tt |} in
  let '(tr, r) := runQuery Samples.cfg "plumbers" env in
  r = Rejects ∧ Trace.acquired tr = 1 ∧ Trace.released tr = 0.
Proof. vm_compute. done. Qed.

End ContextSpec.

(** ** C6: the seen-records set *)

Module SeenSpec.
Import Session SessionFacts TraceFacts.

Lemma rowsFor_cons q clock e es :
  rowsFor q clock (e :: es)
  = {| Csv.email := e; Csv.query := q; Csv.timestamp := clock 0 |}
    :: rowsFor q (clock ∘ S) es.
Proof. reflexivity. Qed.

Lemma rowsFor_Forall (P : Csv.Row → Prop) q clock es :
  (∀ i e, e ∈ es →
          P {| Csv.email := e; Csv.query := q; Csv.timestamp := clock i |}) →
  Forall P (rowsFor q clock es).
Proof.
  revert clock. induction es as [|e es IH]; intros clock H; [constructor|].
  rewrite rowsFor_cons. constructor.
  - apply H. set_solver.
  - apply IH. intros i e' He'. apply (H (S i)). set_solver.
Qed.

Lemma collected_setCaptcha n st : collected (setCaptcha n st) = collected st.
Proof. reflexivity. Qed.

Lemma collected_collect es st :
  collected (collect es st) = Trace.seenAfter (collected st) (Collect <$> es).
Proof.
  unfold collect. revert st. induction es as [|e es IH]; intros st; [done|].
  cbn [foldl]. rewrite IH. reflexivity.
Qed.

Lemma seenAfter_app seen tr1 tr2 :
  Trace.seenAfter seen (tr1 ++ tr2)
  = Trace.seenAfter (Trace.seenAfter seen tr1) tr2.
Proof.
  revert seen. induction tr1 as [|ev tr1 IH]; intros seen; [done|].
  destruct ev; cbn; apply IH.
Qed.

Lemma seenAfter_grows seen tr : seen ⊆ Trace.seenAfter seen tr.
Proof.
  revert seen. induction tr as [|ev tr IH]; intros seen; [done|].
  destruct ev; cbn; try apply IH. etrans; [|apply IH]. set_solver.
Qed.

Lemma seenAfter_collect seen es :
  ∀ e, e ∈ es → e ∈ Trace.seenAfter seen (Collect <$> es).
Proof.
  revert seen. induction es as [|e' es IH]; intros seen e He; [set_solver|].
  rewrite fmap_cons. cbn [Trace.seenAfter].
  apply elem_of_cons in He as [->|He]; [|by apply IH].
  apply seenAfter_grows. set_solver.
Qed.

Lemma seenAfter_handoff seen cfg q env new :
  Trace.seenAfter seen (handoff cfg q env new) = seen.
Proof.
  destruct new as [|e es]; [done|]. rewrite handoff_events by done.
  by destruct (supabase cfg).
Qed.

(** The monitor along two traces in a row. *)
Lemma handedFresh_app a now tr1 tr2 :
  Trace.handedFresh a now tr1 →
  (∀ a', Trace.handedFresh a' (Trace.seenAfter now tr1) tr2) →
  Trace.handedFresh a now (tr1 ++ tr2).
Proof.
  revert a now. induction tr1 as [|ev tr1 IH]; intros a now H1 H2.
  { apply H2. }
  destruct ev; cbn in *; try (by apply IH).
  all: destruct H1 as [H1 H1']; split; [done|by apply IH].
Qed.

Lemma handedFresh_collects a now es tr :
  Trace.handedFresh a (Trace.seenAfter now (Collect <$> es)) tr →
  Trace.handedFresh a now ((Collect <$> es) ++ tr).
Proof.
  revert now. induction es as [|e es IH]; intros now H; [done|].
  rewrite fmap_cons. cbn. by apply IH.
Qed.

Lemma handedFresh_handoff a now cfg q env new tr :
  Forall (λ e, (e ∉ a) ∧ (e ∈ now)) new →
  Trace.handedFresh a now tr →
  Trace.handedFresh a now (handoff cfg q env new ++ tr).
Proof.
  intros Hnew Htr. destruct new as [|e es]; [done|].
  rewrite handoff_events by done.
  assert (Hrows : Forall (λ r, (Csv.email r ∉ a) ∧ (Csv.email r ∈ now))
                    (rowsFor q (clock env) (e :: es))).
  { apply rowsFor_Forall. intros i e' He'. cbn.
    by apply (proj1 (Forall_forall _ _) Hnew). }
  cbn. split; [done|]. split; [done|]. by destruct (supabase cfg).
Qed.

(** One pass: the state after it, and the monitor along it. *)
Lemma pass_seen cfg q env st :
  collected (iteration cfg q env st).1.2
  = Trace.seenAfter (collected st) (iteration cfg q env st).1.1.
Proof.
  destruct (blocks env st) eqn:B.
  { by rewrite iteration_blocked. }
  destruct (throws env) eqn:T.
  { by rewrite iteration_thrown. }
  rewrite iteration_extracts by done. cbn [fst snd].
  assert (Hst : ∀ s, collected (nextPageNum s) = collected s) by done.
  rewrite !seenAfter_app.
  replace (Trace.seenAfter (collected st) [Detect (pageNum st)])
    with (collected st) by done.
  replace (Trace.seenAfter (collected st)
             (if resolved env then [RecoveryWait] else []))
    with (collected st) by (by destruct (resolved env)).
  replace (Trace.seenAfter (collected st) [Extract])
    with (collected st) by done.
  rewrite seenAfter_handoff.
  destruct (goToNextPage _); rewrite ?Hst, collected_collect; done.
Qed.

Lemma pass_fresh cfg q env st a :
  Trace.handedFresh a (collected st) (iteration cfg q env st).1.1.
Proof.
  destruct (blocks env st) eqn:B.
  { by rewrite iteration_blocked. }
  destruct (throws env) eqn:T.
  { by rewrite iteration_thrown. }
  rewrite iteration_extracts by done. cbn [fst snd].
  assert (Hnew : Forall (λ e, (e ∉ collected st)
                 ∧ (e ∈ Trace.seenAfter (collected st)
                          (Collect <$> newEmailsOf env st)))
                   (newEmailsOf env st)).
  { apply Forall_forall. intros e He. split; [|by apply seenAfter_collect].
    unfold newEmailsOf in He. by apply list_elem_of_filter in He as [? _]. }
  assert (Hrest : Trace.handedFresh (collected st) (collected st)
            ([Extract] ++ (Collect <$> newEmailsOf env st)
             ++ handoff cfg q env (newEmailsOf env st) ++ [NextPage]
             ++ (if goToNextPage (nextProbe env) then [Pause] else []))).
  { cbn [app Trace.handedFresh]. apply handedFresh_collects.
    apply handedFresh_handoff; [done|]. by destruct (goToNextPage _). }
  cbn [app Trace.handedFresh]. by destruct (resolved env).
Qed.

Lemma loop_app cfg q s1 s2 st :
  loop cfg q (s1 ++ s2) st
  = match loop cfg q s1 st with
    | (tr, st', None) =>
        let '(tr', st'', r) := loop cfg q s2 st' in (tr ++ tr', st'', r)
    | other => other
    end.
Proof.
  revert st. induction s1 as [|env s1 IH]; intros st.
  { cbn. by destruct (loop cfg q s2 st) as [[? ?] ?]. }
  cbn [app loop].
  destruct (iteration cfg q env st) as [[tr st'] [[]|why]]; [|done].
  rewrite IH. destruct (loop cfg q s1 st') as [[tr1 st1] [why1|]]; [done|].
  destruct (loop cfg q s2 st1) as [[tr2 st2] r2]. by rewrite app_assoc.
Qed.

Lemma loop_seen cfg q script st :
  let '(tr, st', _) := loop cfg q script st in
  (∀ a, Trace.handedFresh a (collected st) tr)
  ∧ collected st' = Trace.seenAfter (collected st) tr.
Proof.
  revert st. induction script as [|env rest IH]; intros st; [done|].
  cbn [loop].
  pose proof (pass_seen cfg q env st) as S.
  pose proof (pass_fresh cfg q env st) as F.
  destruct (iteration cfg q env st) as [[tr st'] [[]|why]];
    cbn [fst snd] in *; [|done].
  specialize (IH st'). destruct (loop cfg q rest st') as [[tr' st''] r'].
  destruct IH as [IH1 IH2]. split.
  - intros a. apply handedFresh_app; [done|]. intros a'. rewrite <- S. apply IH1.
  - by rewrite seenAfter_app, <- S.
Qed.

(** C6.  Along a session, every record handed to the writers has an
    identity that was not in the seen-records set when the extraction of
    its pass began, and that is in the set when the record is handed over
    (the set is updated first); the set of the session is the initial one
    with the collected identities added, so it only grows: it contains the
    set it started from and the set after any number of earlier passes. *)
Theorem seen_set_discipline cfg q script st :
  let '(tr, st', _) := loop cfg q script st in
  Trace.handedFresh (collected st) (collected st) tr
  ∧ collected st' = Trace.seenAfter (collected st) tr
  ∧ collected st ⊆ collected st'
  ∧ ∀ s1 s2, script = s1 ++ s2 →
      collected (loop cfg q s1 st).1.2 ⊆ collected st'.
Proof.
  pose proof (loop_seen cfg q script st) as H.
  destruct (loop cfg q script st) as [[tr st'] r] eqn:L.
  destruct H as [H1 H2]. split; [apply H1|]. split; [done|]. split.
  { rewrite H2. apply seenAfter_grows. }
  intros s1 s2 ->. rewrite loop_app in L.
  pose proof (loop_seen cfg q s2 (loop cfg q s1 st).1.2) as H3.
  destruct (loop cfg q s1 st) as [[tr1 st1] [why1|]]; cbn [fst snd] in *.
  { by injection L as <- <- <-. }
  destruct (loop cfg q s2 st1) as [[tr2 st2] r2].
  injection L as <- <- <-. destruct H3 as [_ ->]. apply seenAfter_grows.
Qed.

(** On a page that repeats an address the loop hands the identity over
    once per occurrence; on a later page the identity is known and is not
    handed over again. *)
Example seen_across_pages :
  let script :=
    [Samples.page Samples.clear (Fulfilled tt)
       (Fulfilled "a@b.co, c@d.ef") Samples.withNext;
     Samples.page Samples.clear (Fulfilled tt)
       (Fulfilled "C@D.EF x@y.zz") Samples.withoutNext] in
  omap (λ ev, match ev with Collect e => Some e | _ => None end)
    (loop Samples.cfg "plumbers" script initial).1.1
  = ["a@b.co"; "c@d.ef"; "x@y.zz"].
Proof. vm_compute. reflexivity. Qed.

End SeenSpec.

(** ** C1: the records handed to the writers *)

Module PersistSpec.
Import Session SessionFacts TraceFacts.

(** An event of the loop is an event of one of its passes, and the events
    of that pass are all in the trace of the loop. *)
Lemma loop_event cfg q script st ev :
  ev ∈ (loop cfg q script st).1.1 →
  ∃ env st0, env ∈ script ∧ ev ∈ (iteration cfg q env st0).1.1
    ∧ ∀ ev', ev' ∈ (iteration cfg q env st0).1.1 →
             ev' ∈ (loop cfg q script st).1.1.
Proof.
  revert st. induction script as [|env rest IH]; intros st.
  { cbn. by intros ?%elem_of_nil. }
  cbn [loop].
  destruct (iteration cfg q env st) as [[tr st'] [[]|why]] eqn:It.
  - specialize (IH st'). destruct (loop cfg q rest st') as [[tr' st''] r'].
    cbn [fst snd] in *. intros [H|H]%elem_of_app.
    + exists env, st. rewrite It. cbn. split; [by left|]. split; [done|].
      intros ev' ?. apply elem_of_app. by left.
    + destruct (IH H) as (env' & st0 & ? & ? & Hsub).
      exists env', st0. split; [by right|]. split; [done|].
      intros ev' ?. apply elem_of_app. right. by apply Hsub.
  - cbn [fst snd]. intros H. exists env, st. rewrite It. cbn.
    split; [by left|]. done.
Qed.

(** The hand-over events of a session are events of its loop. *)
Lemma runQuery_handover cfg q env ev :
  Trace.isHandOver ev = true →
  ev ∈ (runQuery cfg q env).1 →
  ev ∈ (loop cfg q (pages env) initial).1.1
  ∧ ∀ ev', ev' ∈ (loop cfg q (pages env) initial).1.1 →
           ev' ∈ (runQuery cfg q env).1.
Proof.
  unfold runQuery. intros Hev.
  destruct (newContext env); [|by intros ?%elem_of_nil].
  destruct (newPage env).
  2:{ intros ->%list_elem_of_singleton. done. }
  assert (Hsplit : ∀ post,
    Forall (λ ev', Trace.isHandOver ev' = false) post →
    ev ∈ [AcquireContext; NewPage; Goto q (fulfils (goto env))]
           ++ (loop cfg q (pages env) initial).1.1 ++ post →
    ev ∈ (loop cfg q (pages env) initial).1.1).
  { intros post Hpost [H|[H|H]%elem_of_app]%elem_of_app; [|done|].
    - repeat (apply elem_of_cons in H as [->|H]; [done|]).
      by apply elem_of_nil in H.
    - eapply Forall_forall in Hpost; [|done]. congruence. }
  destruct (loop cfg q (pages env) initial) as [[tr st] [why|]]; cbn [fst snd] in *.
  - intros H. split.
    + apply (Hsplit ((if bool_decide (why = Thrown) then [LogFailed] else [])
                      ++ [ReleaseContext (fulfils (close env))])); [|done].
      destruct (bool_decide (why = Thrown)); repeat constructor.
    + intros ev' ?. apply elem_of_app. right. apply elem_of_app. by left.
  - intros H. split.
    + apply (Hsplit []); [constructor|]. by rewrite app_nil_r.
    + intros ev' ?. apply elem_of_app. by right.
Qed.

(** The hand-over events of a pass are those of [handoff]. *)
Lemma pass_handover cfg q env st ev :
  Trace.isHandOver ev = true →
  ev ∈ (iteration cfg q env st).1.1 →
  ev ∈ handoff cfg q env (newEmailsOf env st)
  ∧ ∀ ev', ev' ∈ handoff cfg q env (newEmailsOf env st) →
           ev' ∈ (iteration cfg q env st).1.1.
Proof.
  intros Hev. destruct (blocks env st) eqn:B.
  { rewrite iteration_blocked by done. cbn.
    intros ->%list_elem_of_singleton. done. }
  destruct (throws env) eqn:T.
  { rewrite iteration_thrown by done. cbn.
    intros [->|H]%elem_of_cons; [done|].
    apply list_elem_of_singleton in H as ->. done. }
  rewrite iteration_extracts by done. cbn [fst snd].
  rewrite !elem_of_app. intros [H|[H|[H|[H|[H|[H|H]]]]]].
  - apply list_elem_of_singleton in H as ->. done.
  - destruct (resolved env);
      [apply list_elem_of_singleton in H as ->|apply elem_of_nil in H]; done.
  - apply list_elem_of_singleton in H as ->. done.
  - apply list_elem_of_fmap in H as (e & -> & _). done.
  - split; [done|]. intros ev' ?. rewrite !elem_of_app. auto 10.
  - apply list_elem_of_singleton in H as ->. done.
  - destruct (goToNextPage _);
      [apply list_elem_of_singleton in H as ->|apply elem_of_nil in H]; done.
Qed.

(** Where a hand-over event of a session comes from: a page of the script
    with new identities, whose rows both writers are called with. *)
Lemma handover_origin cfg q env ev :
  Trace.isHandOver ev = true →
  ev ∈ (runQuery cfg q env).1 →
  ∃ page new,
    page ∈ pages env ∧ new ≠ []
    ∧ new ⊆ Extractor.extractEmailsFromPage (innerText page)
    ∧ let rows := rowsFor q (clock page) new in
      ev ∈ AppendToCSV rows
           :: FsAppend (OUTPUT_FILE cfg) (Csv.csvContent rows) (written page)
           :: SaveToSupabase rows
           :: (if supabase cfg
               then [DbInsert (SUPABASE_TABLE cfg) (Supabase.ofRow <$> rows)
                       (stored page)]
               else [])
      ∧ AppendToCSV rows ∈ (runQuery cfg q env).1
      ∧ SaveToSupabase rows ∈ (runQuery cfg q env).1.
Proof.
  intros Hev H.
  destruct (runQuery_handover cfg q env ev Hev H) as [Hl Hsub].
  destruct (loop_event _ _ _ _ _ Hl) as (page & st0 & Hpage & Hit & Hsub').
  destruct (pass_handover _ _ _ _ _ Hev Hit) as [Hh Hsub''].
  assert (Hne : newEmailsOf page st0 ≠ []).
  { intros E. rewrite E in Hh. by apply elem_of_nil in Hh. }
  exists page, (newEmailsOf page st0). split; [done|]. split; [done|]. split.
  { intros e He. unfold newEmailsOf in He.
    by apply list_elem_of_filter in He as [_ ?]. }
  rewrite handoff_events in Hh, Hsub'' by done. cbn zeta in *.
  split; [done|].
  split; apply Hsub, Hsub', Hsub''; rewrite !elem_of_cons; auto.
Qed.

(** C1, amended.  Every batch handed to the writers in a session is
    non-empty and made of records with the three fields email, query and
    timestamp: the identities are new ones of a page, the query is that of
    the session, the timestamp is the reading of the clock; both writers
    are called with the same batch.  The insert sent to the structured
    store, under the configured table name, holds for each record of the
    batch an object of two fields: [created_at], the timestamp, and
    [email], the identity. *)
Theorem handed_batches_and_inserts cfg q env :
  let tr := (runQuery cfg q env).1 in
  (∀ rows, AppendToCSV rows ∈ tr ∨ SaveToSupabase rows ∈ tr →
     AppendToCSV rows ∈ tr ∧ SaveToSupabase rows ∈ tr
     ∧ Forall (λ r, Csv.query r = q) rows
     ∧ ∃ page new,
         page ∈ pages env ∧ new ≠ []
         ∧ new ⊆ Extractor.extractEmailsFromPage (innerText page)
         ∧ rows = rowsFor q (clock page) new)
  ∧ (∀ table inserts b, DbInsert table inserts b ∈ tr →
     table = SUPABASE_TABLE cfg
     ∧ ∃ rows, SaveToSupabase rows ∈ tr
               ∧ inserts = Supabase.ofRow <$> rows).
Proof.
  intros tr. subst tr. split.
  - intros rows Hrows.
    assert (∃ ev, (ev = AppendToCSV rows ∨ ev = SaveToSupabase rows)
                  ∧ ev ∈ (runQuery cfg q env).1) as (ev & Hev & Hin).
    { destruct Hrows; eauto. }
    destruct (handover_origin cfg q env ev) as
      (page & new & Hpage & Hne & Hnew & Hev' & HA & HS); [|done|].
    { by destruct Hev as [-> | ->]. }
    cbn zeta in *.
    assert (rows = rowsFor q (clock page) new) as ->.
    { rewrite !elem_of_cons in Hev'.
      destruct Hev as [-> | ->];
        destruct Hev' as [E|[E|[E|E]]]; try congruence;
        destruct (supabase cfg);
        try (apply list_elem_of_singleton in E); try (apply elem_of_nil in E);
        done. }
    split; [done|]. split; [done|]. split.
    + by apply SeenSpec.rowsFor_Forall.
    + by exists page, new.
  - intros table inserts b Hin.
    destruct (handover_origin cfg q env (DbInsert table inserts b)) as
      (page & new & Hpage & Hne & Hnew & Hev' & HA & HS); [done|done|].
    cbn zeta in *. rewrite !elem_of_cons in Hev'.
    destruct Hev' as [E|[E|[E|E]]]; try done.
    destruct (supabase cfg); [|by apply elem_of_nil in E].
    apply list_elem_of_singleton in E. injection E as -> -> ->.
    split; [done|]. by eexists.
Qed.

(** What the written lines look like to a reader of the file. *)
Lemma fields_quoted s rest :
  Csv.fieldsFrom true (Csv.doubleQuotes s +:+ String Csv.dquote rest)
  = Csv.fieldsFrom false rest.
Proof.
  induction s as [|c s IH]; [done|]. cbn [Csv.doubleQuotes].
  destruct (Ascii.eqb c Csv.dquote) eqn:E.
  - rewrite !StrFacts.app_cons. cbn [Csv.fieldsFrom].
    rewrite Ascii.eqb_refl. cbn [negb]. apply IH.
  - rewrite StrFacts.app_cons. cbn [Csv.fieldsFrom]. rewrite E.
    rewrite andb_false_r. apply IH.
Qed.

Lemma fields_plain s rest :
  Str.includes Csv.comma s = false → Str.includes Csv.dquote s = false →
  Csv.fieldsFrom false (s +:+ rest) = Csv.fieldsFrom false rest.
Proof.
  induction s as [|c s IH]; [done|]. cbn [Str.includes].
  destruct (Ascii.eqb c Csv.comma) eqn:E1; [done|].
  destruct (Ascii.eqb c Csv.dquote) eqn:E2; [done|]. intros H1 H2.
  rewrite StrFacts.app_cons. cbn [Csv.fieldsFrom]. rewrite E1, E2.
  cbn [andb]. by apply IH.
Qed.

Lemma fields_escapeCsv s rest :
  Csv.fieldsFrom false (Csv.escapeCsv s +:+ rest) = Csv.fieldsFrom false rest.
Proof.
  unfold Csv.escapeCsv.
  destruct (Str.includes Csv.comma s) eqn:H1;
    [|destruct (Str.includes Csv.dquote s) eqn:H2];
    [| |destruct (Str.includes "010"%char s) eqn:H3]; cbn [orb].
  4: by apply fields_plain.
  all: rewrite StrFacts.app_cons, StrFacts.app_assoc, StrFacts.app_cons;
    cbn [Csv.fieldsFrom]; rewrite Ascii.eqb_refl; cbn [negb];
    apply fields_quoted.
Qed.

(** Every line written by [appendToCSV] has two fields, whatever the
    record holds; the header has three. *)
Lemma csvLine_two_fields r : Csv.fieldCount (Csv.csvLine r) = 2.
Proof.
  unfold Csv.fieldCount, Csv.csvLine. rewrite fields_escapeCsv.
  cbn [Csv.fieldsFrom]. replace (Ascii.eqb Csv.comma Csv.dquote) with false by done.
  rewrite Ascii.eqb_refl. cbn [andb negb]. f_equal.
  rewrite <- (StrFacts.app_nil_r (Csv.escapeCsv (Csv.timestamp r))).
  by rewrite fields_escapeCsv.
Qed.

Lemma header_three_fields : Csv.fieldCount Csv.HEADER = 3.
Proof. reflexivity. Qed.

(** C1 as worded fails.  One address is found on a page; the line appended
    to the output file has the two fields email and timestamp under a
    header of three, and the object inserted in the store has the two
    fields [created_at] and [email]: the query is written nowhere. *)
Lemma written_records_lack_the_query :
  let stamp := "2024-05-01T10:00:00.000Z" in
  let row := {| Csv.email := "a@b.co"; Csv.query := "plumbers";
                Csv.timestamp := stamp |} in
  let script := [Samples.page Samples.clear (Fulfilled tt)
                   (Fulfilled "Write to a@b.co") Samples.withoutNext] in
  (runQuery Samples.cfg "plumbers" (Samples.session script)).1
  = [AcquireContext; NewPage; Goto "plumbers" true; Detect 1; Extract;
     Collect "a@b.co"; AppendToCSV [row];
     FsAppend "/app/output.csv" (Csv.csvLine row +:+ Csv.LF) true;
     SaveToSupabase [row];
     DbInsert "email_table"
       [{| Supabase.created_at := stamp; Supabase.email := "a@b.co" |}] true;
     NextPage; ReleaseContext true]
  ∧ Csv.csvLine row = "a@b.co,2024-05-01T10:00:00.000Z"
  ∧ Csv.fieldCount (Csv.csvLine row) = 2
  ∧ Csv.fieldCount Csv.HEADER = 3.
Proof. vm_compute. done. Qed.

End PersistSpec.

(** ** C7: the token solver *)

Module SolverSpec.
Import Solver.

Lemma filter_ext_in {A} (P Q : A → Prop) `{∀ x, Decision (P x)}
    `{∀ x, Decision (Q x)} (l : list A) :
  (∀ x, x ∈ l → P x ↔ Q x) → filter P l = filter Q l.
Proof.
  induction l as [|x l IH]; intros Hl; [done|].
  rewrite !filter_cons. rewrite IH by (intros; apply Hl; by right).
  pose proof (Hl x (list_elem_of_here _ _)) as Hx.
  destruct (decide (P x)), (decide (Q x)); tauto.
Qed.

(** Pushing the members of a duplicate-free list that are not yet
    included. *)
Lemma push_missing (init more : list string) :
  NoDup more →
  foldl (λ types t, if bool_decide (t ∈ types) then types else types ++ [t])
    init more
  = init ++ filter (λ t, t ∉ init) more.
Proof.
  intros Hnd. revert init. induction Hnd as [|t more Ht _ IH]; intros init.
  { by rewrite app_nil_r. }
  cbn [foldl]. rewrite filter_cons. case_bool_decide as Hin.
  - rewrite decide_False by (intros ?; done). apply IH.
  - rewrite decide_True by done. rewrite IH, <- app_assoc. cbn [app].
    do 2 f_equal. apply filter_ext_in.
    intros u Hu. rewrite elem_of_app, list_elem_of_singleton.
    split; [tauto|]. intros ? [?| ->]; done.
Qed.

Lemma fallback_nodup : NoDup FALLBACK.
Proof. apply (bool_decide_unpack _). by vm_compute. Qed.

Lemma hinted_nodup hint : NoDup (hinted hint).
Proof.
  destruct hint as [[|c h]|]; cbn; try constructor; [set_solver|constructor].
Qed.

Lemma candidateTypes_order hint :
  candidateTypes hint = hinted hint ++ filter (λ t, t ∉ hinted hint) FALLBACK.
Proof. apply push_missing, fallback_nodup. Qed.

Lemma candidateTypes_nodup hint : NoDup (candidateTypes hint).
Proof.
  rewrite candidateTypes_order. apply NoDup_app. split; [apply hinted_nodup|].
  split.
  - intros t Ht Hf. by apply list_elem_of_filter in Hf as [? _].
  - apply NoDup_filter, fallback_nodup.
Qed.






(** The fallback sequence behind a hint that is one of its members. *)
Example candidateTypes_hint :
  candidateTypes (Some "recaptcha")
  = ["recaptcha"; "recaptcha3"; "recaptcha_enterprise"].
Proof. reflexivity. Qed.

End SolverSpec.

(** ** C8: the batches of the entry point *)

Module SchedulerSpec.
Import Scheduler.

Lemma allSettled_settles ends :
  Forall (λ e, e ≠ Never) ends → ∃ rs, allSettled ends = Some rs.
Proof.
  induction 1 as [|e ends He _ [rs IH]]; [by eexists|].
  destruct e as [r|]; [|done]. cbn. rewrite IH. by eexists.
Qed.

Lemma batchLoop_unfold fuel C queries run idx :
  batchLoop (S fuel) C queries run idx
  = if idx <? length queries then
      let batch := slice queries idx C in
      match allSettled (imap (λ i q, run (idx + i) q) batch) with
      | None => ([Launch idx batch], Waiting)
      | Some results =>
          let '(tr, r) := batchLoop fuel C queries run (idx + C) in
          (Launch idx batch :: Joined results :: tr, r)
      end
    else ([], Completed).
Proof. reflexivity. Qed.

Lemma batchLoop_done fuel C queries run idx :
  length queries ≤ idx → batchLoop fuel C queries run idx = ([], Completed).
Proof.
  intros H. apply Nat.ltb_ge in H. destruct fuel; cbn [batchLoop]; by rewrite H.
Qed.

Lemma batchesFrom_outside fuel C queries run p :
  inside p (length queries) = None →
  batchesFrom fuel C queries run p = ([], Completed).
Proof. intros H. destruct fuel; cbn [batchesFrom]; by rewrite H. Qed.

(** Under a whole-number ceiling the loop is [batchLoop]. *)
Lemma batchesFrom_whole n queries run : ∀ fuel idx,
  batchesFrom fuel (Whole n) queries run (At idx)
  = batchLoop fuel (Pos.to_nat n) queries run idx.
Proof.
  induction fuel as [|fuel IH]; intros idx; cbn [batchesFrom batchLoop inside].
  - by destruct (idx <? length queries).
  - destruct (idx <? length queries); [|done].
    cbn [plus sliceTo].
    replace (idx + Pos.to_nat n - idx) with (Pos.to_nat n) by lia.
    unfold slice. by rewrite IH.
Qed.

Lemma batches_whole fuel n queries run :
  batches fuel (Whole n) queries run
  = batchLoop fuel (Pos.to_nat n) queries run 0.
Proof. apply batchesFrom_whole. Qed.

(** Under a huge ceiling the first slice is the whole list and the loop
    is over after it, as under a ceiling equal to the number of queries. *)
Lemma batches_huge fuel queries run :
  batches fuel Huge queries run
  = batchLoop fuel (length queries) queries run 0.
Proof.
  unfold batches. destruct fuel as [|fuel]; cbn [batchesFrom batchLoop inside].
  - by destruct (0 <? length queries).
  - destruct (0 <? length queries) eqn:E; [|done].
    cbn [plus sliceTo]. unfold slice. rewrite drop_0, firstn_all.
    rewrite batchesFrom_outside by done.
    by rewrite batchLoop_done by (cbn; lia).
Qed.

(** Under a ceiling that is not a number the loop makes one turn with an
    empty slice, when there is a query at all. *)
Lemma batches_nan fuel queries run :
  batches fuel NotANumber queries run
  = if 0 <? length queries then
      match fuel with
      | 0 => ([], OutOfFuel)
      | S _ => ([Launch 0 []; Joined []], Completed)
      end
    else ([], Completed).
Proof.
  unfold batches.
  destruct fuel as [|fuel]; cbn [batchesFrom inside];
    destruct (0 <? length queries); try done.
  cbn [plus sliceTo Nat.sub take imap allSettled].
  by rewrite batchesFrom_outside.
Qed.

(** Read the loop by the kind of its ceiling. *)
Ltac by_ceiling := rewrite ?batches_nan, ?batches_whole, ?batches_huge.

(** The join fulfils with the outcomes of all the promises, in order. *)
Lemma allSettled_outcomes ends rs :
  allSettled ends = Some rs → ends = Settles <$> rs.
Proof.
  revert rs. induction ends as [|e ends IH]; intros rs.
  { by intros [= <-]. }
  destruct e as [o|]; [|done]. cbn [allSettled].
  destruct (allSettled ends) as [rs'|]; [|done]. intros [= <-].
  by rewrite fmap_cons, <- (IH rs').
Qed.

(** It is pending only while one promise is. *)
Lemma allSettled_pending ends :
  allSettled ends = None → ∃ j, ends !! j = Some Never.
Proof.
  induction ends as [|e ends IH]; [done|]. destruct e as [r|].
  - cbn. destruct (allSettled ends); [done|]. intros _.
    destruct IH as [j Hj]; [done|]. by exists (S j).
  - intros _. by exists 0.
Qed.

(** What the join of a batch carries. *)
Lemma join_outcomes run idx (batch : list string) rs :
  allSettled (imap (λ i q, run (idx + i) q) batch) = Some rs →
  length rs = length batch
  ∧ ∀ i q, batch !! i = Some q →
           ∃ o, run (idx + i) q = Settles o ∧ rs !! i = Some o.
Proof.
  intros E%allSettled_outcomes. split.
  { apply (f_equal length) in E. by rewrite length_imap, length_fmap in E. }
  intros i q Hq.
  assert (H : imap (λ i q, run (idx + i) q) batch !! i = Some (run (idx + i) q)).
  { rewrite list_lookup_imap, Hq. done. }
  rewrite E, list_lookup_fmap in H.
  destruct (rs !! i) as [o|]; [|done]. injection H as H. by exists o.
Qed.

(** The barrier holds along every run of the loop. *)
Lemma batchLoop_barrier fuel C queries run idx :
  barrier run (batchLoop fuel C queries run idx).1
    (batchLoop fuel C queries run idx).2.
Proof.
  revert idx. induction fuel as [|fuel IH]; intros idx.
  { cbn [batchLoop]. destruct (idx <? length queries); cbn; done. }
  rewrite batchLoop_unfold. destruct (idx <? length queries); [|by cbn].
  cbn zeta.
  destruct (allSettled _) as [rs|] eqn:E.
  - specialize (IH (idx + C)). destruct (join_outcomes _ _ _ _ E) as [L O].
    destruct (batchLoop fuel C queries run (idx + C)) as [tr r]. by cbn.
  - cbn. split; [done|]. destruct (allSettled_pending _ E) as [j Hj].
    apply list_lookup_imap_Some in Hj as (q & Hq & Hn). by exists j, q.
Qed.

Lemma slice_length {A} (queries : list A) idx C :
  length (slice queries idx C) = C `min` (length queries - idx).
Proof. unfold slice. by rewrite length_take, length_drop. Qed.

(** With a ceiling of at least one and sessions that all settle, the loop
    completes and its batches cut the queries from [idx] on. *)
Lemma batchLoop_partition fuel C queries run idx :
  1 ≤ C → (∀ i q, run i q ≠ Never) → length queries - idx ≤ fuel →
  let '(tr, r) := batchLoop fuel C queries run idx in
  r = Completed
  ∧ concat (launched tr) = drop idx queries
  ∧ fullButLast C (launched tr)
  ∧ (launched tr = [] ↔ length queries ≤ idx).
Proof.
  intros HC Hrun. revert idx. induction fuel as [|fuel IH]; intros idx Hfuel.
  { rewrite batchLoop_done by lia. cbn. rewrite drop_ge by lia.
    repeat split; try done. lia. }
  destruct (decide (length queries ≤ idx)) as [Hge|Hlt].
  { rewrite batchLoop_done by lia. cbn. rewrite drop_ge by lia.
    repeat split; done. }
  rewrite batchLoop_unfold.
  assert ((idx <? length queries) = true) as -> by (apply Nat.ltb_lt; lia).
  cbn zeta.
  destruct (allSettled_settles
              (imap (λ i q, run (idx + i) q) (slice queries idx C)))
    as [rs ->].
  { apply Forall_forall. intros e (i & q & -> & _)%elem_of_lookup_imap.
    apply Hrun. }
  specialize (IH (idx + C)).
  destruct (batchLoop fuel C queries run (idx + C)) as [tr r].
  destruct IH as (-> & Hcat & Hfull & Hnil); [lia|].
  cbn [launched concat]. split; [done|]. split; [|split].
  - rewrite Hcat. unfold slice. rewrite <- drop_drop. apply take_drop.
  - pose proof (slice_length queries idx C) as Hlen.
    destruct (launched tr) as [|b bs] eqn:El.
    + cbn. lia.
    + cbn [fullButLast]. split; [|done].
      assert (¬ length queries ≤ idx + C) by (intros ?%Hnil; done). lia.
  - split; [done|lia].
Qed.

(** With a ceiling [C] of at least one and sessions that all end,
    fulfilled or rejected, the batching loop runs to completion: the batches
    it launches are consecutive slices of the query list, in order, each
    of [C] queries but the last, which has between one and [C]; each
    launch is followed by the join that carries the outcome of every
    session of the batch before the next batch is launched. *)
Theorem batches_joined_before_next C queries run :
  1 ≤ C →
  (∀ i q, run i q ≠ Never) →
  ∃ tr,
    batchLoop (length queries) C queries run 0 = (tr, Completed)
    ∧ concat (launched tr) = queries
    ∧ fullButLast C (launched tr)
    ∧ barrier run tr Completed.
Proof.
  intros HC Hrun.
  pose proof (batchLoop_partition (length queries) C queries run 0 HC Hrun
                ltac:(lia)) as P.
  pose proof (batchLoop_barrier (length queries) C queries run 0) as B.
  destruct (batchLoop _ _ _ _ _) as [tr r]. cbn [fst snd] in *.
  destruct P as (-> & Hcat & Hfull & _). by exists tr.
Qed.

Lemma batches_joined_before_next_witness :
  let run := sessions Samples.cfg Samples.sessionEnvs in
  1 ≤ 3
  ∧ (∀ i q, run i q ≠ Never)
  ∧ ∃ tr,
      batchLoop 7 3 Samples.sevenQueries run 0 = (tr, Completed)
      ∧ concat (launched tr) = Samples.sevenQueries
      ∧ fullButLast 3 (launched tr)
      ∧ barrier run tr Completed.
Proof.
  intros run.
  assert (H1 : 1 ≤ 3) by lia.
  assert (H2 : ∀ i q, run i q ≠ Never).
  { intros i q. unfold run, sessions, Samples.sessionEnvs, Session.runQuery.
    cbn [Session.newContext Session.newPage]. by destruct (i =? 1). }
  split; [exact H1|]. split; [exact H2|].
  exact (batches_joined_before_next 3 Samples.sevenQueries run H1 H2).
Defined.

(** C8 fails on the code when the ceiling is not a number, which is
    what [Math.max(1, parseInt(text, 10))] gives for a text without a
    leading digit.  Whatever the queries, at least one, and whatever the
    sessions would do: the loop makes one turn with an empty batch, no
    session is started for any query, the browser is closed and the entry
    point completes. *)
Theorem ceiling_not_a_number_runs_no_query cfg queries envs :
  CONCURRENCY cfg = NotANumber →
  queries ≠ [] →
  main cfg queries envs
  = ([Launch 0 []; Joined []; CloseBrowser], Completed)
  ∧ concat (launched (main cfg queries envs).1) = []
  ∧ concat (launched (main cfg queries envs).1) ≠ queries.
Proof.
  intros HC Hne. unfold main. rewrite HC.
  destruct queries as [|q0 qs]; [done|]. by rewrite batches_nan.
Qed.

Lemma ceiling_not_a_number_runs_no_query_witness :
  ∃ cfg,
    Settings.load "/app" Settings.unreadable = Some cfg
    ∧ CONCURRENCY cfg = NotANumber
    ∧ Samples.sevenQueries ≠ []
    ∧ main cfg Samples.sevenQueries Samples.sessionEnvs
      = ([Launch 0 []; Joined []; CloseBrowser], Completed).
Proof.
  eexists. split; [reflexivity|].
  assert (H1 : CONCURRENCY
                 {| ROOT_DIR := "/app"; CONCURRENCY := NotANumber;
                    supabase := false; SUPABASE_TABLE := "email_table";
                    NOPECHA_API_KEY := "key" |} = NotANumber) by reflexivity.
  assert (H2 : Samples.sevenQueries ≠ []) by done.
  split; [exact H1|]. split; [exact H2|].
  exact (proj1 (ceiling_not_a_number_runs_no_query _ Samples.sevenQueries
                  Samples.sessionEnvs H1 H2)).
Defined.

(** Seven queries under a ceiling of three: batches of three, three and
    one; the session that fails in the first batch does not keep the
    others from running, and the browser is closed after the last join. *)
Example seven_queries_three_at_a_time :
  let '(tr, r) := main Samples.cfg Samples.sevenQueries Samples.sessionEnvs in
  r = Completed
  ∧ launched tr = [["q1"; "q2"; "q3"]; ["q4"; "q5"; "q6"]; ["q7"]]
  ∧ tr = [Launch 0 ["q1"; "q2"; "q3"];
          Joined [Fulfilled tt; Rejected; Fulfilled tt];
          Launch 3 ["q4"; "q5"; "q6"];
          Joined [Fulfilled tt; Fulfilled tt; Fulfilled tt];
          Launch 6 ["q7"]; Joined [Fulfilled tt]; CloseBrowser].
Proof. vm_compute. done. Qed.

(** A session that never ends keeps the next batch from starting. *)
Example pending_session_holds_the_batch :
  batchLoop 7 3 Samples.sevenQueries
    (λ i _, if i =? 2 then Never else Settles (Fulfilled tt)) 0
  = ([Launch 0 ["q1"; "q2"; "q3"]], Waiting).
Proof. reflexivity. Qed.

End SchedulerSpec.

(** ** C10: the header of the output file at start-up *)

Module StartupSpec.
Import Startup StrFacts.

Lemma toLowerCase_length s : String.length (Str.toLowerCase s) = String.length s.
Proof. induction s as [|c s IH]; [done|]. cbn. by rewrite IH. Qed.

(** The replacement acts on the final [.csv]. *)
Lemma replaceCsvSuffix_csv stem repl :
  replaceCsvSuffix (stem +:+ ".csv") repl = stem +:+ repl.
Proof.
  induction stem as [|c stem IH]; [done|].
  rewrite !app_cons. cbn [replaceCsvSuffix]. rewrite IH.
  assert (String.eqb (Str.toLowerCase (String c (stem +:+ ".csv"))) ".csv" = false)
    as ->; [|done].
  apply String.eqb_neq. intros E. apply (f_equal String.length) in E.
  rewrite toLowerCase_length in E. cbn in E. rewrite length_app in E.
  cbn in E. lia.
Qed.

Lemma OUTPUT_FILE_stem cfg :
  OUTPUT_FILE cfg = (ROOT_DIR cfg +:+ "/output") +:+ ".csv".
Proof. unfold OUTPUT_FILE. by rewrite app_assoc. Qed.

Lemma backupPath_eq cfg now :
  backupPath cfg now
  = (ROOT_DIR cfg +:+ "/output") +:+ ".backup-" +:+ pretty now +:+ ".csv".
Proof. unfold backupPath. by rewrite OUTPUT_FILE_stem, replaceCsvSuffix_csv. Qed.

(** The backup is another file than the output file. *)
Lemma backupPath_fresh cfg now : backupPath cfg now ≠ OUTPUT_FILE cfg.
Proof.
  rewrite backupPath_eq, OUTPUT_FILE_stem. intros E%app_inv_head.
  rewrite !app_cons in E. discriminate E.
Qed.

(** C10, amended.  When the output file does not exist it is created with
    the header line alone.  When it exists and its first line, with the
    white space around it trimmed, is the header, nothing is changed.
    Otherwise the whole former content is copied to the time-stamped
    backup file and the output file is rewritten with the header line
    alone; no other file is touched. *)
Theorem header_ensured_with_backup cfg now (fs : gmap string string) :
  (fs !! OUTPUT_FILE cfg = None →
   ensureHeader cfg now fs = <[OUTPUT_FILE cfg := headerFile]> fs)
  ∧ (∀ old, fs !! OUTPUT_FILE cfg = Some old →
       trim (firstLine old) = Csv.HEADER →
       ensureHeader cfg now fs = fs)
  ∧ (∀ old, fs !! OUTPUT_FILE cfg = Some old →
       trim (firstLine old) ≠ Csv.HEADER →
       ensureHeader cfg now fs !! backupPath cfg now = Some old
       ∧ ensureHeader cfg now fs !! OUTPUT_FILE cfg = Some headerFile
       ∧ ∀ path, path ≠ backupPath cfg now → path ≠ OUTPUT_FILE cfg →
                 ensureHeader cfg now fs !! path = fs !! path).
Proof.
  unfold ensureHeader. split; [|split].
  - by intros ->.
  - intros old -> E. by rewrite bool_decide_eq_false_2 by (by intros ?).
  - intros old -> E. rewrite bool_decide_eq_true_2 by done.
    pose proof (backupPath_fresh cfg now) as F. split; [|split].
    + rewrite lookup_insert_ne by done. by rewrite lookup_insert_eq.
    + by rewrite lookup_insert_eq.
    + intros path H1 H2. by rewrite !lookup_insert_ne.
Qed.

(** C10 as worded fails: a first line that is the header followed by a
    blank is not exactly the header, and the file is left as it is, with
    no backup. *)
Lemma padded_header_line_is_kept :
  let old := "email,query,timestamp " +:+ Csv.LF
             +:+ "old@site.com,plumbers,2023-01-01" +:+ Csv.LF in
  let fs : gmap string string := {[ OUTPUT_FILE Samples.cfg := old ]} in
  firstLine old = "email,query,timestamp "
  ∧ firstLine old ≠ Csv.HEADER
  ∧ ensureHeader Samples.cfg 1700000000000 fs = fs
  ∧ ensureHeader Samples.cfg 1700000000000 fs
      !! backupPath Samples.cfg 1700000000000 = None.
Proof.
  intros old fs.
  assert (E : ensureHeader Samples.cfg 1700000000000 fs = fs).
  { unfold ensureHeader, fs. rewrite lookup_singleton_eq.
    by rewrite bool_decide_eq_false_2 by (by intros ?). }
  split; [done|]. split; [done|]. split; [done|]. rewrite E.
  unfold fs. apply lookup_singleton_ne.
  intros F. symmetry in F. by apply backupPath_fresh in F.
Qed.

Lemma header_ensured_with_backup_witness :
  let fs : gmap string string :=
    {[ OUTPUT_FILE Samples.cfg := "email,timestamp" +:+ Csv.LF ]} in
  backupPath Samples.cfg 1700000000000 = "/app/output.backup-1700000000000.csv"
  ∧ ensureHeader Samples.cfg 1700000000000 fs
      !! "/app/output.backup-1700000000000.csv"
    = Some ("email,timestamp" +:+ Csv.LF)
  ∧ ensureHeader Samples.cfg 1700000000000 fs !! "/app/output.csv"
    = Some headerFile.
Proof.
  intros fs. split; [by vm_compute|].
  destruct (header_ensured_with_backup Samples.cfg 1700000000000 fs)
    as (_ & _ & H).
  destruct (H ("email,timestamp" +:+ Csv.LF)) as (H1 & H2 & _).
  - unfold fs. apply lookup_singleton_eq.
  - by vm_compute.
  - split; [rewrite <- H1|rewrite <- H2]; f_equal.
Defined.

End StartupSpec.

(** * Further properties of the code *)

(** ** What [appendToCSV] writes, read back *)

Module CsvFacts.
Import StrFacts.

Lemma app_empty_l s : EmptyString +:+ s = s.
Proof. reflexivity. Qed.

Lemma snoc_app field c s :
  CsvRead.snoc field c +:+ s = field +:+ String c s.
Proof. unfold CsvRead.snoc. by rewrite app_assoc. Qed.

Lemma parse_quoted s field record rest :
  CsvRead.parse CsvRead.Quoted field record
    (Csv.doubleQuotes s +:+ String Csv.dquote rest)
  = CsvRead.parse CsvRead.QuoteSeen (field +:+ s) record rest.
Proof.
  revert field. induction s as [|c s IH]; intros field.
  { rewrite app_nil_r. cbn [Csv.doubleQuotes].
    change (EmptyString +:+ String Csv.dquote rest) with (String Csv.dquote rest).
    cbn [CsvRead.parse]. by rewrite Ascii.eqb_refl. }
  cbn [Csv.doubleQuotes]. destruct (Ascii.eqb c Csv.dquote) eqn:E.
  - apply Ascii.eqb_eq in E as ->. rewrite !app_cons. cbn [CsvRead.parse].
    rewrite Ascii.eqb_refl. cbn [CsvRead.parse].
    rewrite IH. by rewrite snoc_app.
  - rewrite app_cons. cbn [CsvRead.parse]. rewrite E, IH. by rewrite snoc_app.
Qed.

Lemma parse_plain s field record rest :
  Str.includes Csv.comma s = false → Str.includes Csv.dquote s = false →
  Str.includes "010"%char s = false →
  CsvRead.parse CsvRead.Plain field record (s +:+ rest)
  = CsvRead.parse CsvRead.Plain (field +:+ s) record rest.
Proof.
  revert field. induction s as [|c s IH]; intros field H1 H2 H3.
  { by rewrite app_nil_r. }
  cbn [Str.includes] in *.
  destruct (Ascii.eqb c Csv.comma) eqn:E1; [done|].
  destruct (Ascii.eqb c Csv.dquote) eqn:E2; [done|].
  destruct (Ascii.eqb c "010"%char) eqn:E3; [done|].
  rewrite app_cons. cbn [CsvRead.parse]. rewrite E1, E2, E3, IH by done.
  by rewrite snoc_app.
Qed.

(** An escaped value followed by a comma is read as one field, followed
    by a line feed as the last field of a record. *)
Lemma parse_escaped_comma s record rest :
  CsvRead.parse CsvRead.Plain EmptyString record
    (Csv.escapeCsv s +:+ String Csv.comma rest)
  = CsvRead.parse CsvRead.Plain EmptyString (record ++ [s]) rest.
Proof.
  unfold Csv.escapeCsv.
  destruct (Str.includes Csv.comma s || Str.includes Csv.dquote s
            || Str.includes "010"%char s) eqn:E.
  - rewrite app_cons, app_assoc, app_cons. cbn [CsvRead.parse].
    change (Ascii.eqb Csv.dquote Csv.comma) with false.
    change (Ascii.eqb Csv.dquote "010"%char) with false.
    rewrite Ascii.eqb_refl, parse_quoted, !app_empty_l. cbn [CsvRead.parse].
    by rewrite Ascii.eqb_refl.
  - apply orb_false_iff in E as [E E3]. apply orb_false_iff in E as [E1 E2].
    rewrite parse_plain, app_empty_l by done. cbn [CsvRead.parse].
    by rewrite Ascii.eqb_refl.
Qed.

Lemma parse_escaped_line s record rest :
  CsvRead.parse CsvRead.Plain EmptyString record
    (Csv.escapeCsv s +:+ String "010"%char rest)
  = (record ++ [s]) :: CsvRead.parse CsvRead.Plain EmptyString [] rest.
Proof.
  unfold Csv.escapeCsv.
  destruct (Str.includes Csv.comma s || Str.includes Csv.dquote s
            || Str.includes "010"%char s) eqn:E.
  - rewrite app_cons, app_assoc, app_cons. cbn [CsvRead.parse].
    change (Ascii.eqb Csv.dquote Csv.comma) with false.
    change (Ascii.eqb Csv.dquote "010"%char) with false.
    rewrite Ascii.eqb_refl, parse_quoted, !app_empty_l. cbn [CsvRead.parse].
    change (Ascii.eqb "010"%char Csv.comma) with false.
    by rewrite Ascii.eqb_refl.
  - apply orb_false_iff in E as [E E3]. apply orb_false_iff in E as [E1 E2].
    rewrite parse_plain, app_empty_l by done. cbn [CsvRead.parse].
    change (Ascii.eqb "010"%char Csv.comma) with false.
    by rewrite Ascii.eqb_refl.
Qed.

(** The content of a batch is its lines, each closed by a line feed. *)
Lemma csvContent_cons r rows :
  rows ≠ [] →
  Csv.csvContent (r :: rows) = Csv.csvLine r +:+ Csv.LF +:+ Csv.csvContent rows.
Proof.
  intros Hne. unfold Csv.csvContent. destruct rows as [|r' rows]; [done|].
  rewrite !fmap_cons. cbn [Str.join]. by rewrite !app_assoc.
Qed.

Lemma csvContent_one r : Csv.csvContent [r] = Csv.csvLine r +:+ Csv.LF.
Proof. reflexivity. Qed.

Lemma records_line r rest :
  CsvRead.records (Csv.csvLine r +:+ Csv.LF +:+ rest)
  = [Csv.email r; Csv.timestamp r] :: CsvRead.records rest.
Proof.
  unfold CsvRead.records, Csv.csvLine, Csv.LF.
  rewrite app_assoc, app_cons, parse_escaped_comma.
  change (String "010"%char EmptyString +:+ rest) with (String "010"%char rest).
  by rewrite parse_escaped_line.
Qed.

End CsvFacts.

(** ** The output file after a session *)

Module OutputSpec.
Import Session SessionFacts TraceFacts StrFacts.

Lemma records_content rows rest :
  rows ≠ [] →
  CsvRead.records (Csv.csvContent rows +:+ rest)
  = (Fs.fields <$> rows) ++ CsvRead.records rest.
Proof.
  induction rows as [|r rows IH]; [done|]. intros _.
  destruct rows as [|r' rows].
  - by rewrite CsvFacts.csvContent_one, app_assoc, CsvFacts.records_line.
  - rewrite CsvFacts.csvContent_cons, !app_assoc by done.
    rewrite CsvFacts.records_line, IH by done. done.
Qed.

(** X1.  A non-empty batch written by [appendToCSV] is read back, record
    by record, as the email and the timestamp of each row in order,
    whatever characters the values hold: commas, double quotes and line
    feeds inside a value come back unchanged. *)
Theorem batch_reads_back rows :
  rows ≠ [] →
  CsvRead.records (Csv.csvContent rows) = Fs.fields <$> rows.
Proof.
  intros Hne. rewrite <- (app_nil_r (Csv.csvContent rows)).
  rewrite records_content by done. apply right_id_L, _.
Qed.

Lemma batch_reads_back_witness :
  let rows := [ {| Csv.email := "a,b@c.de"; Csv.query := "q";
                   Csv.timestamp := "t" |};
                {| Csv.email := "x@y.zz"; Csv.query := "q";
                   Csv.timestamp := String Csv.dquote "t" |} ] in
  rows ≠ []
  ∧ CsvRead.records (Csv.csvContent rows)
    = [["a,b@c.de"; "t"]; ["x@y.zz"; String Csv.dquote "t"]].
Proof.
  intros rows.
  assert (H : rows ≠ []) by done.
  split; [exact H|]. exact (batch_reads_back rows H).
Defined.

Lemma records_header rest :
  CsvRead.records (Startup.headerFile +:+ rest)
  = ["email"; "query"; "timestamp"] :: CsvRead.records rest.
Proof. reflexivity. Qed.

Lemma after_app tr1 tr2 fs :
  Fs.after (tr1 ++ tr2) fs = Fs.after tr2 (Fs.after tr1 fs).
Proof. apply foldl_app. Qed.

Lemma after_output cfg tr fs old :
  (∀ p c w, FsAppend p c w ∈ tr → p = OUTPUT_FILE cfg) →
  fs !! OUTPUT_FILE cfg = Some old →
  Fs.after tr fs !! OUTPUT_FILE cfg = Some (old +:+ Fs.appendedText tr)
  ∧ ∀ p, p ≠ OUTPUT_FILE cfg → Fs.after tr fs !! p = fs !! p.
Proof.
  revert fs old. induction tr as [|ev tr IH]; intros fs old Hp Hold.
  { cbn. by rewrite app_nil_r. }
  assert (Hp' : ∀ p c w, FsAppend p c w ∈ tr → p = OUTPUT_FILE cfg).
  { intros p c w H. apply (Hp p c w). by right. }
  destruct ev as [| | | | | | | |path content [|]| | | | | |];
    try (by apply IH).
  assert (path = OUTPUT_FILE cfg) as ->.
  { apply (Hp _ content true). by left. }
  change (Fs.after (FsAppend (OUTPUT_FILE cfg) content true :: tr) fs)
    with (Fs.after tr (Fs.appendFile (OUTPUT_FILE cfg) content fs)).
  cbn [Fs.appendedText]. unfold Fs.appendFile. rewrite Hold.
  change (default EmptyString (Some old)) with old.
  destruct (IH (<[OUTPUT_FILE cfg := old +:+ content]> fs) (old +:+ content))
    as [H1 H2]; [done|apply lookup_insert_eq|].
  split; [by rewrite H1, app_assoc|].
  intros p Hne. rewrite H2 by done. by rewrite lookup_insert_ne.
Qed.

Lemma keeps_nil : Fs.keeps [].
Proof. by intros tr' H. Qed.

Lemma keeps_app tr1 tr2 : Fs.keeps tr1 → Fs.keeps tr2 → Fs.keeps (tr1 ++ tr2).
Proof. intros H1 H2 tr' H. rewrite <- (assoc_L (++)). by apply H1, H2. Qed.

Lemma keeps_other ev :
  match ev with
  | AppendToCSV _ | FsAppend _ _ true => False
  | _ => True
  end → Fs.keeps [ev].
Proof.
  intros Hev tr' H rest. specialize (H rest).
  destruct ev as [| | | | | | | |path content [|]| | | | | |]; done.
Qed.

Lemma keeps_batch rows path w :
  rows ≠ [] →
  Fs.keeps [AppendToCSV rows; FsAppend path (Csv.csvContent rows) w].
Proof.
  intros Hne tr' H rest. specialize (H rest). destruct w; [|done].
  cbn [app Fs.appendedText Fs.writtenRows].
  rewrite app_assoc, records_content, H by done.
  by rewrite fmap_app, <- (assoc_L (++)).
Qed.

Lemma keeps_collect es : Fs.keeps (Collect <$> es).
Proof.
  induction es as [|e es IH]; [apply keeps_nil|].
  rewrite fmap_cons. by apply (keeps_app [_]); [apply keeps_other|].
Qed.

Lemma keeps_handoff cfg q env new : Fs.keeps (handoff cfg q env new).
Proof.
  destruct (decide (new = [])) as [->|Hne]; [apply keeps_nil|].
  rewrite handoff_events by done. cbn zeta.
  apply (keeps_app [_; _]).
  { apply keeps_batch. intros E. apply (f_equal length) in E.
    rewrite rowsFor_length in E. by destruct new. }
  apply (keeps_app [_]); [by apply keeps_other|].
  destruct (supabase cfg); [by apply keeps_other|apply keeps_nil].
Qed.

Lemma keeps_iteration cfg q env st : Fs.keeps (iteration cfg q env st).1.1.
Proof.
  destruct (blocks env st) eqn:B.
  { rewrite iteration_blocked by done. by apply keeps_other. }
  destruct (throws env) eqn:T.
  { rewrite iteration_thrown by done.
    by apply (keeps_app [_] [_]); apply keeps_other. }
  rewrite iteration_extracts by done. cbn [fst].
  repeat apply keeps_app.
  - by apply keeps_other.
  - destruct (resolved env); [by apply keeps_other|apply keeps_nil].
  - by apply keeps_other.
  - apply keeps_collect.
  - apply keeps_handoff.
  - by apply keeps_other.
  - destruct (goToNextPage _); [by apply keeps_other|apply keeps_nil].
Qed.

Lemma keeps_loop cfg q script st : Fs.keeps (loop cfg q script st).1.1.
Proof.
  revert st. induction script as [|env rest IH]; intros st; [apply keeps_nil|].
  cbn [loop]. pose proof (keeps_iteration cfg q env st) as K.
  destruct (iteration cfg q env st) as [[tr st'] [[]|why]]; [|done].
  specialize (IH st'). destruct (loop cfg q rest st') as [[tr' st''] r'].
  by apply keeps_app.
Qed.

Lemma keeps_runQuery cfg q env : Fs.keeps (runQuery cfg q env).1.
Proof.
  unfold runQuery.
  destruct (newContext env); [|apply keeps_nil].
  destruct (newPage env); [|by apply keeps_other].
  pose proof (keeps_loop cfg q (pages env) initial) as K.
  destruct (loop cfg q (pages env) initial) as [[tr st] [why|]]; cbn [fst] in *.
  - apply (keeps_app [_; _; _]).
    { by apply (keeps_app [_] [_; _]); [|apply (keeps_app [_] [_])];
        apply keeps_other. }
    apply keeps_app; [done|]. apply keeps_app; [|by apply keeps_other].
    case_bool_decide; [by apply keeps_other|apply keeps_nil].
  - apply (keeps_app [_; _; _]); [|done].
    by apply (keeps_app [_] [_; _]); [|apply (keeps_app [_] [_])];
      apply keeps_other.
Qed.

(** A session appends to the output file only. *)
Lemma runQuery_appends cfg q env p c w :
  FsAppend p c w ∈ (runQuery cfg q env).1 → p = OUTPUT_FILE cfg.
Proof.
  intros H.
  destruct (PersistSpec.handover_origin cfg q env (FsAppend p c w))
    as (page & new & _ & _ & _ & Hev & _); [done|done|].
  cbn zeta in Hev. rewrite !elem_of_cons in Hev.
  destruct Hev as [E|[E|[E|E]]]; try done.
  - by injection E as -> _ _.
  - destruct (supabase cfg);
      [apply list_elem_of_singleton in E|apply elem_of_nil in E]; done.
Qed.

(** X2.  A session changes no file but the output file, and the output
    file only by appending to it.  When the file held the header line alone
    before the session, reading it back afterwards gives the header with
    its three names and then, for every row of a batch whose append
    succeeded, in order, a record of two fields: the email and the
    timestamp of the row. *)
Theorem session_output_reads_back cfg q env (fs : gmap string string) old :
  fs !! OUTPUT_FILE cfg = Some old →
  let tr := (runQuery cfg q env).1 in
  Fs.after tr fs !! OUTPUT_FILE cfg = Some (old +:+ Fs.appendedText tr)
  ∧ (∀ p, p ≠ OUTPUT_FILE cfg → Fs.after tr fs !! p = fs !! p)
  ∧ (old = Startup.headerFile →
     CsvRead.records (old +:+ Fs.appendedText tr)
     = ["email"; "query"; "timestamp"] :: (Fs.fields <$> Fs.writtenRows tr)).
Proof.
  intros Hold tr.
  destruct (after_output cfg tr fs old) as [H1 H2];
    [apply runQuery_appends|done|].
  split; [done|]. split; [done|]. intros ->.
  pose proof (keeps_runQuery cfg q env [] ltac:(by intros rest)) as K.
  rewrite (right_id_L [] (++)) in K. specialize (K EmptyString).
  rewrite app_nil_r in K. fold tr in K.
  rewrite records_header, K. f_equal. apply (right_id_L [] (++)).
Qed.

Lemma session_output_reads_back_witness :
  let fs : gmap string string :=
    {[ OUTPUT_FILE Samples.cfg := Startup.headerFile ]} in
  let tr := (runQuery Samples.cfg "plumbers" (Samples.sessionEnvs 0)).1 in
  fs !! OUTPUT_FILE Samples.cfg = Some Startup.headerFile
  ∧ CsvRead.records (Startup.headerFile +:+ Fs.appendedText tr)
    = ["email"; "query"; "timestamp"] :: (Fs.fields <$> Fs.writtenRows tr).
Proof.
  intros fs tr.
  assert (H : fs !! OUTPUT_FILE Samples.cfg = Some Startup.headerFile).
  { apply lookup_singleton_eq. }
  split; [exact H|].
  destruct (session_output_reads_back Samples.cfg "plumbers"
              (Samples.sessionEnvs 0) fs Startup.headerFile H) as (_ & _ & R).
  by apply R.
Defined.

End OutputSpec.

(** ** Start-up run twice *)

Module RestartSpec.
Import Startup Session.

Lemma header_first_line appended :
  trim (firstLine (headerFile +:+ appended)) = Csv.HEADER.
Proof. reflexivity. Qed.

(** X3.  After the header block the output file exists and its first
    line, trimmed, is the header, and running the block again at any later
    time changes nothing.  When the block left the header line alone in the
    file, running it again after a session has appended its records still
    changes nothing: no backup is made and the records are kept. *)
Theorem restart_keeps_output cfg now now' (fs : gmap string string) q env :
  let fs1 := ensureHeader cfg now fs in
  (∃ content, fs1 !! OUTPUT_FILE cfg = Some content
              ∧ trim (firstLine content) = Csv.HEADER)
  ∧ ensureHeader cfg now' fs1 = fs1
  ∧ (fs1 !! OUTPUT_FILE cfg = Some headerFile →
     let fs2 := Fs.after (runQuery cfg q env).1 fs1 in
     ensureHeader cfg now' fs2 = fs2).
Proof.
  intros fs1.
  assert (Hpost : ∃ content, fs1 !! OUTPUT_FILE cfg = Some content
                             ∧ trim (firstLine content) = Csv.HEADER).
  { unfold fs1, ensureHeader.
    destruct (fs !! OUTPUT_FILE cfg) as [old|] eqn:E.
    - case_bool_decide as H.
      + exists headerFile. by rewrite lookup_insert_eq.
      + exists old. split; [done|]. by destruct (decide (trim (firstLine old) = Csv.HEADER)).
    - exists headerFile. by rewrite lookup_insert_eq. }
  assert (Hkeep : ∀ (fs' : gmap string string) content,
            fs' !! OUTPUT_FILE cfg = Some content →
            trim (firstLine content) = Csv.HEADER →
            ensureHeader cfg now' fs' = fs').
  { intros fs' content E H. unfold ensureHeader. rewrite E.
    by rewrite bool_decide_eq_false_2 by (by intros ?). }
  split; [done|]. split.
  { destruct Hpost as (content & E & H). by apply (Hkeep _ content). }
  intros E fs2.
  destruct (OutputSpec.after_output cfg (runQuery cfg q env).1 fs1 headerFile)
    as [H _]; [apply OutputSpec.runQuery_appends|done|].
  apply (Hkeep _ _ H), header_first_line.
Qed.

Lemma restart_keeps_output_witness :
  let fs1 := ensureHeader Samples.cfg 1700000000000 ∅ in
  let fs2 := Fs.after (runQuery Samples.cfg "plumbers" (Samples.sessionEnvs 0)).1
               fs1 in
  fs1 !! OUTPUT_FILE Samples.cfg = Some headerFile
  ∧ ensureHeader Samples.cfg 1700000000001 fs2 = fs2.
Proof.
  intros fs1 fs2.
  assert (H : fs1 !! OUTPUT_FILE Samples.cfg = Some headerFile).
  { apply lookup_insert_eq. }
  split; [exact H|].
  destruct (restart_keeps_output Samples.cfg 1700000000000 1700000000001 ∅
              "plumbers" (Samples.sessionEnvs 0)) as (_ & _ & R).
  exact (R H).
Defined.

End RestartSpec.

(** ** The solver, whatever the service answers *)

Module SolverBounds.
Import Solver.

Lemma posted_app tr1 tr2 :
  Calls.posted (tr1 ++ tr2) = Calls.posted tr1 ++ Calls.posted tr2.
Proof. apply omap_app. Qed.

Lemma posted_post b tr : Calls.posted (Post b :: tr) = b :: Calls.posted tr.
Proof. reflexivity. Qed.

Lemma polls_app tr1 tr2 : Calls.polls (tr1 ++ tr2) = Calls.polls tr1 + Calls.polls tr2.
Proof.
  induction tr1 as [|c tr1 IH]; [done|].
  destruct c; cbn [app Calls.polls]; lia.
Qed.

Lemma slept_app tr1 tr2 :
  Calls.slept (tr1 ++ tr2) = (Calls.slept tr1 + Calls.slept tr2)%N.
Proof.
  induction tr1 as [|c tr1 IH]; [done|].
  destruct c; cbn [app Calls.slept]; lia.
Qed.

(** One run of the polling loop: no POST, at most one poll per turn, at
    most two and a half seconds of sleep per turn, and only a truthy
    value is returned. *)
Lemma pollLoop_bounds svc t ticket n i :
  let '(tr, res) := pollLoop svc t ticket i n in
  Calls.posted tr = [] ∧ Calls.polls tr ≤ n ∧ (Calls.slept tr ≤ 2500 * N.of_nat n)%N
  ∧ ∀ v, res = Some v → truthy v = true.
Proof.
  revert i. induction n as [|n IH]; intros i; [done|].
  cbn [pollLoop]. specialize (IH (S i)).
  destruct (pollLoop svc t ticket (S i) n) as [tr res].
  destruct IH as (P & Q & Z & T).
  assert (Again : ∀ extra,
            extra = [] ∨ extra = [Sleep 1000] →
            Calls.posted (Sleep 1500 :: Poll ticket :: extra ++ tr) = []
            ∧ Calls.polls (Sleep 1500 :: Poll ticket :: extra ++ tr) ≤ S n
            ∧ (Calls.slept (Sleep 1500 :: Poll ticket :: extra ++ tr)
               ≤ 2500 * N.of_nat (S n))%N
            ∧ ∀ v, res = Some v → truthy v = true).
  { intros extra [-> | ->]; cbn [app Calls.posted Calls.polls Calls.slept omap];
      rewrite ?P; repeat split; try done; lia. }
  destruct (poll svc t i) as [r|]; [|by apply Again; left].
  destruct (ok r); cbn [negb].
  - destruct (truthy (token (json r))) eqn:E1.
    { repeat split; cbn; try lia. by intros v [= <-]. }
    destruct (truthy (solution (json r))) eqn:E2.
    { repeat split; cbn; try lia. by intros v [= <-]. }
    destruct (truthy (data (json r)) && isString (data (json r))) eqn:E3.
    { apply andb_true_iff in E3 as [E3 _].
      repeat split; cbn; try lia. by intros v [= <-]. }
    by apply Again; left.
  - apply Again. destruct (status r =? 429); auto.
Qed.

Lemma attempt_bounds cfg svc a t :
  let '(tr, res) := attempt cfg svc a t in
  Calls.posted tr = [bodyFor cfg a t] ∧ Calls.polls tr ≤ 20
  ∧ (Calls.slept tr ≤ 50000)%N ∧ ∀ v, res = Some v → truthy v = true.
Proof.
  unfold attempt. destruct (post svc t) as [r|]; [|cbn; repeat split; try done; lia].
  destruct (ok r); cbn [negb].
  - destruct (truthy (token (json r))) eqn:E1.
    { cbn. repeat split; try lia. by intros v [= <-]. }
    destruct (truthy (or _ _)); [|cbn; repeat split; try done; lia].
    pose proof (pollLoop_bounds svc t
                  (or (or (id (json r)) (data (json r))) (task (json r))) 20 0) as B.
    destruct (pollLoop _ _ _ _ _) as [tr res]. destruct B as (P & Q & Z & T).
    rewrite posted_post, P. cbn [Calls.polls Calls.slept].
    repeat split; try done; lia.
  - destruct (_ && _); [cbn; repeat split; try done; lia|].
    destruct (status r =? 429); cbn; repeat split; try done; lia.
Qed.

Lemma tryTypes_bounds cfg svc a ts :
  let '(tr, res) := tryTypes cfg svc a ts in
  (∃ n, Calls.posted tr = bodyFor cfg a <$> take n ts
        ∧ (res = None → n = length ts))
  ∧ Calls.polls tr ≤ 20 * length (Calls.posted tr)
  ∧ (Calls.slept tr ≤ 50000 * N.of_nat (length (Calls.posted tr)))%N
  ∧ ∀ v, res = Some v → truthy v = true.
Proof.
  induction ts as [|t ts IH].
  { cbn. split; [by exists 0|]. repeat split; try done; lia. }
  cbn [tryTypes]. pose proof (attempt_bounds cfg svc a t) as B.
  destruct (attempt cfg svc a t) as [tr [tok|]]; destruct B as (P & Q & Z & T).
  - split; [by exists 1|]. rewrite P. cbn [length]. repeat split; try done; lia.
  - destruct (tryTypes cfg svc a ts) as [tr' res].
    destruct IH as ((n & P' & N) & Q' & Z' & T').
    rewrite posted_app, polls_app, slept_app, P, length_app. cbn [length].
    split; [|repeat split; try done; lia].
    exists (S n). cbn [take fmap list_fmap app]. rewrite P'.
    split; [done|]. intros E. by rewrite N.
Qed.

Lemma candidateTypes_length hint : length (candidateTypes hint) ≤ 4.
Proof.
  rewrite SolverSpec.candidateTypes_order, length_app.
  pose proof (length_filter (λ t, t ∉ hinted hint) FALLBACK) as F.
  cbn [FALLBACK length] in F.
  assert (length (hinted hint) ≤ 1) by (by destruct hint as [[|c h]|]; cbn; lia).
  lia.
Qed.

Lemma types_bodies cfg a (ts : list string) : type <$> (bodyFor cfg a <$> ts) = ts.
Proof. induction ts as [|t ts IH]; [done|]. cbn. by rewrite IH. Qed.

(** X4.  Whatever the service answers, one call of the solver sends at
    most four POST requests, polls at most twenty times per request sent
    (eighty times at most) and sleeps at most fifty seconds per request
    sent (two hundred seconds at most): it always comes back. *)
Theorem solver_effort_is_bounded cfg svc a :
  let tr := (solveRecaptchaToken cfg svc a).1 in
  length (Calls.posted tr) ≤ 4
  ∧ Calls.polls tr ≤ 20 * length (Calls.posted tr) ≤ 80
  ∧ (Calls.slept tr ≤ 50000 * N.of_nat (length (Calls.posted tr)) ≤ 200000)%N.
Proof.
  intros tr. subst tr. unfold solveRecaptchaToken.
  destruct (NOPECHA_API_KEY cfg) as [|c k] eqn:K; [cbn; lia|].
  pose proof (tryTypes_bounds cfg svc a (candidateTypes (typeHint a))) as B.
  pose proof (candidateTypes_length (typeHint a)) as L.
  destruct (tryTypes _ _ _ _) as [tr res]. cbn [fst].
  destruct B as ((n & P & _) & Q & Z & _).
  assert (length (Calls.posted tr) ≤ 4).
  { rewrite P, length_fmap, length_take. lia. }
  lia.
Qed.

(** X5.  Whatever the service answers: the POST requests of one call of
    the solver are those of an initial part of the candidate types, one
    per type and in their order, each with the configured key, the site
    key and the page address, and the action [check] for the type
    [recaptcha3] alone; when no token comes back every candidate type was
    posted; a token that comes back is a truthy value; and without an API
    key no call is made and the answer is no token. *)
Theorem solver_requests_and_token cfg svc a :
  let '(tr, res) := solveRecaptchaToken cfg svc a in
  (∃ n, Calls.posted tr = bodyFor cfg a <$> take n (candidateTypes (typeHint a))
        ∧ (NOPECHA_API_KEY cfg ≠ EmptyString → res = None →
           n = length (candidateTypes (typeHint a))))
  ∧ NoDup (type <$> Calls.posted tr)
  ∧ Forall (λ b, key b = NOPECHA_API_KEY cfg ∧ sitekey b = siteKey a
                 ∧ url b = pageUrl a
                 ∧ (action b = Some "check" ↔ type b = "recaptcha3")
                 ∧ (action b = None ↔ type b ≠ "recaptcha3")) (Calls.posted tr)
  ∧ (∀ v, res = Some v → truthy v = true)
  ∧ (NOPECHA_API_KEY cfg = EmptyString → tr = [] ∧ res = None).
Proof.
  unfold solveRecaptchaToken.
  destruct (NOPECHA_API_KEY cfg) as [|c k] eqn:K.
  { split; [by exists 0|]. split; [constructor|]. by repeat split. }
  pose proof (tryTypes_bounds cfg svc a (candidateTypes (typeHint a))) as B.
  destruct (tryTypes _ _ _ _) as [tr res].
  destruct B as ((n & P & N) & _ & _ & T).
  split; [exists n; by split; [|intros _]|]. rewrite P. split.
  { rewrite types_bodies.
    eapply sublist_NoDup; [|apply sublist_take].
    apply SolverSpec.candidateTypes_nodup. }
  split; [|by split].
  apply Forall_fmap, Forall_forall. intros t _. cbn.
  rewrite K. repeat split; try done; case_bool_decide; try done; congruence.
Qed.

End SolverBounds.

(** ** The batching loop, whatever the sessions do *)

Module SchedulerSafety.
Import Scheduler.

Lemma batchLoop_safe fuel C queries run idx :
  let '(tr, r) := batchLoop fuel C queries run idx in
  Forall (λ b, length b ≤ C) (launched tr)
  ∧ (∃ rest, drop idx queries = concat (launched tr) ++ rest
             ∧ (r = Completed → rest = []))
  ∧ (r = Waiting →
     ∃ i q, idx ≤ i < idx + length (concat (launched tr))
            ∧ queries !! i = Some q ∧ run i q = Never)
  ∧ (1 ≤ C → length queries - idx ≤ fuel → r ≠ OutOfFuel).
Proof.
  revert idx. induction fuel as [|fuel IH]; intros idx.
  { cbn [batchLoop]. destruct (idx <? length queries) eqn:E.
    - apply Nat.ltb_lt in E. cbn. split; [done|]. split; [by eexists|].
      split; [done|]. lia.
    - apply Nat.ltb_ge in E. cbn. split; [done|].
      split; [exists []; by rewrite drop_ge|]. done. }
  rewrite SchedulerSpec.batchLoop_unfold.
  destruct (idx <? length queries) eqn:E.
  2:{ apply Nat.ltb_ge in E. cbn. split; [done|].
      split; [exists []; by rewrite drop_ge|]. done. }
  apply Nat.ltb_lt in E. cbn zeta.
  pose proof (SchedulerSpec.slice_length queries idx C) as Hlen.
  assert (Hcut : drop idx queries
                 = slice queries idx C ++ drop (idx + C) queries).
  { unfold slice. rewrite <- (take_drop C (drop idx queries)) at 1.
    by rewrite drop_drop. }
  destruct (allSettled _) as [rs|] eqn:A.
  - specialize (IH (idx + C)).
    destruct (batchLoop fuel C queries run (idx + C)) as [tr r].
    destruct IH as (F & (rest & D & R) & W & O). cbn [launched concat].
    split; [constructor; [lia|done]|].
    split; [exists rest; by rewrite Hcut, D, (assoc_L (++))|].
    split; [|intros; apply O; lia].
    intros Hw. destruct (W Hw) as (i & q & Hi & Hq & Hn).
    exists i, q. split; [|done].
    apply lookup_lt_Some in Hq. rewrite length_app. lia.
  - cbn [launched concat]. rewrite (right_id_L [] (++)).
    split; [repeat constructor; lia|].
    split; [by eexists|]. split; [|done]. intros _.
    destruct (SchedulerSpec.allSettled_pending _ A) as [j Hj].
    apply list_lookup_imap_Some in Hj as (q & Hq & Hn).
    exists (idx + j), q. pose proof (lookup_lt_Some _ _ _ Hq).
    split; [lia|]. split; [|done].
    unfold slice in Hq. apply lookup_take_Some in Hq as [Hq _].
    by rewrite lookup_drop in Hq.
Qed.

(** X6.  Whatever the ceiling as configured (a whole number, a huge value
    or not a number), whatever the sessions do and however many turns are
    observed: under a whole-number ceiling no batch holds more queries than
    the ceiling, and under a ceiling that is not a number every batch is
    empty; the queries started so far are an initial part of the list, in
    order, none twice; every launch is followed by the join that carries
    the outcome of each session of the batch before the next launch; when
    the loop is over every query was started, unless the ceiling is not a
    number; the loop waits only while a session it started never ends; and
    the loop needs no more turns than there are queries. *)
Theorem batches_within_ceiling_in_order fuel C queries run :
  let '(tr, r) := batches fuel C queries run in
  match C with
  | Whole n => Forall (λ b, length b ≤ Pos.to_nat n) (launched tr)
  | Huge => True
  | NotANumber => Forall (λ b, b = []) (launched tr)
  end
  ∧ concat (launched tr) `prefix_of` queries
  ∧ barrier run tr r
  ∧ (r = Completed → C ≠ NotANumber → concat (launched tr) = queries)
  ∧ (r = Waiting →
     ∃ i q, i < length (concat (launched tr))
            ∧ queries !! i = Some q ∧ run i q = Never)
  ∧ (length queries ≤ fuel → r ≠ OutOfFuel).
Proof.
  assert (Hloop : ∀ c, (1 ≤ c ∨ queries = []) →
            let '(tr, r) := batchLoop fuel c queries run 0 in
            Forall (λ b, length b ≤ c) (launched tr)
            ∧ concat (launched tr) `prefix_of` queries
            ∧ barrier run tr r
            ∧ (r = Completed → concat (launched tr) = queries)
            ∧ (r = Waiting →
               ∃ i q, i < length (concat (launched tr))
                      ∧ queries !! i = Some q ∧ run i q = Never)
            ∧ (length queries ≤ fuel → r ≠ OutOfFuel)).
  { intros c Hc.
    pose proof (batchLoop_safe fuel c queries run 0) as H.
    pose proof (SchedulerSpec.batchLoop_barrier fuel c queries run 0) as B.
    assert (Hdone : queries = [] →
              batchLoop fuel c queries run 0 = ([], Completed)).
    { intros ->. by apply SchedulerSpec.batchLoop_done. }
    destruct (batchLoop fuel c queries run 0) as [tr r]. cbn [fst snd] in B.
    destruct H as (F & (rest & D & R) & W & O). rewrite drop_0 in D.
    split; [done|]. split; [by exists rest|]. split; [done|].
    split; [intros ->%R; by rewrite (right_id_L [] (++)) in D|].
    split.
    - intros Hw. destruct (W Hw) as (i & q & Hi & Hq & Hn).
      exists i, q. split; [lia|done].
    - intros Hfuel. destruct Hc as [Hc|Hc]; [apply O; lia|].
      specialize (Hdone Hc). by injection Hdone as _ ->. }
  destruct C as [|n|]; SchedulerSpec.by_ceiling.
  - destruct queries as [|q0 qs]; cbn [length Nat.ltb Nat.leb].
    { split; [constructor|]. split; [by exists []|]. by repeat split. }
    destruct fuel as [|fuel].
    { split; [constructor|]. split; [by eexists|]. split; [done|].
      split; [done|]. split; [done|]. cbn. lia. }
    split; [by repeat constructor|]. split; [by eexists|].
    split; [by cbn|]. by repeat split.
  - pose proof (Hloop (Pos.to_nat n) ltac:(left; lia)) as H.
    destruct (batchLoop fuel (Pos.to_nat n) queries run 0) as [tr r].
    destruct H as (F & P & B & Cp & W & O).
    split; [done|]. split; [done|]. split; [done|].
    split; [intros ? _; by apply Cp|]. by split.
  - assert (1 ≤ length queries ∨ queries = []) as Hq.
    { destruct queries; [by right|left; cbn; lia]. }
    pose proof (Hloop (length queries) Hq) as H.
    destruct (batchLoop fuel (length queries) queries run 0) as [tr r].
    destruct H as (F & P & B & Cp & W & O).
    split; [done|]. split; [done|]. split; [done|].
    split; [intros ? _; by apply Cp|]. by split.
Qed.

End SchedulerSafety.

(** ** The ceiling read from the environment *)

Module EnvSpec.
Import Env.

Lemma digit_char d :
  (d < 10)%N →
  Str.isDigit (pretty_N_char d) = true
  ∧ digitValue (pretty_N_char d) = d
  ∧ Startup.isSpace (pretty_N_char d) = false
  ∧ Ascii.eqb (pretty_N_char d) "-"%char = false
  ∧ Ascii.eqb (pretty_N_char d) "+"%char = false.
Proof.
  intros H.
  assert (d = 0 ∨ d = 1 ∨ d = 2 ∨ d = 3 ∨ d = 4 ∨ d = 5 ∨ d = 6 ∨ d = 7
          ∨ d = 8 ∨ d = 9)%N as E by lia.
  repeat (destruct E as [->|E]; [by vm_compute|]). subst d. by vm_compute.
Qed.

(** The digits written for [x] are read back as [x]. *)
Lemma digits_pretty_go x :
  ∀ s, ∃ k : N, ∀ acc,
    digits acc (pretty_N_go x s) = digits (acc * 10 ^ k + x)%N s.
Proof.
  induction (N.lt_wf_0 x) as [x _ IH]. intros s.
  destruct (decide (x = 0)%N) as [->|Hx].
  { exists 0%N. intros acc. rewrite pretty_N_go_0. f_equal. lia. }
  rewrite pretty_N_go_step by lia.
  destruct (IH (x `div` 10)%N ltac:(apply N.div_lt; lia)
              (String (pretty_N_char (x `mod` 10)) s)) as [k Hk].
  exists (N.succ k). intros acc. rewrite Hk. cbn [digits].
  destruct (digit_char (x `mod` 10)%N) as (-> & -> & _);
    [apply N.mod_lt; lia|].
  f_equal. rewrite N.pow_succ_r'. pose proof (N.div_mod x 10). lia.
Qed.

(** The text written for a positive number begins with a digit. *)
Lemma pretty_go_head x s :
  (0 < x)%N → ∃ d rest, (d < 10)%N ∧ pretty_N_go x s = String (pretty_N_char d) rest.
Proof.
  revert s. induction (N.lt_wf_0 x) as [x _ IH]. intros s Hx.
  rewrite pretty_N_go_step by done.
  destruct (decide (x `div` 10 = 0)%N) as [->|Hd].
  { rewrite pretty_N_go_0. eexists _, _. split; [|done]. apply N.mod_lt. lia. }
  apply IH; [apply N.div_lt; lia|]. by apply N.neq_0_lt_0.
Qed.

Lemma parseInt_digit d rest :
  (d < 10)%N →
  parseInt (String (pretty_N_char d) rest)
  = let v := digits 0 (String (pretty_N_char d) rest) in
    if (v <? exact)%N then Num (Z.of_N v) else Big false.
Proof.
  intros H. destruct (digit_char d H) as (D & _ & S & M & P).
  unfold parseInt. cbn [Startup.trimStart]. rewrite S, M, P.
  cbn [startsWithDigit]. by rewrite D.
Qed.

(** [parseInt(String(n))] is [n] for a whole number of at least one below
    [2^53]. *)
Lemma parseInt_pretty p :
  (N.pos p < exact)%N → parseInt (pretty (N.pos p)) = Num (Z.pos p).
Proof.
  intros Hp. unfold pretty, pretty_N. rewrite decide_False by done.
  destruct (pretty_go_head (N.pos p) EmptyString) as (d & rest & Hd & E);
    [lia|].
  destruct (digits_pretty_go (N.pos p) EmptyString) as [k Hk].
  rewrite E, parseInt_digit, <- E by done. cbn zeta. rewrite Hk.
  cbn [digits]. replace (0 * 10 ^ k + N.pos p)%N with (N.pos p) by lia.
  apply N.ltb_lt in Hp. by rewrite Hp.
Qed.

Lemma max1_nan x : max1 x = NotANumber ↔ x = NaN.
Proof. by destruct x as [|z|[]]. Qed.

(** The text of the default ceiling, when the model gives one, is that of
    a whole number below [2^53], which [parseInt] reads back. *)
Lemma default_text env text :
  toString (orThree (mul (BROWSERS env) (TABS_PER_BROWSER env))) = Some text →
  ∃ n, orThree (mul (BROWSERS env) (TABS_PER_BROWSER env)) = Whole n
       ∧ (N.pos n < exact)%N
       ∧ max1 (parseInt text) = Whole n.
Proof.
  destruct (orThree (mul (BROWSERS env) (TABS_PER_BROWSER env)))
    as [|n|] eqn:E; cbn [toString]; [|destruct (N.pos n <? exact)%N eqn:L|];
    try done.
  { exfalso. by destruct (mul (BROWSERS env) (TABS_PER_BROWSER env)). }
  intros [= <-]. apply N.ltb_lt in L. exists n. split; [done|]. split; [done|].
  rewrite parseInt_pretty by done. cbn [max1]. f_equal. lia.
Qed.

Lemma bind_some {A B} (a : A) (f : A → option B) : (x ← Some a; f x) = f a.
Proof. reflexivity. Qed.

Lemma bind_none {A B} (f : A → option B) : (x ← None; f x) = None.
Proof. reflexivity. Qed.

Lemma unset_ceiling env :
  env !! "CONCURRENCY" = None ∨ env !! "CONCURRENCY" = Some EmptyString →
  CONCURRENCY env
  = text ← toString (orThree (mul (BROWSERS env) (TABS_PER_BROWSER env)));
    Some (max1 (parseInt text)).
Proof. unfold CONCURRENCY. by intros [-> | ->]. Qed.

(** The ceiling is not a number only when the setting is a text that
    [parseInt] cannot read. *)
Lemma ceiling_nan env :
  CONCURRENCY env = Some NotANumber
  ↔ ∃ s, env !! "CONCURRENCY" = Some s ∧ s ≠ EmptyString ∧ parseInt s = NaN.
Proof.
  assert (Hunset : env !! "CONCURRENCY" = None
                   ∨ env !! "CONCURRENCY" = Some EmptyString →
                   CONCURRENCY env ≠ Some NotANumber).
  { intros Hu. rewrite (unset_ceiling env Hu).
    destruct (toString _) as [text|] eqn:T; [|done]. rewrite bind_some.
    destruct (default_text env text T) as (n & _ & _ & ->). done. }
  split.
  - intros H. destruct (env !! "CONCURRENCY") as [[|c s]|] eqn:E.
    + by destruct Hunset; auto.
    + exists (String c s). split; [done|]. split; [done|].
      unfold CONCURRENCY in H. rewrite E in H. injection H as H.
      by apply max1_nan.
    + by destruct Hunset; auto.
  - intros (s & E & Hs & Hn). unfold CONCURRENCY. rewrite E.
    destruct s as [|c s]; [done|]. by rewrite Hn.
Qed.

Lemma three_exact : (N.pos 3 <? exact)%N = true.
Proof. reflexivity. Qed.

Lemma mul_exact x y n : mul x y = Whole n → (N.pos n <? exact)%N = true.
Proof.
  destruct x as [|a|], y as [|b|]; cbn [mul]; try done.
  destruct (N.pos (a * b) <? exact)%N eqn:L; [|done]. by intros [= <-].
Qed.

Lemma toString_default c :
  toString (orThree c) = None
  ↔ c = Huge ∨ ∃ n, c = Whole n ∧ (N.pos n <? exact)%N = false.
Proof.
  destruct c as [|n|]; cbn [orThree toString].
  - rewrite three_exact. split; [done|]. by intros [|(? & ? & _)].
  - destruct (N.pos n <? exact)%N eqn:L.
    + split; [done|]. intros [|(m & [= <-] & L')]; [done|]. congruence.
    + split; [|done]. intros _. right. by exists n.
  - split; [by left|done].
Qed.

Section Default.
Variable env : gmap string string.
Hypothesis Hunset :
  env !! "CONCURRENCY" = None ∨ env !! "CONCURRENCY" = Some EmptyString.

Lemma default_product b t :
  BROWSERS env = Whole b → TABS_PER_BROWSER env = Whole t →
  (N.pos (b * t) < exact)%N →
  CONCURRENCY env = Some (Whole (b * t)).
Proof.
  rewrite (unset_ceiling env Hunset).
  intros -> -> L. cbn [mul]. apply N.ltb_lt in L. rewrite L.
  cbn [orThree toString]. rewrite L, bind_some.
  apply N.ltb_lt in L. rewrite parseInt_pretty by done. cbn [max1].
  do 2 f_equal. lia.
Qed.

Lemma default_three :
  BROWSERS env = NotANumber ∨ TABS_PER_BROWSER env = NotANumber →
  CONCURRENCY env = Some (Whole 3).
Proof.
  rewrite (unset_ceiling env Hunset).
  assert (mul (BROWSERS env) (TABS_PER_BROWSER env) = NotANumber →
          (text ← toString (orThree (mul (BROWSERS env) (TABS_PER_BROWSER env)));
           Some (max1 (parseInt text))) = Some (Whole 3)) as H.
  { intros ->. cbn [orThree toString]. rewrite three_exact.
    rewrite bind_some, parseInt_pretty; [done|]. by apply N.ltb_lt. }
  intros [E|E]; apply H; rewrite E; [done|].
  by destruct (BROWSERS env).
Qed.

Lemma default_unknown :
  CONCURRENCY env = None ↔ mul (BROWSERS env) (TABS_PER_BROWSER env) = Huge.
Proof.
  rewrite (unset_ceiling env Hunset).
  destruct (toString _) as [text|] eqn:T.
  - destruct (default_text env text T) as (n & E & L & _).
    rewrite bind_some.
    split; [done|]. intros M. rewrite M in E. done.
  - rewrite bind_none. split; [intros _|done].
    apply toString_default in T as [T|(n & M & L)]; [done|].
    apply mul_exact in M. congruence.
Qed.

Lemma default_whole c :
  CONCURRENCY env = Some c → ∃ n, c = Whole n ∧ (N.pos n < exact)%N.
Proof.
  rewrite (unset_ceiling env Hunset).
  destruct (toString _) as [text|] eqn:T; [|done]. rewrite bind_some.
  destruct (default_text env text T) as (n & _ & L & ->).
  intros [= <-]. by exists n.
Qed.

End Default.

(** X7.  Without a [CONCURRENCY] setting, or with an empty one: when both
    [BROWSERS] and [TABS_PER_BROWSER] are whole numbers with a product
    below [2^53], the ceiling is that product; when one of them is not a
    number, the ceiling is three.  The model gives no answer exactly when
    the product is huge ([2^53] or more); whenever it gives one, the
    ceiling is a whole number of at least one. *)
Theorem default_ceiling_is_the_product env :
  env !! "CONCURRENCY" = None ∨ env !! "CONCURRENCY" = Some EmptyString →
  (∀ b t, BROWSERS env = Whole b → TABS_PER_BROWSER env = Whole t →
          (N.pos (b * t) < exact)%N →
          CONCURRENCY env = Some (Whole (b * t)))
  ∧ (BROWSERS env = NotANumber ∨ TABS_PER_BROWSER env = NotANumber →
     CONCURRENCY env = Some (Whole 3))
  ∧ (CONCURRENCY env = None
     ↔ mul (BROWSERS env) (TABS_PER_BROWSER env) = Huge)
  ∧ (∀ c, CONCURRENCY env = Some c → ∃ n, c = Whole n ∧ (N.pos n < exact)%N).
Proof.
  intros Hunset. split; [|split; [|split]].
  - by apply default_product.
  - by apply default_three.
  - by apply default_unknown.
  - by apply default_whole.
Qed.

Lemma default_ceiling_is_the_product_witness :
  let env : gmap string string :=
    {[ "BROWSERS" := "2"; "TABS_PER_BROWSER" := " 3 tabs" ]} in
  (env !! "CONCURRENCY" = None ∨ env !! "CONCURRENCY" = Some EmptyString)
  ∧ CONCURRENCY env = Some (Whole 6).
Proof.
  intros env.
  assert (H : env !! "CONCURRENCY" = None
              ∨ env !! "CONCURRENCY" = Some EmptyString) by (by left).
  split; [exact H|].
  destruct (default_ceiling_is_the_product env H) as (P & _).
  by apply (P 2 3)%positive.
Defined.

(** X8.  Whenever the model gives the ceiling of an environment: it is not
    a number exactly when [CONCURRENCY] is set to a non-empty text that does
    not begin, after white space and an optional sign, with a digit.  With
    at least one query and sessions that all end, the loop then runs to
    completion with one empty batch and starts no session at all; under
    every other ceiling it runs to completion with every query started,
    in order. *)
Theorem unreadable_setting_is_not_a_number env c queries run :
  CONCURRENCY env = Some c →
  queries ≠ [] →
  (∀ i q, run i q ≠ Scheduler.Never) →
  let '(tr, r) := Scheduler.batches (length queries) c queries run in
  r = Scheduler.Completed
  ∧ (c = NotANumber
     ↔ ∃ s, env !! "CONCURRENCY" = Some s ∧ s ≠ EmptyString
            ∧ parseInt s = NaN)
  ∧ (c = NotANumber → Scheduler.launched tr = [[]])
  ∧ (c ≠ NotANumber → concat (Scheduler.launched tr) = queries).
Proof.
  intros Hc Hne Hrun.
  assert (Hnan : c = NotANumber
                 ↔ ∃ s, env !! "CONCURRENCY" = Some s ∧ s ≠ EmptyString
                        ∧ parseInt s = NaN).
  { rewrite <- ceiling_nan, Hc. split; [by intros ->|by intros [= ->]]. }
  assert (Hloop : ∀ n, 1 ≤ n →
            let '(tr, r) :=
              Scheduler.batchLoop (length queries) n queries run 0 in
            r = Scheduler.Completed
            ∧ concat (Scheduler.launched tr) = queries).
  { intros n Hn.
    pose proof (SchedulerSpec.batchLoop_partition (length queries) n
                  queries run 0 Hn Hrun ltac:(lia)) as P.
    destruct (Scheduler.batchLoop _ _ _ _ _) as [tr r].
    destruct P as (-> & Hcat & _). by rewrite drop_0 in Hcat. }
  destruct c as [|n|]; SchedulerSpec.by_ceiling.
  - destruct queries as [|q0 qs]; [done|]. cbn [length Nat.ltb Nat.leb].
    split; [done|]. split; [done|]. by split.
  - pose proof (Hloop (Pos.to_nat n) ltac:(lia)) as H.
    destruct (Scheduler.batchLoop _ _ _ _ _) as [tr r]. destruct H as [-> H].
    split; [done|]. split; [done|]. by split.
  - assert (1 ≤ length queries) as Hlen by (destruct queries; [done|cbn; lia]).
    pose proof (Hloop (length queries) Hlen) as H.
    destruct (Scheduler.batchLoop _ _ _ _ _) as [tr r]. destruct H as [-> H].
    split; [done|]. split; [done|]. by split.
Qed.

Lemma unreadable_setting_is_not_a_number_witness :
  let env : gmap string string := {[ "CONCURRENCY" := "auto" ]} in
  let run := λ (_ : nat) (_ : string), Scheduler.Settles (Fulfilled tt) in
  CONCURRENCY env = Some NotANumber
  ∧ Samples.sevenQueries ≠ []
  ∧ (∀ i q, run i q ≠ Scheduler.Never)
  ∧ Scheduler.launched
      (Scheduler.batches 7 NotANumber Samples.sevenQueries run).1 = [[]].
Proof.
  intros env run.
  assert (H0 : CONCURRENCY env = Some NotANumber) by reflexivity.
  assert (H1 : Samples.sevenQueries ≠ []) by done.
  assert (H2 : ∀ i q, run i q ≠ Scheduler.Never) by done.
  split; [exact H0|]. split; [exact H1|]. split; [exact H2|].
  pose proof (unreadable_setting_is_not_a_number env NotANumber
                Samples.sevenQueries run H0 H1 H2) as H.
  change (length Samples.sevenQueries) with 7 in H.
  destruct (Scheduler.batches 7 NotANumber Samples.sevenQueries run)
    as [tr r].
  destruct H as (_ & _ & H & _). exact (H eq_refl).
Defined.

End EnvSpec.

(** ** The extractor on any page text *)

Module ExtractorSound.
Import StrFacts.

Lemma strip_sound w s s' : Regex.strip w s = Some s' → s = w +:+ s'.
Proof.
  revert s. induction w as [|c w IH]; intros s.
  { by intros [= <-]. }
  destruct s as [|c' s]; [done|]. cbn [Regex.strip].
  destruct (Ascii.eqb c c') eqn:E; [|done].
  apply Ascii.eqb_eq in E as <-. intros H%IH. by rewrite app_cons, H.
Qed.

(** What a successful run of a quantifier has consumed. *)
Lemma rep_sound p k s :
  ∀ min r, Regex.rep p min s k = Some r →
  ∃ m s', s = m +:+ s' ∧ Str.forallb p m = true
          ∧ min ≤ String.length m ∧ k s' = Some r.
Proof.
  induction s as [|c s IH]; intros min r.
  { cbn [Regex.rep]. destruct min; [|done]. intros H.
    exists EmptyString, EmptyString. by repeat split. }
  assert (Stop : (if min is 0 then k (String c s) else None) = Some r →
                 ∃ m s', String c s = m +:+ s' ∧ Str.forallb p m = true
                         ∧ min ≤ String.length m ∧ k s' = Some r).
  { destruct min; [|done]. intros H.
    exists EmptyString, (String c s). by repeat split. }
  cbn [Regex.rep]. destruct (p c) eqn:Hc; [|done].
  destruct (Regex.rep p (pred min) s k) as [r'|] eqn:E; [|done].
  intros [= ->]. destruct (IH _ _ E) as (m & s' & -> & Hm & Hlen & Hk).
  exists (String c m), s'. rewrite app_cons. cbn [Str.forallb String.length].
  rewrite Hc, Hm. repeat split; try done. lia.
Qed.

(** A match of the address pattern is a well-formed address. *)
Lemma exec_sound s rest :
  Regex.exec EMAIL_REGEX s = Some rest →
  ∃ a, Page.wellFormed a = true ∧ s = Page.addressText a +:+ rest.
Proof.
  unfold Regex.exec, EMAIL_REGEX. cbn [Regex.run].
  intros (l & s1 & -> & Hl & Hl1 & H)%rep_sound.
  destruct (Regex.strip "@" s1) as [s2|] eqn:E1; [|done].
  apply strip_sound in E1 as ->.
  apply rep_sound in H as (d & s3 & -> & Hd & Hd1 & H).
  destruct (Regex.strip "." s3) as [s4|] eqn:E2; [|done].
  apply strip_sound in E2 as ->.
  apply rep_sound in H as (t & s5 & -> & Ht & Ht2 & [= ->]).
  exists {| Page.localPart := l; Page.domain := d; Page.tld := t |}. split.
  - unfold Page.wellFormed. cbn [Page.localPart Page.domain Page.tld].
    rewrite Hl, Hd, Ht. apply Nat.leb_le in Ht2. rewrite Ht2.
    destruct l; [cbn in Hl1; lia|]. destruct d; [cbn in Hd1; lia|]. done.
  - unfold Page.addressText. cbn [Page.localPart Page.domain Page.tld].
    rewrite app_assoc, !app_cons, app_assoc, !app_cons. reflexivity.
Qed.

Lemma matchAllFrom_sound fuel :
  ∀ s m, m ∈ Regex.matchAllFrom EMAIL_REGEX fuel s →
  ∃ a pre post, Page.wellFormed a = true
                ∧ s = pre +:+ Page.addressText a +:+ post
                ∧ m = Page.addressText a.
Proof.
  induction fuel as [|fuel IH]; intros s m; [by intros ?%elem_of_nil|].
  cbn [Regex.matchAllFrom].
  destruct (Regex.exec EMAIL_REGEX s) as [rest|] eqn:E.
  - destruct (exec_sound _ _ E) as (a & Ha & Hs).
    destruct (ExtractorFacts.addressText_cons a Ha) as (c & u & Hcu).
    remember (String.length s - String.length rest) as n eqn:Hn.
    assert (Hlen : n = S (String.length u)).
    { rewrite Hn, Hs, length_app, Hcu. cbn [String.length]. lia. }
    assert (Htake : Str.take n s = Page.addressText a).
    { rewrite Hlen, Hs.
      replace (S (String.length u)) with (String.length (Page.addressText a))
        by (by rewrite Hcu).
      apply take_app_length. }
    clear Hn. subst n. destruct s as [|c' s'].
    { rewrite Hcu, app_cons in Hs. done. }
    rewrite Htake. intros [->|Hin]%elem_of_cons.
    + exists a, EmptyString, rest. by rewrite Hs.
    + destruct (IH _ _ Hin) as (a' & pre & post & Ha' & Hrest & Hm).
      exists a', (Page.addressText a +:+ pre), post.
      split; [done|]. split; [|done]. by rewrite Hs, Hrest, app_assoc.
  - destruct s as [|c s']; [by intros ?%elem_of_nil|].
    intros Hin. destruct (IH _ _ Hin) as (a & pre & post & Ha & Hs & Hm).
    exists a, (String c pre), post. by rewrite app_cons, Hs.
Qed.

Lemma lowerChar_lower c : Str.isUpper (Str.lowerChar c) = false.
Proof.
  destruct c as [[] [] [] [] [] [] [] []]; by vm_compute.
Qed.

Lemma toLowerCase_lower s :
  Str.forallb (λ c, negb (Str.isUpper c)) (Str.toLowerCase s) = true.
Proof.
  induction s as [|c s IH]; [done|].
  cbn [Str.toLowerCase Str.forallb]. by rewrite lowerChar_lower, IH.
Qed.

(** The number of search positions granted to [matchAll] is enough: more
    of them find the same matches. *)
Lemma matchAllFrom_fuel fuel1 : ∀ fuel2 s,
  String.length s < fuel1 → String.length s < fuel2 →
  Regex.matchAllFrom EMAIL_REGEX fuel1 s = Regex.matchAllFrom EMAIL_REGEX fuel2 s.
Proof.
  induction fuel1 as [|fuel1 IH]; intros fuel2 s H1 H2; [lia|].
  destruct fuel2 as [|fuel2]; [lia|]. cbn [Regex.matchAllFrom].
  destruct (Regex.exec EMAIL_REGEX s) as [rest|] eqn:E.
  - destruct s as [|c s']; [done|]. f_equal.
    destruct (exec_sound _ _ E) as (a & Ha & Hs).
    destruct (ExtractorFacts.addressText_cons a Ha) as (c0 & u & Hcu).
    assert (String.length (String c s')
            = S (String.length u) + String.length rest) as Hlen.
    { rewrite Hs, length_app, Hcu. done. }
    rewrite Hlen.
    replace (S (String.length u) + String.length rest - String.length rest)
      with (S (String.length u)) by lia.
    apply IH; lia.
  - destruct s as [|c s']; [done|]. cbn [String.length] in *. apply IH; lia.
Qed.

Lemma identity_sound text e :
  e ∈ Extractor.extractEmailsFromPage (Fulfilled text) →
  (∃ a pre post,
     Page.wellFormed a = true
     ∧ text = pre +:+ Page.addressText a +:+ post
     ∧ e = Str.toLowerCase (Page.addressText a))
  ∧ Extractor.denyListed e = false.
Proof.
  unfold Extractor.extractEmailsFromPage.
  intros [Hdeny (m & -> & Hm)%list_elem_of_fmap]%list_elem_of_filter.
  split; [|done].
  destruct (matchAllFrom_sound _ _ _ Hm) as (a & pre & post & Ha & Ht & ->).
  by exists a, pre, post.
Qed.

(** X9.  On any page text: every identity that the extractor returns is
    the lower-case form of a well-formed address (a local part, [@], a
    domain, a dot and at least two letters, each part within its character
    class) that stands in the text; it holds no upper-case letter and no
    deny-listed fragment.  A text without [@] gives no identity. *)
Theorem extracted_identities_are_addresses text e :
  e ∈ Extractor.extractEmailsFromPage (Fulfilled text) →
  (∃ a pre post,
     Page.wellFormed a = true
     ∧ text = pre +:+ Page.addressText a +:+ post
     ∧ e = Str.toLowerCase (Page.addressText a))
  ∧ Str.forallb (λ c, negb (Str.isUpper c)) e = true
  ∧ Extractor.denyListed e = false
  ∧ Page.noAt text = false.
Proof.
  intros H. destruct (identity_sound text e H) as [Ha Hdeny].
  split; [done|]. split.
  { destruct Ha as (a & _ & _ & _ & _ & ->). apply toLowerCase_lower. }
  split; [done|].
  destruct (Page.noAt text) eqn:N; [|done].
  unfold Extractor.extractEmailsFromPage, Regex.matchAll in H.
  rewrite ExtractorFacts.scan_no_at in H by done. by apply elem_of_nil in H.
Qed.

Lemma extracted_identities_are_addresses_witness :
  let text := "Mail Bob.Smith@Corp.COM, or noreply@corp.com" in
  "bob.smith@corp.com" ∈ Extractor.extractEmailsFromPage (Fulfilled text)
  ∧ ∃ a pre post,
      Page.wellFormed a = true
      ∧ text = pre +:+ Page.addressText a +:+ post
      ∧ "bob.smith@corp.com" = Str.toLowerCase (Page.addressText a).
Proof.
  intros text.
  assert (H : "bob.smith@corp.com"
              ∈ Extractor.extractEmailsFromPage (Fulfilled text)).
  { apply (bool_decide_unpack _). by vm_compute. }
  split; [exact H|].
  exact (proj1 (extracted_identities_are_addresses text _ H)).
Defined.

End ExtractorSound.

(** ** The queries read from the input file *)

Module InputSpec.
Import Startup Input.

Lemma trimEnd_head c t :
  isSpace c = false → trimEnd (String c t) = String c (trimEnd t).
Proof. intros H. cbn [trimEnd]. destruct (trimEnd t); by rewrite ?H. Qed.

Lemma trimStart_head s :
  trimStart s = EmptyString
  ∨ ∃ c t, trimStart s = String c t ∧ isSpace c = false.
Proof.
  induction s as [|c s IH]; [by left|]. cbn [trimStart].
  destruct (isSpace c) eqn:E; [done|]. right. by exists c, s.
Qed.

Lemma trimEnd_idem s : trimEnd (trimEnd s) = trimEnd s.
Proof.
  induction s as [|c s IH]; [done|]. cbn [trimEnd].
  destruct (trimEnd s) as [|a t] eqn:E.
  - destruct (isSpace c) eqn:Sc; [done|]. cbn [trimEnd]. by rewrite Sc.
  - change (trimEnd (String c (String a t)))
      with (match trimEnd (String a t) with
            | EmptyString => if isSpace c then EmptyString else String c EmptyString
            | String a' t' => String c (String a' t')
            end).
    by rewrite IH.
Qed.

(** Trimming a trimmed text changes nothing. *)
Lemma trim_idem s : trim (trim s) = trim s.
Proof.
  unfold trim.
  assert (trimStart (trimEnd (trimStart s)) = trimEnd (trimStart s)) as ->.
  { destruct (trimStart_head s) as [->|(c & t & -> & Hc)]; [done|].
    rewrite trimEnd_head by done. cbn [trimStart]. by rewrite Hc. }
  apply trimEnd_idem.
Qed.

Lemma onData_queryOf results data :
  onData results data = results ++ option_list (queryOf data).
Proof.
  unfold onData, queryOf. cbn zeta.
  destruct (pick data) as [|c q] eqn:E.
  { cbn. by rewrite (right_id_L [] (++)). }
  cbn [Page.nonEmpty andb].
  destruct (Page.nonEmpty (trim (String c q))); [done|].
  cbn. by rewrite (right_id_L [] (++)).
Qed.

Lemma foldl_onData rows : ∀ results,
  foldl onData results rows = results ++ omap queryOf rows.
Proof.
  induction rows as [|data rows IH]; intros results.
  { cbn. by rewrite (right_id_L [] (++)). }
  cbn [foldl]. rewrite IH, onData_queryOf. rewrite <- (assoc_L (++)).
  f_equal. cbn. by destruct (queryOf data).
Qed.

Lemma queryOf_trimmed data q :
  queryOf data = Some q → q ≠ EmptyString ∧ trim q = q.
Proof.
  unfold queryOf. cbn zeta.
  destruct (Page.nonEmpty (trim (pick data))) eqn:E; [|done].
  intros [= <-]. split; [by destruct (trim (pick data))|apply trim_idem].
Qed.

(** X10.  The queries read from the input file are, in the order of the
    rows, the trimmed values of the rows that have one: each is non-empty
    and has no white space at either end.  The value of a row is that of
    its [query] column when the column exists, even empty; else that of
    its [q] column when that exists, even when there is a [search] column
    too; else that of [search]; else empty.  A file that does not exist
    gives no query, and so does a file without a usable row: the entry
    point then stops at once with the fatal exit.  The promise rejects
    only when the parser reports an error; an error of the file stream
    itself is not handled, the promise then never settles. *)
Theorem readCSV_gives_trimmed_queries (f : file) :
  match readCSV f with
  | Resolves qs =>
      Forall (λ q, q ≠ EmptyString ∧ trim q = q) qs
      ∧ qs = match f with
             | Some (rows, _) => omap queryOf rows
             | None => []
             end
      ∧ (qs = [] → ∀ cfg envs, Scheduler.main cfg qs envs = ([], Scheduler.Fatal))
  | Fails => ∃ rows, f = Some (rows, ParserError)
  | Uncaught => ∃ rows, f = Some (rows, ReadError)
  end
  ∧ (∀ data v, data !! "query" = Some v → pick data = v)
  ∧ (∀ data v, data !! "query" = None → data !! "q" = Some v → pick data = v)
  ∧ (∀ data, data !! "query" = None → data !! "q" = None →
             pick data = default EmptyString (data !! "search"))
  ∧ (∀ data, data !! "query" = Some EmptyString → queryOf data = None).
Proof.
  split; [|split; [|split; [|split]]].
  - destruct f as [[rows []]|]; cbn [readCSV].
    + rewrite foldl_onData. cbn [app]. split; [|split; [done|by intros ->]].
      apply Forall_forall. intros q (data & _ & Hq)%list_elem_of_omap.
      by apply (queryOf_trimmed data).
    + by exists rows.
    + by exists rows.
    + split; [constructor|]. by split.
  - intros data v H. unfold pick. by rewrite H.
  - intros data v H1 H2. unfold pick. by rewrite H1, H2.
  - intros data H1 H2. unfold pick. by rewrite H1, H2.
  - intros data H. unfold queryOf, pick. by rewrite H.
Qed.

End InputSpec.

(** ** The answer of the challenge detector *)

Module DetectorSpec.
Import Detector.

Lemma tryAcceptConsentFrom_true p selectors :
  tryAcceptConsentFrom p selectors = true
  ↔ ∃ sel u, sel ∈ selectors ∧ p sel = ConsentButton (Fulfilled tt) u
             ∧ isConsent u = false.
Proof.
  induction selectors as [|sel rest IH].
  { split; [done|]. by intros (? & ? & ?%elem_of_nil & _). }
  cbn [tryAcceptConsentFrom]. split.
  - destruct (p sel) as [|[[]|] u] eqn:E.
    + intros (s & u & ? & ?)%IH. exists s, u. split; [by right|done].
    + destruct (isConsent u) eqn:C.
      * intros (s & u' & ? & ?)%IH. exists s, u'. split; [by right|done].
      * intros _. exists sel, u. split; [by left|done].
    + intros (s & u' & ? & ?)%IH. exists s, u'. split; [by right|done].
  - intros (s & u & [->|Hin]%elem_of_cons & Hp & Hu).
    + by rewrite Hp, Hu.
    + assert (tryAcceptConsentFrom p rest = true) as H by (apply IH; eauto).
      destruct (p sel) as [|[[]|] u']; try done. by destruct (isConsent u').
Qed.

(** The requests of the solver carry the site key and the address it was
    called with. *)
Lemma solver_posts cfg svc a :
  Forall (λ b, Solver.sitekey b = Solver.siteKey a
               ∧ Solver.url b = Solver.pageUrl a)
    (Calls.posted (Solver.solveRecaptchaToken cfg svc a).1).
Proof.
  unfold Solver.solveRecaptchaToken.
  destruct (NOPECHA_API_KEY cfg); [constructor|].
  pose proof (SolverBounds.tryTypes_bounds cfg svc a
                (Solver.candidateTypes (Solver.typeHint a))) as B.
  destruct (Solver.tryTypes _ _ _ _) as [tr res].
  cbn [fst]. destruct B as ((n & -> & _) & _).
  apply Forall_fmap, Forall_forall. by intros t _.
Qed.

Lemma solver_silent_without_key cfg svc a :
  NOPECHA_API_KEY cfg = EmptyString →
  Solver.solveRecaptchaToken cfg svc a = ([], None).
Proof. unfold Solver.solveRecaptchaToken. by intros ->. Qed.

(** X11.  The answer of [maybeHandleCaptcha], whatever the page and the
    service do.  A challenge is never reported solved without being
    reported present.  It is reported solved in three cases only: the
    consent page was left after the click on one of the consent buttons;
    or a challenge was detected, a site key was found and the helper
    solved it; or a challenge was detected, a site key was found, the
    solver returned a token, and writing the token into the page and the
    wait after it both succeeded.  So without an API key and without the
    helper only a consent page can be reported solved. *)
Theorem solved_only_by_consent_helper_or_token cfg svc pg :
  let s := maybeHandleCaptcha cfg svc pg in
  (Session.solved s = true → Session.present s = true)
  ∧ (Session.solved s = true →
     (isConsent (url pg) = true
      ∧ ∃ sel u, sel ∈ CONSENT_SELECTORS
                 ∧ consentProbes pg sel = ConsentButton (Fulfilled tt) u
                 ∧ isConsent u = false)
     ∨ (detected pg = Fulfilled true
        ∧ ∃ k, findSitekey pg = Some k
               ∧ (helper pg = Some (Fulfilled tt)
                  ∨ (NOPECHA_API_KEY cfg ≠ EmptyString
                     ∧ (∃ token,
                          (Solver.solveRecaptchaToken cfg svc (solveArgs pg k)).2
                          = Some token)
                     ∧ inject pg = Fulfilled tt
                     ∧ injectWait pg = Fulfilled tt))))
  ∧ (NOPECHA_API_KEY cfg = EmptyString → helper pg = None →
     Session.solved s = true →
     isConsent (url pg) = true ∧ tryAcceptConsent (consentProbes pg) = true).
Proof.
  intros s. subst s. unfold maybeHandleCaptcha, body.
  destruct (isConsent (url pg) && tryAcceptConsent (consentProbes pg)) eqn:C.
  { apply andb_true_iff in C as [C1 C2]. cbn.
    split; [done|]. split; [|done]. intros _. left. split; [done|].
    by apply tryAcceptConsentFrom_true. }
  destruct (detected pg) as [[|]|] eqn:D; [|by cbn..].
  destruct (findSitekey pg) as [k|] eqn:K.
  2:{ destruct (extension pg); [destruct (extensionWait pg)|]; by cbn. }
  destruct (helper pg) as [[[]|]|] eqn:H.
  { cbn. split; [done|]. split; [|done]. intros _. right. split; [done|].
    exists k. split; [done|]. by left. }
  all: destruct (NOPECHA_API_KEY cfg) as [|c key] eqn:Key;
    [by rewrite solver_silent_without_key|].
  all: destruct (Solver.solveRecaptchaToken cfg svc (solveArgs pg k))
         as [calls [token|]] eqn:S; [|by cbn].
  all: destruct (Solver.truthy token); [|by cbn].
  all: destruct (inject pg) as [[]|] eqn:I; [|by cbn].
  all: destruct (injectWait pg) as [[]|] eqn:W; [|by cbn].
  all: cbn; split; [done|]; split; [|done]; intros _; right; split; [done|].
  all: exists k; split; [done|]; right; rewrite S; cbn; eauto.
Qed.

(** X12.  The service is called only when a challenge was detected, the
    consent page was not left, a site key was found and the helper did not
    solve the challenge; every request then carries that site key and the
    address of the page as read at the start.  An exception that reaches
    the outer [catch] (a probe of the detection that throws, or the wait
    granted to the extension) makes the answer absent and unsolved, with
    no call made: the session then treats the page as free of challenge. *)
Theorem solver_called_with_the_site_key cfg svc pg :
  let '(calls, answer) := body cfg svc pg in
  (calls ≠ [] →
   tryAcceptConsent (consentProbes pg) && isConsent (url pg) = false
   ∧ detected pg = Fulfilled true
   ∧ helper pg ≠ Some (Fulfilled tt)
   ∧ ∃ k, findSitekey pg = Some k
          ∧ calls = (Solver.solveRecaptchaToken cfg svc (solveArgs pg k)).1
          ∧ Forall (λ b, Solver.sitekey b = k ∧ Solver.url b = url pg)
              (Calls.posted calls))
  ∧ (answer = Rejected →
     calls = []
     ∧ maybeHandleCaptcha cfg svc pg
       = {| Session.present := false; Session.solved := false |}
     ∧ (detected pg = Rejected
        ∨ (detected pg = Fulfilled true ∧ findSitekey pg = None
           ∧ extension pg = true ∧ extensionWait pg = Rejected))).
Proof.
  unfold maybeHandleCaptcha, body. rewrite (andb_comm (tryAcceptConsent _)).
  destruct (isConsent (url pg) && tryAcceptConsent (consentProbes pg)) eqn:C.
  { cbn. split; [by intros []|done]. }
  destruct (detected pg) as [[|]|] eqn:D.
  2:{ cbn. split; [by intros []|done]. }
  2:{ cbn. split; [by intros []|]. intros _. by eauto. }
  destruct (findSitekey pg) as [k|] eqn:K.
  2:{ destruct (extension pg) eqn:X; [destruct (extensionWait pg) eqn:W|];
        cbn; (split; [by intros []|]); try done. intros _. by eauto 10. }
  pose proof (solver_posts cfg svc (solveArgs pg k)) as P.
  destruct (helper pg) as [[[]|]|] eqn:H.
  { cbn. split; [by intros []|done]. }
  all: destruct (Solver.solveRecaptchaToken cfg svc (solveArgs pg k))
         as [calls [token|]] eqn:S.
  all: try destruct (Solver.truthy token).
  all: try destruct (inject pg) as [[]|].
  all: try destruct (injectWait pg) as [[]|].
  all: cbn [fst snd] in *; (split; [|done]).
  all: intros _; split; [done|]; split; [done|]; split; [done|].
  all: exists k; split; [done|]; rewrite S; split; [done|exact P].
Qed.

End DetectorSpec.

(** ** Page numbers, the context and the browser *)

Module LifecycleSpec.
Import Session SessionFacts.

Lemma pageNumbers_app tr1 tr2 :
  Log.pageNumbers (tr1 ++ tr2) = Log.pageNumbers tr1 ++ Log.pageNumbers tr2.
Proof. apply omap_app. Qed.

Lemma pageNumbers_collect es : Log.pageNumbers (Collect <$> es) = [].
Proof. induction es as [|e es IH]; [done|]. by rewrite fmap_cons. Qed.

Lemma pageNumbers_handoff cfg q env new :
  Log.pageNumbers (handoff cfg q env new) = [].
Proof.
  destruct (decide (new = [])) as [->|Hne]; [done|].
  rewrite TraceFacts.handoff_events by done. cbn zeta.
  by destruct (supabase cfg).
Qed.

(** One pass announces the current page number, and the number grows by
    one exactly when the pass goes on to a next page. *)
Lemma pass_pageNumbers cfg q env st :
  let '(tr, st', r) := iteration cfg q env st in
  Log.pageNumbers tr = [pageNum st]
  ∧ pageNum st' = match r with Val _ => S (pageNum st) | Exit _ => pageNum st end.
Proof.
  destruct (blocks env st) eqn:B.
  { by rewrite iteration_blocked. }
  destruct (throws env) eqn:T.
  { by rewrite iteration_thrown. }
  rewrite iteration_extracts by done. cbn zeta.
  assert (P : ∀ n st0, pageNum (collect (newEmailsOf env st) (setCaptcha n st0))
                       = pageNum st0).
  { intros n st0. unfold collect.
    generalize (setCaptcha n st0) (eq_refl : pageNum (setCaptcha n st0) = pageNum st0).
    induction (newEmailsOf env st) as [|e es IH]; intros s Hs; [done|].
    cbn [foldl]. by apply IH. }
  rewrite !pageNumbers_app, pageNumbers_collect, pageNumbers_handoff.
  split.
  - by destruct (resolved env), (goToNextPage _).
  - destruct (goToNextPage _); cbn [nextPageNum pageNum]; by rewrite P.
Qed.

Lemma loop_pageNumbers cfg q script : ∀ st,
  let '(tr, st', r) := loop cfg q script st in
  Log.pageNumbers tr
  = seq (pageNum st)
      (pageNum st' - pageNum st + (if r is Some _ then 1 else 0))
  ∧ pageNum st ≤ pageNum st'.
Proof.
  induction script as [|env rest IH]; intros st.
  { cbn. rewrite Nat.sub_diag. done. }
  cbn [loop]. pose proof (pass_pageNumbers cfg q env st) as P.
  destruct (iteration cfg q env st) as [[tr st1] [[]|why]].
  - destruct P as [P1 P2]. specialize (IH st1).
    destruct (loop cfg q rest st1) as [[tr' st2] r]. destruct IH as [IH1 IH2].
    rewrite pageNumbers_app, P1, IH1, P2. split; [|lia].
    replace (pageNum st2 - pageNum st + (if r is Some _ then 1 else 0))
      with (S (pageNum st2 - S (pageNum st) + (if r is Some _ then 1 else 0)))
      by lia.
    done.
  - destruct P as [P1 ->]. rewrite P1, Nat.sub_diag. done.
Qed.

(** X13.  The page numbers announced by a session are 1, 2, 3 and so on
    without a gap or a repeat, one per pass; when the session returns, the
    last number announced is the page counter it ends with, and when the
    script ends inside the loop the counter is one ahead. *)
Theorem page_numbers_count_the_passes cfg q env :
  let '(tr, r) := runQuery cfg q env in
  match r with
  | Returned st _ =>
      Log.pageNumbers tr = seq 1 (pageNum st) ∧ Trace.passes tr = pageNum st
  | Unfinished st =>
      Log.pageNumbers tr = seq 1 (pageNum st - 1)
      ∧ Trace.passes tr = pageNum st - 1
  | Rejects => Log.pageNumbers tr = [] ∧ Trace.passes tr = 0
  end.
Proof.
  assert (Hpasses : ∀ tr, Trace.passes tr = length (Log.pageNumbers tr)).
  { induction tr as [|ev tr IH]; [done|].
    unfold Trace.passes in *. cbn [Trace.count]. rewrite IH.
    by destruct ev. }
  unfold runQuery.
  destruct (newContext env); [|done]. destruct (newPage env); [|done].
  pose proof (loop_pageNumbers cfg q (pages env) initial) as L.
  destruct (loop cfg q (pages env) initial) as [[tr st] [why|]];
    destruct L as [L1 L2]; cbn [initial pageNum] in L1, L2.
  - assert (E : Log.pageNumbers
                  ([AcquireContext; NewPage; Goto q (fulfils (goto env))] ++ tr
                   ++ (if bool_decide (why = Thrown) then [LogFailed] else [])
                   ++ [ReleaseContext (fulfils (close env))])
                = seq 1 (pageNum st)).
    { rewrite !pageNumbers_app, L1.
      replace (pageNum st - 1 + 1) with (pageNum st) by lia.
      case_bool_decide; cbn; by rewrite (right_id_L [] (++)). }
    split; [done|]. by rewrite Hpasses, E, length_seq.
  - assert (E : Log.pageNumbers
                  ([AcquireContext; NewPage; Goto q (fulfils (goto env))] ++ tr)
                = seq 1 (pageNum st - 1)).
    { rewrite pageNumbers_app, L1. by rewrite Nat.add_0_r. }
    split; [done|]. by rewrite Hpasses, E, length_seq.
Qed.

(** X15.  A session acquires at most one browser context and never
    releases more than it acquired.  Whenever the session returns, however
    the loop was left (blocked, out of pages or by an exception), it has
    acquired one context and released it once, as its last action, also
    when closing fails.  Its promise rejects only when the context or the
    page cannot be opened; in that case nothing is released, so a context
    that was opened for a page that cannot be opened stays open. *)
Theorem context_released_when_session_returns cfg q env :
  let '(tr, r) := runQuery cfg q env in
  Trace.released tr ≤ Trace.acquired tr ≤ 1
  ∧ match r with
    | Returned _ _ =>
        Trace.acquired tr = 1 ∧ Trace.released tr = 1
        ∧ last tr = Some (ReleaseContext (fulfils (close env)))
    | Unfinished _ => Trace.acquired tr = 1 ∧ Trace.released tr = 0
    | Rejects =>
        Trace.released tr = 0
        ∧ (Trace.acquired tr = 1 ↔ newContext env ≠ Rejected)
    end
  ∧ (r = Rejects ↔ newContext env = Rejected ∨ newPage env = Rejected).
Proof.
  unfold runQuery.
  destruct (newContext env) as [[]|].
  2:{ cbn. split; [lia|]. split; [split; [done|]|]; split; try done; auto. }
  destruct (newPage env) as [[]|].
  2:{ cbn. split; [lia|]. split; [split; [done|]|]; split; auto. }
  pose proof (ContextSpec.loop_no_context cfg q (pages env) initial) as (A & R).
  destruct (loop cfg q (pages env) initial) as [[tr st] [why|]];
    cbn [fst snd] in *; unfold Trace.acquired, Trace.released in *.
  - rewrite !TraceFacts.count_app, A, R.
    assert (last ([AcquireContext; NewPage; Goto q (fulfils (goto env))] ++ tr
                  ++ (if bool_decide (why = Thrown) then [LogFailed] else [])
                  ++ [ReleaseContext (fulfils (close env))])
            = Some (ReleaseContext (fulfils (close env)))) as ->.
    { by rewrite !(assoc_L (++)), last_snoc. }
    case_bool_decide; cbn; (split; [lia|]); (split; [done|]);
      split; try done; by intros [|].
  - rewrite !TraceFacts.count_app, A, R. cbn.
    split; [lia|]. split; [done|]. split; [done|]. by intros [|].
Qed.

Lemma batchLoop_keeps_browser fuel C queries run : ∀ idx,
  Log.closings (Scheduler.batchLoop fuel C queries run idx).1 = 0
  ∧ (Scheduler.batchLoop fuel C queries run idx).2 ≠ Scheduler.Fatal.
Proof.
  induction fuel as [|fuel IH]; intros idx.
  { cbn [Scheduler.batchLoop]. by destruct (idx <? length queries). }
  rewrite SchedulerSpec.batchLoop_unfold.
  destruct (idx <? length queries); [|done]. cbn zeta.
  destruct (Scheduler.allSettled _); [|done].
  specialize (IH (idx + C)).
  by destruct (Scheduler.batchLoop fuel C queries run (idx + C)).
Qed.

Lemma closings_app tr1 tr2 :
  Log.closings (tr1 ++ tr2) = Log.closings tr1 + Log.closings tr2.
Proof.
  induction tr1 as [|ev tr1 IH]; [done|]. destruct ev; cbn; by rewrite ?IH.
Qed.

Lemma batches_keep_browser fuel C queries run :
  Log.closings (Scheduler.batches fuel C queries run).1 = 0
  ∧ (Scheduler.batches fuel C queries run).2 ≠ Scheduler.Fatal.
Proof.
  destruct C as [|n|]; SchedulerSpec.by_ceiling;
    [|apply batchLoop_keeps_browser..].
  destruct (0 <? length queries); [|done]. by destruct fuel.
Qed.

(** X14.  The entry point closes the browser at most once, as its last
    action, and exactly when the batching loop has run to its end.  Every
    query has then been started, unless the ceiling is not a number: in
    that case the browser is closed with no query started at all.  While
    a batch is pending the browser is not closed, and without any query
    nothing is started and the browser is never closed. *)
Theorem browser_closed_after_the_last_batch cfg queries envs :
  let '(tr, r) := Scheduler.main cfg queries envs in
  (r = Scheduler.Completed →
   Log.closings tr = 1 ∧ last tr = Some Scheduler.CloseBrowser
   ∧ (CONCURRENCY cfg ≠ NotANumber →
      concat (Scheduler.launched tr) = queries)
   ∧ (CONCURRENCY cfg = NotANumber →
      concat (Scheduler.launched tr) = []))
  ∧ (r ≠ Scheduler.Completed → Log.closings tr = 0)
  ∧ (r = Scheduler.Fatal ↔ queries = [])
  ∧ (queries = [] → tr = []).
Proof.
  unfold Scheduler.main. destruct queries as [|q0 qs]; [done|].
  set (queries := q0 :: qs).
  pose proof (batches_keep_browser (length queries) (CONCURRENCY cfg) queries
                (Scheduler.sessions cfg envs)) as [K F].
  assert (Hall : ∀ tr,
            Scheduler.batches (length queries) (CONCURRENCY cfg) queries
              (Scheduler.sessions cfg envs) = (tr, Scheduler.Completed) →
            (CONCURRENCY cfg ≠ NotANumber →
             concat (Scheduler.launched tr) = queries)
            ∧ (CONCURRENCY cfg = NotANumber →
               concat (Scheduler.launched tr) = [])).
  { intros tr. destruct (CONCURRENCY cfg) as [|n|]; SchedulerSpec.by_ceiling.
    - cbn. intros [= <-]. by split.
    - intros E.
      pose proof (SchedulerSafety.batchLoop_safe (length queries)
                    (Pos.to_nat n) queries (Scheduler.sessions cfg envs) 0) as S.
      rewrite E in S. destruct S as (_ & (rest & D & R) & _).
      rewrite drop_0, (R eq_refl), (right_id_L [] (++)) in D. by split.
    - intros E.
      pose proof (SchedulerSafety.batchLoop_safe (length queries)
                    (length queries) queries (Scheduler.sessions cfg envs) 0) as S.
      rewrite E in S. destruct S as (_ & (rest & D & R) & _).
      rewrite drop_0, (R eq_refl), (right_id_L [] (++)) in D. by split. }
  destruct (Scheduler.batches _ _ _ _) as [tr r]. cbn [fst snd] in *.
  assert (Hlaunched : ∀ tr', Scheduler.launched (tr' ++ [Scheduler.CloseBrowser])
                             = Scheduler.launched tr').
  { induction tr' as [|ev tr' IH]; [done|]. destruct ev; cbn; by rewrite ?IH. }
  destruct r.
  - split.
    { intros _. rewrite closings_app, K, last_snoc, Hlaunched.
      destruct (Hall tr eq_refl) as [H1 H2]. by repeat split. }
    split; [done|]. by split.
  - split; [done|]. split; [done|]. by split.
  - split; [done|]. split; [done|]. by split.
  - done.
Qed.

End LifecycleSpec.

(** ** What reaches the writers *)

Module HandoverSound.
Import Session.

(** X16.  Every record handed to the CSV writer or to the Supabase writer
    in a session carries the query of the session and an email that is the
    lower-case form of a well-formed address standing in the text of one
    of the pages of that session, free of deny-listed fragments. *)
Theorem handed_emails_stand_on_a_page cfg q env rows r :
  AppendToCSV rows ∈ (runQuery cfg q env).1
  ∨ SaveToSupabase rows ∈ (runQuery cfg q env).1 →
  r ∈ rows →
  Csv.query r = q
  ∧ Extractor.denyListed (Csv.email r) = false
  ∧ ∃ page text a pre post,
      page ∈ pages env ∧ innerText page = Fulfilled text
      ∧ Page.wellFormed a = true
      ∧ text = pre +:+ Page.addressText a +:+ post
      ∧ Csv.email r = Str.toLowerCase (Page.addressText a).
Proof.
  intros Hrows Hr.
  assert (∃ ev, (ev = AppendToCSV rows ∨ ev = SaveToSupabase rows)
                ∧ ev ∈ (runQuery cfg q env).1) as (ev & Hev & Hin).
  { destruct Hrows; eauto. }
  destruct (PersistSpec.handover_origin cfg q env ev) as
    (page & new & Hpage & Hne & Hnew & Hev' & _); [|done|].
  { by destruct Hev as [-> | ->]. }
  cbn zeta in Hev'.
  assert (rows = rowsFor q (clock page) new) as ->.
  { rewrite !elem_of_cons in Hev'.
    destruct Hev as [-> | ->];
      destruct Hev' as [E|[E|[E|E]]]; try congruence;
      destruct (supabase cfg);
      try (apply list_elem_of_singleton in E); try (apply elem_of_nil in E);
      done. }
  unfold rowsFor in Hr. apply elem_of_lookup_imap in Hr as (i & e & -> & He).
  cbn [Csv.query Csv.email]. split; [done|].
  apply list_elem_of_lookup_2, Hnew in He.
  destruct (innerText page) as [text|] eqn:T; [|by apply elem_of_nil in He].
  destruct (ExtractorSound.identity_sound text e He)
    as [(a & pre & post & Ha & Ht & Hl) Hdeny].
  split; [done|]. by exists page, text, a, pre, post.
Qed.

Lemma handed_emails_stand_on_a_page_witness :
  let env := Samples.sessionEnvs 0 in
  let r := {| Csv.email := "a@b.co"; Csv.query := "plumbers";
              Csv.timestamp := Session.clock
                (Samples.page Samples.clear (Fulfilled tt) (Fulfilled "a@b.co")
                   Samples.withoutNext) 0 |} in
  (AppendToCSV [r] ∈ (runQuery Samples.cfg "plumbers" env).1
   ∨ SaveToSupabase [r] ∈ (runQuery Samples.cfg "plumbers" env).1)
  ∧ r ∈ [r]
  ∧ Csv.query r = "plumbers"
  ∧ Extractor.denyListed (Csv.email r) = false.
Proof.
  intros env r.
  assert (H1 : AppendToCSV [r] ∈ (runQuery Samples.cfg "plumbers" env).1
               ∨ SaveToSupabase [r] ∈ (runQuery Samples.cfg "plumbers" env).1).
  { left. apply (bool_decide_unpack _). by vm_compute. }
  assert (H2 : r ∈ [r]) by (by left).
  split; [exact H1|]. split; [exact H2|].
  destruct (handed_emails_stand_on_a_page Samples.cfg "plumbers" env [r] r H1 H2)
    as (Q & D & _).
  by split.
Defined.

End HandoverSound.

(** ** C5: where the errors of a session go *)

Module ErrorFlow.
Import Session SessionFacts.

(** The loop is left by an exception only from the wait after a solved
    challenge: the trace ends with that wait. *)
Lemma loop_thrown_tail cfg q script : ∀ st tr st',
  loop cfg q script st = (tr, st', Some Thrown) →
  ∃ tr0 n, tr = tr0 ++ [Detect n; RecoveryWait].
Proof.
  induction script as [|env rest IH]; intros st tr st'; [done|].
  cbn [loop]. pose proof (pass_result cfg q env st) as R.
  destruct (throws env) eqn:T.
  { rewrite iteration_thrown by done. intros [= <- _].
    by exists [], (pageNum st). }
  destruct (iteration cfg q env st) as [[tr1 st1] [[]|why]] eqn:It.
  - destruct (loop cfg q rest st1) as [[tr2 st2] r] eqn:L.
    intros [= <- <- ->]. destruct (IH _ _ _ L) as (tr0 & n & ->).
    exists (tr1 ++ tr0), n. by rewrite (assoc_L (++)).
  - intros [= <- <- ->]. cbn [snd] in R. unfold passResult in R.
    rewrite T in R. destruct (blocks env st); [done|].
    by destruct (goToNextPage _).
Qed.

Lemma body_rejected cfg svc pg :
  (Detector.body cfg svc pg).2 = Rejected
  ↔ Detector.isConsent (Detector.url pg)
    && Detector.tryAcceptConsent (Detector.consentProbes pg) = false
    ∧ (Detector.detected pg = Rejected
       ∨ (Detector.detected pg = Fulfilled true
          ∧ Detector.findSitekey pg = None
          ∧ Detector.extension pg = true
          ∧ Detector.extensionWait pg = Rejected)).
Proof.
  unfold Detector.body.
  destruct (Detector.isConsent _ && Detector.tryAcceptConsent _) eqn:C.
  { cbn. split; [done|]. by intros [? _]. }
  destruct (Detector.detected pg) as [[|]|] eqn:D.
  2:{ cbn. split; [done|]. by intros [_ [|[? _]]]. }
  2:{ cbn. split; [by auto|done]. }
  destruct (Detector.findSitekey pg) as [k|] eqn:K.
  2:{ destruct (Detector.extension pg) eqn:X;
        [destruct (Detector.extensionWait pg) as [[]|] eqn:W|]; cbn.
      - split; [done|]. by intros [_ [|(_ & _ & _ & ?)]].
      - split; [|done]. intros _. split; [done|]. right. by repeat split.
      - split; [done|]. by intros [_ [|(_ & _ & ? & _)]]. }
  assert (Hno : ¬ (true = false
                   ∧ (Fulfilled true = Rejected
                      ∨ (Fulfilled true = Fulfilled true
                         ∧ Some k = None
                         ∧ Detector.extension pg = true
                         ∧ Detector.extensionWait pg = Rejected)))).
  { by intros [? _]. }
  destruct (Detector.helper pg) as [[[]|]|].
  { cbn. split; [done|]. by intros [_ [|(_ & ? & _)]]. }
  all: destruct (Solver.solveRecaptchaToken _ _ _) as [calls [token|]].
  all: try destruct (Solver.truthy token).
  all: try destruct (Detector.inject pg) as [[]|].
  all: try destruct (Detector.injectWait pg) as [[]|].
  all: cbn; split; [done|]; by intros [_ [|(_ & ? & _)]].
Qed.

Lemma token_flow_error cfg svc pg k calls token :
  Detector.isConsent (Detector.url pg)
  && Detector.tryAcceptConsent (Detector.consentProbes pg) = false →
  Detector.detected pg = Fulfilled true →
  Detector.findSitekey pg = Some k →
  Detector.helper pg ≠ Some (Fulfilled tt) →
  Solver.solveRecaptchaToken cfg svc (Detector.solveArgs pg k)
  = (calls, Some token) →
  Detector.inject pg = Rejected ∨ Detector.injectWait pg = Rejected →
  (Detector.body cfg svc pg).2
  = Fulfilled {| present := true; solved := false |}.
Proof.
  intros C D K H S E. unfold Detector.body. rewrite C, D, K, S.
  destruct (Detector.helper pg) as [[[]|]|]; [done|..].
  all: destruct (Solver.truthy token); [|done].
  all: destruct E as [-> | ->]; [done|].
  all: by destruct (Detector.inject pg).
Qed.

(** How a pass ends and the state it leaves depend on the detection, the
    recovery wait, the page text and the paginator only: not on what the
    two writers answer. *)
Lemma writes_do_not_matter cfg q env env' st :
  detect env' = detect env → recoveryWait env' = recoveryWait env →
  innerText env' = innerText env → nextProbe env' = nextProbe env →
  (iteration cfg q env' st).2 = (iteration cfg q env st).2
  ∧ (iteration cfg q env' st).1.2 = (iteration cfg q env st).1.2.
Proof.
  intros Hd Hw Hi Hn.
  assert (Hu : unresolved env' = unresolved env)
    by (unfold unresolved; by rewrite Hd).
  assert (Hc : counterAfter env' st = counterAfter env st)
    by (unfold counterAfter; by rewrite Hu).
  assert (Hb : blocks env' st = blocks env st)
    by (unfold blocks; by rewrite Hu, Hc).
  assert (Ht : throws env' = throws env)
    by (unfold throws, resolved; by rewrite Hd, Hw).
  assert (He : newEmailsOf env' st = newEmailsOf env st)
    by (unfold newEmailsOf; by rewrite Hi).
  destruct (blocks env st) eqn:B.
  { rewrite !iteration_blocked by congruence. cbn [fst snd]. by rewrite Hc. }
  destruct (throws env) eqn:T.
  { by rewrite !iteration_thrown by congruence. }
  rewrite !iteration_extracts by congruence. cbn [fst snd].
  by rewrite Hn, He, Hc.
Qed.

(** C5, amended.  Where the errors of a query session go.
    Challenge handling: an error that reaches its outer handler (a probe
    of the detection that throws, or the wait granted to the extension) is
    answered as no challenge, and the pass goes on with the counter of
    unsolved challenges at zero; an error of the token flow (writing the
    token into the page, or the wait after it) is answered as a challenge
    present and unsolved, which counts: the pass blocks the query when two
    such passes came directly before it.  An error while the page text is
    read gives no address; how the pass ends and the state it leaves do
    not depend on what the two writers answer.
    None of these ends the pass: unless the pass blocks the query, when
    the paginator advances the loop goes on with the detection of the next
    pass, and when every selector of the paginator throws the session
    ends as exhausted.  The one exception that leaves a pass is that of
    the wait after a solved challenge: it ends the loop, the failure is
    logged, the context is released as the last action and the session
    returns. *)
Theorem errors_contained_or_logged_and_released cfg svc pg q env rest st senv :
  ((Detector.body cfg svc pg).2 = Rejected
   ↔ Detector.isConsent (Detector.url pg)
     && Detector.tryAcceptConsent (Detector.consentProbes pg) = false
     ∧ (Detector.detected pg = Rejected
        ∨ (Detector.detected pg = Fulfilled true
           ∧ Detector.findSitekey pg = None
           ∧ Detector.extension pg = true
           ∧ Detector.extensionWait pg = Rejected)))
  ∧ ((Detector.body cfg svc pg).2 = Rejected →
     Detector.maybeHandleCaptcha cfg svc pg
     = {| present := false; solved := false |})
  ∧ (∀ k calls token,
       Detector.isConsent (Detector.url pg)
       && Detector.tryAcceptConsent (Detector.consentProbes pg) = false →
       Detector.detected pg = Fulfilled true →
       Detector.findSitekey pg = Some k →
       Detector.helper pg ≠ Some (Fulfilled tt) →
       Solver.solveRecaptchaToken cfg svc (Detector.solveArgs pg k)
       = (calls, Some token) →
       Detector.inject pg = Rejected ∨ Detector.injectWait pg = Rejected →
       Detector.maybeHandleCaptcha cfg svc pg
       = {| present := true; solved := false |})
  ∧ (detect env = (Detector.body cfg svc pg).2 →
     ((Detector.body cfg svc pg).2 = Rejected →
      unresolved env = false ∧ counterAfter env st = 0
      ∧ blocks env st = false ∧ throws env = false)
     ∧ (Detector.maybeHandleCaptcha cfg svc pg
        = {| present := true; solved := false |} →
        unresolved env = true
        ∧ counterAfter env st = S (consecutiveCaptcha st)
        ∧ throws env = false
        ∧ (blocks env st = true ↔ 2 ≤ consecutiveCaptcha st)))
  ∧ (innerText env = Rejected → newEmailsOf env st = [])
  ∧ (∀ env',
       detect env' = detect env → recoveryWait env' = recoveryWait env →
       innerText env' = innerText env → nextProbe env' = nextProbe env →
       (iteration cfg q env' st).2 = (iteration cfg q env st).2
       ∧ (iteration cfg q env' st).1.2 = (iteration cfg q env st).1.2)
  ∧ (blocks env st = false → throws env = false → advances env →
     (iteration cfg q env st).2 = Val tt
     ∧ loop cfg q (env :: rest) st
       = let '(tr', st'', r) := loop cfg q rest (iteration cfg q env st).1.2 in
         ((iteration cfg q env st).1.1 ++ tr', st'', r))
  ∧ ((∀ sel, nextProbe env sel = ProbeRejects) →
     blocks env st = false → throws env = false →
     (iteration cfg q env st).2 = Exit Exhausted)
  ∧ ((iteration cfg q env st).2 = Exit Thrown
     ↔ resolved env = true ∧ recoveryWait env = Rejected)
  ∧ (resolved env = true → recoveryWait env = Rejected →
     loop cfg q (env :: rest) st
     = ([Detect (pageNum st); RecoveryWait], setCaptcha 0 st, Some Thrown))
  ∧ (∀ tr st',
       newContext senv = Fulfilled tt → newPage senv = Fulfilled tt →
       loop cfg q (pages senv) initial = (tr, st', Some Thrown) →
       (∃ tr0 n, tr = tr0 ++ [Detect n; RecoveryWait])
       ∧ runQuery cfg q senv
         = ([AcquireContext; NewPage; Goto q (fulfils (goto senv))] ++ tr
              ++ [LogFailed; ReleaseContext (fulfils (close senv))],
            Returned st' Thrown)).
Proof.
  destruct (ErrorSpec.pass_errors_contained_but_recovery_wait cfg q env rest st)
    as (Hthrown & _ & Hgo & Hleave & Hpag).
  assert (Hthrows : throws env = true
                    ↔ resolved env = true ∧ recoveryWait env = Rejected).
  { unfold throws. destruct (resolved env); [|by split; [|intros []]].
    destruct (recoveryWait env) as [[]|]; by split; [|intros []]. }
  split; [apply body_rejected|]. split.
  { unfold Detector.maybeHandleCaptcha. by intros ->. }
  split.
  { intros k calls token C D K H S E. unfold Detector.maybeHandleCaptcha.
    by rewrite (token_flow_error cfg svc pg k calls token). }
  split.
  { intros Hd. unfold Detector.maybeHandleCaptcha.
    unfold blocks, throws, counterAfter, unresolved, resolved. rewrite Hd.
    split.
    - intros ->. by cbn.
    - intros ->. cbn [present solved andb negb]. split; [done|].
      split; [done|]. split; [done|].
      destruct (consecutiveCaptcha st) as [|[|c]]; cbn; split; try done; lia. }
  split.
  { unfold newEmailsOf. by intros ->. }
  split; [intros env'; apply writes_do_not_matter|].
  split; [done|]. split; [done|]. split.
  { by rewrite Hthrown, Hthrows. }
  split.
  { intros H1 H2. apply Hleave, Hthrows. by split. }
  intros tr st' Hc Hp L. split; [by apply (loop_thrown_tail cfg q _ _ _ _ L)|].
  unfold runQuery. rewrite Hc, Hp, L. cbn [app].
  by rewrite bool_decide_eq_true_2.
Qed.

Lemma errors_contained_or_logged_and_released_witness :
  Detector.maybeHandleCaptcha Samples.cfg Samples.service PageSamples.tokenLost
  = {| present := true; solved := false |}
  ∧ blocks PageSamples.lostPass (setCaptcha 1 initial) = false
  ∧ blocks PageSamples.lostPass (setCaptcha 2 initial) = true
  ∧ ∃ tr0 n st',
      runQuery Samples.cfg "plumbers" PageSamples.thrownSession
      = ([AcquireContext; NewPage; Goto "plumbers" true]
           ++ (tr0 ++ [Detect n; RecoveryWait])
           ++ [LogFailed; ReleaseContext true],
         Returned st' Thrown).
Proof.
  pose proof (errors_contained_or_logged_and_released Samples.cfg
                Samples.service PageSamples.tokenLost "plumbers"
                PageSamples.lostPass [] (setCaptcha 2 initial)
                PageSamples.thrownSession)
    as (_ & _ & Htok & Hpass & _ & _ & _ & _ & _ & _ & Hrun).
  pose proof (errors_contained_or_logged_and_released Samples.cfg
                Samples.service PageSamples.tokenLost "plumbers"
                PageSamples.lostPass [] (setCaptcha 1 initial)
                PageSamples.thrownSession)
    as (_ & _ & _ & Hpass1 & _).
  assert (M : Detector.maybeHandleCaptcha Samples.cfg Samples.service
                PageSamples.tokenLost
              = {| present := true; solved := false |}).
  { apply (Htok "6Lc-site"
             [Solver.Post (Solver.bodyFor Samples.cfg
                             (Detector.solveArgs PageSamples.tokenLost "6Lc-site")
                             "recaptcha3");
              Solver.Post (Solver.bodyFor Samples.cfg
                             (Detector.solveArgs PageSamples.tokenLost "6Lc-site")
                             "recaptcha")]
             (Solver.JString "T")).
    - vm_compute; reflexivity.
    - vm_compute; reflexivity.
    - vm_compute; reflexivity.
    - discriminate.
    - vm_compute; reflexivity.
    - left; reflexivity. }
  split; [exact M|].
  destruct (Hpass eq_refl) as [_ Hb]. destruct (Hb M) as (_ & _ & _ & Hblk).
  destruct (Hpass1 eq_refl) as [_ Hb1]. destruct (Hb1 M) as (_ & _ & _ & Hblk1).
  split.
  { destruct (blocks PageSamples.lostPass (setCaptcha 1 initial)); [|done].
    destruct Hblk1 as [Hc _]. specialize (Hc eq_refl). cbn in Hc. lia. }
  split; [apply Hblk; cbn; lia|].
  destruct (loop Samples.cfg "plumbers" (pages PageSamples.thrownSession) initial)
    as [[tr st'] r] eqn:L.
  assert (r = Some Thrown) as -> by (vm_compute in L; congruence).
  destruct (Hrun tr st' eq_refl eq_refl eq_refl) as [(tr0 & n & ->) R].
  exists tr0, n, st'. exact R.
Defined.

End ErrorFlow.
